(** * Resource Governor: a shallow embedding of [lambda_function.py]

    The Lambda stops running EC2 instances and scales Auto Scaling Groups
    down to zero, region by region, skipping protected resources.

    Layout of the development:
    - [PyStr]     : the Python string methods the code calls;
    - [Py]        : dynamically typed leaf values of a provider response;
    - [Boto]      : requests, responses and the provider interface;
    - [Eff]       : the state-and-exception monad the code runs in;
    - [Governor]  : the seven functions of the source, over any provider;
    - [Aws]       : a deterministic provider with injected faults;
    - [Scenario], [Facts] : sample fleets and the vocabulary of the
                    properties;
    - lemmas for every provider, then for the deterministic one;
    - the properties of the specification, function group by function
      group. *)

From Stdlib Require Import String Ascii List ZArith Bool Arith Lia.
Import ListNotations.
Open Scope string_scope.

(* ================================================================== *)
(** ** Python strings

    A [str] is modelled as a [string] whose characters are the code points
    below 256; [lower], [strip] and [split] follow CPython on that range. *)
(* ================================================================== *)

Module PyStr.

Definition between (lo hi n : nat) : bool := ((lo <=? n) && (n <=? hi))%nat.

(** [str.lower] on one code point: A-Z, and the Latin-1 capitals
    U+00C0..U+00DE except the multiplication sign U+00D7. *)
Definition lower_char (c : ascii) : ascii :=
  let n := nat_of_ascii c in
  if between 65 90 n || (between 192 222 n && negb (n =? 215)%nat)
  then ascii_of_nat (n + 32)
  else c.

Fixpoint lower (s : string) : string :=
  match s with
  | EmptyString => EmptyString
  | String c s' => String (lower_char c) (lower s')
  end.

(** [str.isspace] on one code point. *)
Definition isspace (c : ascii) : bool :=
  let n := nat_of_ascii c in
  between 9 13 n || between 28 32 n || (n =? 133)%nat || (n =? 160)%nat.

Fixpoint lstrip (s : string) : string :=
  match s with
  | EmptyString => EmptyString
  | String c s' => if isspace c then lstrip s' else s
  end.

Fixpoint rstrip (s : string) : string :=
  match s with
  | EmptyString => EmptyString
  | String c s' =>
      match rstrip s' with
      | EmptyString => if isspace c then EmptyString else String c EmptyString
      | r => String c r
      end
  end.

(** [s.strip()] *)
Definition strip (s : string) : string := rstrip (lstrip s).

(** [s.split(sep)] for a one-character separator: never an empty list. *)
Fixpoint split (sep : ascii) (s : string) : list string :=
  match s with
  | EmptyString => [EmptyString]
  | String c s' =>
      if Ascii.eqb c sep then EmptyString :: split sep s'
      else match split sep s' with
           | [] => [String c EmptyString]
           | piece :: rest => String c piece :: rest
           end
  end.

(** [sep.join(pieces)] *)
Fixpoint join (sep : ascii) (pieces : list string) : string :=
  match pieces with
  | [] => EmptyString
  | [p] => p
  | p :: rest => p ++ String sep (join sep rest)
  end.

(** Truth value of a string: [bool(s)]. *)
Definition nonempty (s : string) : bool :=
  match s with EmptyString => false | _ => true end.

Fixpoint mem (c : ascii) (s : string) : bool :=
  match s with
  | EmptyString => false
  | String d s' => Ascii.eqb d c || mem c s'
  end.

End PyStr.

(* ================================================================== *)
(** ** Results and exceptions

    The code only ever writes [except Exception as e] and uses [str(e)],
    so an exception is represented by its message. *)
(* ================================================================== *)

Definition Exn := string.

Inductive Res (A : Type) : Type :=
| Ok (a : A)
| Exc (e : Exn).
Arguments Ok {A} a.
Arguments Exc {A} e.

Definition is_ok {A} (r : Res A) : bool :=
  match r with Ok _ => true | Exc _ => false end.

(* ================================================================== *)
(** ** Dynamically typed values *)
(* ================================================================== *)

Module Py.

Inductive pyval : Type :=
| PyNone
| PyBool (b : bool)
| PyInt (z : Z)
| PyStr (s : string).

Definition type_name (v : pyval) : string :=
  match v with
  | PyNone => "NoneType"
  | PyBool _ => "bool"
  | PyInt _ => "int"
  | PyStr _ => "str"
  end.

(** [bool(v)], as taken by [if v:]. *)
Definition truthy (v : pyval) : bool :=
  match v with
  | PyNone => false
  | PyBool b => b
  | PyInt z => negb (z =? 0)%Z
  | PyStr s => PyStr.nonempty s
  end.

(** [v.lower()]: an AttributeError unless [v] is a [str]. *)
Definition lower (v : pyval) : Res string :=
  match v with
  | PyStr s => Ok (PyStr.lower s)
  | _ => Exc ("'" ++ type_name v ++ "' object has no attribute 'lower'")
  end.

(** [v > n] for an int literal [n]: a TypeError on [None] and [str];
    [bool] is a subclass of [int]. *)
Definition gt (v : pyval) (n : Z) : Res bool :=
  match v with
  | PyInt z => Ok (n <? z)%Z
  | PyBool b => Ok (n <? (if b then 1 else 0))%Z
  | _ => Exc ("'>' not supported between instances of '"
              ++ type_name v ++ "' and 'int'")
  end.

(** [d[key]] on a dict whose entry for [key] is [field]: KeyError when
    the key is absent; [str(KeyError(k))] is the quoted key. *)
Definition getitem {A} (key : string) (field : option A) : Res A :=
  match field with
  | Some a => Ok a
  | None => Exc ("'" ++ key ++ "'")
  end.

(** [d.get(key, default)] *)
Definition get {A} (field : option A) (default : A) : A :=
  match field with
  | Some a => a
  | None => default
  end.

(** [xs.append(x)] and [xs.extend(ys)], as new lists. *)
Definition append {A} (xs : list A) (x : A) : list A := (xs ++ [x])%list.
Definition extend {A} (xs ys : list A) : list A := (xs ++ ys)%list.

End Py.
Import Py.

(* ================================================================== *)
(** ** The provider interface

    Responses are dicts: a key the code reads with [d[k]] or [d.get(k)]
    is an optional field, and only the keys the code reads are kept. *)
(* ================================================================== *)

Module Boto.

(** A client object: [boto3.client(service, region_name=region)]. *)
Record Client : Type := {
  service_name : string;
  region_name : string
}.

Record Filter : Type := {
  Name : string;
  Values : list string
}.

Record InstanceDesc : Type := {
  InstanceId : option string;
  InstanceType : option string
}.

Record Reservation : Type := {
  Instances : option (list InstanceDesc)
}.

Record DescribeInstancesResponse : Type := {
  Reservations : option (list Reservation)
}.

Record AttributeBooleanValue : Type := {
  AttrValue : option pyval          (* key 'Value' *)
}.

Record DescribeInstanceAttributeResponse : Type := {
  DisableApiStop : option AttributeBooleanValue
}.

Record TagDescription : Type := {
  Value : option pyval
}.

Record DescribeTagsResponse : Type := {
  Tags : option (list TagDescription)
}.

Record AutoScalingGroup : Type := {
  AutoScalingGroupName : option string;
  DesiredCapacity : option pyval;
  MaxSize : option pyval
}.

Record Page : Type := {
  AutoScalingGroups : option (list AutoScalingGroup)
}.

(** Every request the code can issue, with its arguments.  The page
    requests of the paginator are numbered from 0. *)
Inductive Call : Type :=
| boto3_client (service region : string)
| describe_instances (c : Client) (Filters : list Filter)
| describe_instance_attribute (c : Client) (InstanceId Attribute : string)
| describe_tags (c : Client) (Filters : list Filter)
| stop_instances (c : Client) (InstanceIds : list string)
| describe_auto_scaling_groups (c : Client) (page_index : nat)
| update_auto_scaling_group (c : Client) (AutoScalingGroupName : string)
    (MinSize : Z) (MaxSize : pyval) (DesiredCapacity : Z).

(** A provider over a service state [S]: one handler per operation.
    Each handler answers with a response or an exception and a new
    service state.  [paginate] returns the page iterator: a finite
    sequence of page requests, each answered against the service state
    at the moment the loop reaches it. *)
Record Provider (S : Type) : Type := {
  on_client : string -> string -> S -> Res unit * S;
  on_describe_instances :
    Client -> list Filter -> S -> Res DescribeInstancesResponse * S;
  on_describe_instance_attribute :
    Client -> string -> string -> S ->
    Res DescribeInstanceAttributeResponse * S;
  on_describe_tags :
    Client -> list Filter -> S -> Res DescribeTagsResponse * S;
  on_stop_instances : Client -> list string -> S -> Res unit * S;
  on_paginate : Client -> S -> list (S -> Res Page * S);
  on_update_auto_scaling_group :
    Client -> string -> Z -> pyval -> Z -> S -> Res unit * S
}.
Arguments on_client {S}.
Arguments on_describe_instances {S}.
Arguments on_describe_instance_attribute {S}.
Arguments on_describe_tags {S}.
Arguments on_stop_instances {S}.
Arguments on_paginate {S}.
Arguments on_update_auto_scaling_group {S}.

End Boto.
Import Boto.

(* ================================================================== *)
(** ** Effects

    A computation reads and writes a store and ends with a value or an
    exception; writes made before an exception is raised stay. *)
(* ================================================================== *)

Module Eff.

Definition M (St A : Type) : Type := St -> Res A * St.

Definition ret {St A} (a : A) : M St A := fun st => (Ok a, st).

Definition bind {St A B} (m : M St A) (k : A -> M St B) : M St B :=
  fun st =>
    match m st with
    | (Ok a, st') => k a st'
    | (Exc e, st') => (Exc e, st')
    end.

Definition raise {St A} (e : Exn) : M St A := fun st => (Exc e, st).

(** A pure step that may raise. *)
Definition pure {St A} (r : Res A) : M St A := fun st => (r, st).

(** [try: m  except Exception as e: h e] *)
Definition try_except {St A} (m : M St A) (h : Exn -> M St A) : M St A :=
  fun st =>
    match m st with
    | (Ok a, st') => (Ok a, st')
    | (Exc e, st') => h e st'
    end.

(** The local variables [L] of a function body sit next to the outer
    store; [lift] runs an outer computation inside the body. *)
Definition lift {St L A} (m : M St A) : M (St * L) A :=
  fun '(st, l) =>
    match m st with
    | (r, st') => (r, (st', l))
    end.

Definition modify {St L} (f : L -> L) : M (St * L) unit :=
  fun '(st, l) => (Ok tt, (st, f l)).

(** Run a body on fresh locals [init] and hand back their final value. *)
Definition with_local {St L A} (init : L) (m : M (St * L) A) : M St L :=
  fun st =>
    match m (st, init) with
    | (Ok _, (st', l)) => (Ok l, st')
    | (Exc e, (st', _)) => (Exc e, st')
    end.

(** [for x in xs: body x] *)
Fixpoint for_each {St A} (xs : list A) (body : A -> M St unit) : M St unit :=
  match xs with
  | [] => ret tt
  | x :: rest => bind (body x) (fun _ => for_each rest body)
  end.

End Eff.
Import Eff.

Declare Scope eff_scope.
Delimit Scope eff_scope with eff.
Notation "x <- m ;; k" := (bind m (fun x => k))
  (at level 61, m at next level, right associativity) : eff_scope.
Notation "m ;; k" := (bind m (fun _ => k))
  (at level 61, right associativity) : eff_scope.
Open Scope eff_scope.

(* ================================================================== *)
(** ** The source functions

    The store holds the provider's service state and the trace of the
    requests issued so far, oldest first.  [print] lines go to the log
    stream only and are left out; [json.dumps] is kept as the value it
    serialises. *)
(* ================================================================== *)

Record World (S : Type) : Type := {
  service : S;
  trace : list Call
}.
Arguments service {S}.
Arguments trace {S}.

(** The per-region result dict of [process_region]. *)
Record GovernanceResult : Type := {
  stopped_instances : list string;
  scaled_down_asgs : list string;
  errors : list string
}.

(** The [aggregate_results] dict of [lambda_handler]. *)
Record AggregateResult : Type := {
  agg_stopped_instances : list string;
  agg_scaled_down_asgs : list string;
  agg_errors : list string;
  regions_processed : list string
}.

Record Response : Type := {
  statusCode : Z;
  body : AggregateResult            (* json.dumps(aggregate_results) *)
}.

(** [os.environ.get('ALLOWED_REGIONS', 'us-east-1')], split on commas,
    each piece stripped, empty pieces dropped. *)
Definition get_allowed_regions (environ : string -> option string)
  : list string :=
  let allowed_regions_str := Py.get (environ "ALLOWED_REGIONS") "us-east-1" in
  map PyStr.strip
      (filter (fun region => PyStr.nonempty (PyStr.strip region))
              (PyStr.split "," allowed_regions_str)).

Section Governor.

Context {S : Type}.
Variable P : Provider S.

#[local] Abbreviation W := (World S).

(** Issue one request: log it, then let the provider answer. *)
Definition request {R} (c : Call) (h : S -> Res R * S) : M W R :=
  fun w =>
    match h (service w) with
    | (r, s') => (r, {| service := s'; trace := append (trace w) c |})
    end.

Definition new_client (service region : string) : M W Client :=
  request (boto3_client service region) (on_client P service region) ;;
  ret {| service_name := service; region_name := region |}.

Definition do_describe_instances (c : Client) (Filters : list Filter) :=
  request (describe_instances c Filters) (on_describe_instances P c Filters).

Definition do_describe_instance_attribute (c : Client) (id attr : string) :=
  request (describe_instance_attribute c id attr)
          (on_describe_instance_attribute P c id attr).

Definition do_describe_tags (c : Client) (Filters : list Filter) :=
  request (describe_tags c Filters) (on_describe_tags P c Filters).

Definition do_stop_instances (c : Client) (ids : list string) :=
  request (stop_instances c ids) (on_stop_instances P c ids).

Definition do_update_auto_scaling_group (c : Client) (name : string)
    (min : Z) (max : pyval) (desired : Z) :=
  request (update_auto_scaling_group c name min max desired)
          (on_update_auto_scaling_group P c name min max desired).

(** [get_paginator(...).paginate()]: the iterator, no request yet. *)
Definition do_paginate (c : Client) : M W (list (S -> Res Page * S)) :=
  fun w => (Ok (on_paginate P c (service w)), w).

(** [for tag in tags: if tag.get('Value', '').lower() == 'keep':
    return True] followed by [return False]. *)
Fixpoint any_keep_tag (tags : list TagDescription) : Res bool :=
  match tags with
  | [] => Ok false
  | tag :: rest =>
      match Py.lower (Py.get (Value tag) (PyStr "")) with
      | Exc e => Exc e
      | Ok v => if (v =? "keep")%string then Ok true else any_keep_tag rest
      end
  end.

(** The [try] block of [is_instance_stop_protected]. *)
Definition instance_protection_check (ec2 : Client) (instance_id : string)
  : M W bool :=
  response <- do_describe_instance_attribute ec2 instance_id
                "disableApiStop" ;;
  if truthy (Py.get (AttrValue
               (Py.get (DisableApiStop response) {| AttrValue := None |}))
               (PyBool false))
  then ret true
  else
    tags_response <- do_describe_tags ec2
      [ {| Name := "resource-id"; Values := [instance_id] |};
        {| Name := "key"; Values := ["ResourceGovernance"] |} ] ;;
    pure (any_keep_tag (Py.get (Tags tags_response) [])).

Definition is_instance_stop_protected (ec2 : Client) (instance_id : string)
  : M W bool :=
  try_except (instance_protection_check ec2 instance_id)
             (fun e => ret true).                        (* print(...) *)

(** The [try] block of [is_asg_protected]. *)
Definition asg_protection_check (autoscaling : Client) (asg_name : string)
  : M W bool :=
  response <- do_describe_tags autoscaling
    [ {| Name := "auto-scaling-group"; Values := [asg_name] |};
      {| Name := "key"; Values := ["ResourceGovernance"] |} ] ;;
  pure (any_keep_tag (Py.get (Tags response) [])).

Definition is_asg_protected (autoscaling : Client) (asg_name : string)
  : M W bool :=
  try_except (asg_protection_check autoscaling asg_name)
             (fun e => ret true).                        (* print(...) *)

(** The body of the inner loop of [stop_idle_instances]; the local is
    the list [stopped_instances]. *)
Definition stop_one (ec2 : Client) (region : string) (instance : InstanceDesc)
  : M (W * list string) unit :=
  instance_id <- pure (getitem "InstanceId" (InstanceId instance)) ;;
  let instance_type := Py.get (InstanceType instance) "unknown" in
  protected <- lift (is_instance_stop_protected ec2 instance_id) ;;
  if protected : bool then ret tt                          (* continue *)
  else
    try_except
      (lift (do_stop_instances ec2 [instance_id]) ;;
       modify (fun stopped_instances =>
                 append stopped_instances
                        (instance_id ++ " (" ++ region ++ ")")))
      (fun e =>
         let error_msg := "Failed to stop instance " ++ instance_id
                          ++ " in " ++ region ++ ": " ++ e in
         ret tt).                                      (* print(error_msg) *)

Definition stop_idle_instances (ec2 : Client) (region : string)
  : M W (list string) :=
  with_local []
    (try_except
       (response <- lift (do_describe_instances ec2
          [ {| Name := "instance-state-name"; Values := ["running"] |} ]) ;;
        reservations <- pure (getitem "Reservations" (Reservations response)) ;;
        for_each reservations (fun reservation =>
          instances <- pure (getitem "Instances" (Instances reservation)) ;;
          for_each instances (stop_one ec2 region)))
       (fun e => ret tt)).                               (* print(...) *)

(** The body of the inner loop of [scale_down_asgs]; the local is the
    list [scaled_down_asgs]. *)
Definition scale_one (autoscaling : Client) (region : string)
    (asg : AutoScalingGroup) : M (W * list string) unit :=
  asg_name <- pure (getitem "AutoScalingGroupName"
                            (AutoScalingGroupName asg)) ;;
  current_capacity <- pure (getitem "DesiredCapacity" (DesiredCapacity asg)) ;;
  protected <- lift (is_asg_protected autoscaling asg_name) ;;
  if protected : bool then ret tt                          (* continue *)
  else
    positive <- pure (Py.gt current_capacity 0) ;;
    if positive : bool then
      try_except
        (max_size <- pure (getitem "MaxSize" (MaxSize asg)) ;;
         lift (do_update_auto_scaling_group autoscaling asg_name
                 0 max_size 0) ;;
         modify (fun scaled_down_asgs =>
                   append scaled_down_asgs
                          (asg_name ++ " (" ++ region ++ ")")))
        (fun e =>
           let error_msg := "Failed to scale down ASG " ++ asg_name
                            ++ " in " ++ region ++ ": " ++ e in
           ret tt)                                     (* print(error_msg) *)
    else ret tt.                                           (* print(...) *)

(** [for page in paginator.paginate(): body page]: the next request is
    issued when the loop asks for the next page. *)
Fixpoint for_each_page {L} (c : Client) (page_index : nat)
    (pages : list (S -> Res Page * S)) (body : Page -> M (W * L) unit)
  : M (W * L) unit :=
  match pages with
  | [] => ret tt
  | fetch :: rest =>
      page <- lift (request (describe_auto_scaling_groups c page_index)
                            fetch) ;;
      body page ;;
      for_each_page c (Datatypes.S page_index) rest body
  end.

Definition scale_down_asgs (autoscaling : Client) (region : string)
  : M W (list string) :=
  with_local []
    (try_except
       (pages <- lift (do_paginate autoscaling) ;;
        for_each_page autoscaling 0 pages (fun page =>
          groups <- pure (getitem "AutoScalingGroups"
                                  (AutoScalingGroups page)) ;;
          for_each groups (scale_one autoscaling region)))
       (fun e => ret tt)).                               (* print(...) *)

Definition no_results : GovernanceResult :=
  {| stopped_instances := []; scaled_down_asgs := []; errors := [] |}.

(** [process_region] from [region_results = {...}] on: the local is the
    dict [region_results]. *)
Definition region_sweeps (ec2 autoscaling : Client) (region : string)
  : M W GovernanceResult :=
  with_local no_results
    (try_except
       (stopped <- lift (stop_idle_instances ec2 region) ;;
        modify (fun region_results =>
                  {| stopped_instances := stopped;
                     scaled_down_asgs := scaled_down_asgs region_results;
                     errors := errors region_results |}) ;;
        scaled <- lift (scale_down_asgs autoscaling region) ;;
        modify (fun region_results =>
                  {| stopped_instances := stopped_instances region_results;
                     scaled_down_asgs := scaled;
                     errors := errors region_results |}))
       (fun e =>
          let error_msg := "Error processing region " ++ region
                           ++ ": " ++ e in
          modify (fun region_results =>
                    {| stopped_instances := stopped_instances region_results;
                       scaled_down_asgs := scaled_down_asgs region_results;
                       errors := append (errors region_results)
                                        error_msg |}))).

Definition process_region (region : string) : M W GovernanceResult :=
  ec2 <- new_client "ec2" region ;;
  autoscaling <- new_client "autoscaling" region ;;
  region_sweeps ec2 autoscaling region.

Definition no_aggregate : AggregateResult :=
  {| agg_stopped_instances := []; agg_scaled_down_asgs := [];
     agg_errors := []; regions_processed := [] |}.

(** The [try] block of the driver loop, after [process_region] returned. *)
Definition merge_region (region : string) (r : GovernanceResult)
    (a : AggregateResult) : AggregateResult :=
  {| agg_stopped_instances :=
       extend (agg_stopped_instances a) (stopped_instances r);
     agg_scaled_down_asgs :=
       extend (agg_scaled_down_asgs a) (scaled_down_asgs r);
     agg_errors := extend (agg_errors a) (errors r);
     regions_processed := append (regions_processed a) region |}.

(** The [except] block of the driver loop. *)
Definition record_region_error (region : string) (e : Exn)
    (a : AggregateResult) : AggregateResult :=
  let error_msg := "Error processing region " ++ region ++ ": " ++ e in
  {| agg_stopped_instances := agg_stopped_instances a;
     agg_scaled_down_asgs := agg_scaled_down_asgs a;
     agg_errors := append (agg_errors a) error_msg;
     regions_processed := regions_processed a |}.

(** One iteration of [for region in allowed_regions]. *)
Definition handle_region (region : string) : M (W * AggregateResult) unit :=
  try_except
    (region_results <- lift (process_region region) ;;
     modify (merge_region region region_results))
    (fun e => modify (record_region_error region e)).

Definition lambda_handler (environ : string -> option string)
    (event context : pyval) : M W Response :=
  let allowed_regions := get_allowed_regions environ in
  aggregate_results <-
    with_local no_aggregate (for_each allowed_regions handle_region) ;;
  ret {| statusCode := 200; body := aggregate_results |}.

End Governor.

(* ================================================================== *)
(** ** A deterministic provider

    The service state lists the instances (by reservation), the groups
    (by listing page) and the tags, and carries the faults to inject: a
    request on which [fault] answers [Some e] raises [e] and changes
    nothing.  The state is all there is: two requests with the same
    arguments against the same state are answered alike. *)
(* ================================================================== *)

Module Aws.

Inductive InstanceState : Type :=
| pending | running | shutting_down | terminated | stopping | stopped.

Definition state_name (s : InstanceState) : string :=
  match s with
  | pending => "pending"
  | running => "running"
  | shutting_down => "shutting-down"
  | terminated => "terminated"
  | stopping => "stopping"
  | stopped => "stopped"
  end.

Record Instance : Type := {
  i_region : string;
  i_id : string;
  i_type : option string;
  i_state : InstanceState;
  i_disable_api_stop : bool
}.

Record Group : Type := {
  g_region : string;
  g_name : string;
  g_min : Z;
  g_max : Z;
  g_desired : Z
}.

Record ResourceTag : Type := {
  t_service : string;               (* "ec2" or "autoscaling" *)
  t_region : string;
  t_resource : string;
  t_key : string;
  t_value : string
}.

Record Cloud : Type := {
  reservations : list (list Instance);
  asg_pages : list (list Group);
  tags : list ResourceTag;
  fault : Call -> option Exn
}.

Definition is_in (x : string) (xs : list string) : bool :=
  existsb (String.eqb x) xs.

(** Answer [c] with the injected fault if there is one. *)
Definition guarded {R} (w : Cloud) (c : Call) (answer : Res R * Cloud)
  : Res R * Cloud :=
  match fault w c with
  | Some e => (Exc e, w)
  | None => answer
  end.

Definition own_instance (c : Client) (id : string) (i : Instance) : bool :=
  (i_region i =? region_name c)%string && (i_id i =? id)%string.

Definition own_group (c : Client) (name : string) (g : Group) : bool :=
  (g_region g =? region_name c)%string && (g_name g =? name)%string.

Definition describe_instance (i : Instance) : InstanceDesc :=
  {| InstanceId := Some (i_id i); InstanceType := i_type i |}.

Definition describe_group (g : Group) : AutoScalingGroup :=
  {| AutoScalingGroupName := Some (g_name g);
     DesiredCapacity := Some (PyInt (g_desired g));
     MaxSize := Some (PyInt (g_max g)) |}.

(** Instances: the only filter understood is [instance-state-name]. *)
Definition instance_selected (c : Client) (fs : list Filter) (i : Instance)
  : bool :=
  (i_region i =? region_name c)%string
  && forallb (fun f => is_in (state_name (i_state i)) (Values f)) fs.

Definition listed_instances (c : Client) (fs : list Filter) (w : Cloud)
  : list (list Instance) :=
  filter (fun r => negb (Nat.eqb (length r) 0))
         (map (filter (instance_selected c fs)) (reservations w)).

Definition ec2_describe_instances (c : Client) (fs : list Filter) (w : Cloud)
  : Res DescribeInstancesResponse * Cloud :=
  guarded w (describe_instances c fs)
    (if forallb (fun f => (Name f =? "instance-state-name")%string) fs
     then (Ok {| Reservations := Some
                   (map (fun r => {| Instances :=
                                       Some (map describe_instance r) |})
                        (listed_instances c fs w)) |}, w)
     else (Exc "InvalidParameterValue", w)).

Definition find_instance (c : Client) (id : string) (w : Cloud)
  : option Instance :=
  find (own_instance c id) (concat (reservations w)).

Definition ec2_describe_instance_attribute (c : Client) (id attr : string)
    (w : Cloud) : Res DescribeInstanceAttributeResponse * Cloud :=
  guarded w (describe_instance_attribute c id attr)
    (match find_instance c id w with
     | None => (Exc "InvalidInstanceID.NotFound", w)
     | Some i =>
         (Ok {| DisableApiStop :=
                  if (attr =? "disableApiStop")%string
                  then Some {| AttrValue :=
                                 Some (PyBool (i_disable_api_stop i)) |}
                  else None |}, w)
     end).

(** Tags: the filters understood are [key] and, by service,
    [resource-id] or [auto-scaling-group]. *)
Definition resource_filter (c : Client) : string :=
  if (service_name c =? "ec2")%string then "resource-id"
  else "auto-scaling-group".

Definition tag_filter_known (c : Client) (f : Filter) : bool :=
  (Name f =? resource_filter c)%string || (Name f =? "key")%string.

Definition tag_selected (c : Client) (fs : list Filter) (t : ResourceTag)
  : bool :=
  (t_service t =? service_name c)%string
  && (t_region t =? region_name c)%string
  && forallb (fun f =>
                if (Name f =? "key")%string then is_in (t_key t) (Values f)
                else is_in (t_resource t) (Values f)) fs.

Definition listed_tags (c : Client) (fs : list Filter) (w : Cloud)
  : list ResourceTag :=
  filter (tag_selected c fs) (tags w).

Definition aws_describe_tags (c : Client) (fs : list Filter) (w : Cloud)
  : Res DescribeTagsResponse * Cloud :=
  guarded w (describe_tags c fs)
    (if forallb (tag_filter_known c) fs
     then (Ok {| Tags := Some
                   (map (fun t => {| Value := Some (PyStr (t_value t)) |})
                        (listed_tags c fs w)) |}, w)
     else (Exc "InvalidParameterValue", w)).

(** Stopping: every id must exist; a running instance goes to stopping. *)
Definition stop (c : Client) (ids : list string) (i : Instance) : Instance :=
  if (i_region i =? region_name c)%string && is_in (i_id i) ids then
    match i_state i with
    | running =>
        {| i_region := i_region i; i_id := i_id i; i_type := i_type i;
           i_state := stopping;
           i_disable_api_stop := i_disable_api_stop i |}
    | _ => i
    end
  else i.

Definition stop_all (c : Client) (ids : list string) (w : Cloud) : Cloud :=
  {| reservations := map (map (stop c ids)) (reservations w);
     asg_pages := asg_pages w;
     tags := tags w;
     fault := fault w |}.

Definition ec2_stop_instances (c : Client) (ids : list string) (w : Cloud)
  : Res unit * Cloud :=
  guarded w (stop_instances c ids)
    (if forallb (fun id => existsb (own_instance c id)
                                   (concat (reservations w))) ids
     then (Ok tt, stop_all c ids w)
     else (Exc "InvalidInstanceID.NotFound", w)).

(** Listing groups: one request per page, at least one. *)
Definition fetch_page (c : Client) (k : nat) (w : Cloud) : Res Page * Cloud :=
  guarded w (describe_auto_scaling_groups c k)
    (Ok {| AutoScalingGroups := Some
             (map describe_group
                  (filter (fun g => (g_region g =? region_name c)%string)
                          (nth k (asg_pages w) []))) |}, w).

Definition asg_paginate (c : Client) (w : Cloud)
  : list (Cloud -> Res Page * Cloud) :=
  map (fetch_page c) (seq 0 (Nat.max 1 (length (asg_pages w)))).

(** Updating: the group must exist and the sizes must be ordered. *)
Definition resize (c : Client) (name : string) (min max desired : Z)
    (g : Group) : Group :=
  if own_group c name g then
    {| g_region := g_region g; g_name := g_name g;
       g_min := min; g_max := max; g_desired := desired |}
  else g.

Definition resize_all (c : Client) (name : string) (min max desired : Z)
    (w : Cloud) : Cloud :=
  {| reservations := reservations w;
     asg_pages := map (map (resize c name min max desired)) (asg_pages w);
     tags := tags w;
     fault := fault w |}.

Definition asg_update (c : Client) (name : string) (min : Z) (max : pyval)
    (desired : Z) (w : Cloud) : Res unit * Cloud :=
  guarded w (update_auto_scaling_group c name min max desired)
    (match max with
     | PyInt mx =>
         if existsb (own_group c name) (concat (asg_pages w)) then
           if ((min <=? desired) && (desired <=? mx))%Z
           then (Ok tt, resize_all c name min mx desired w)
           else (Exc "ValidationError", w)
         else (Exc "ValidationError", w)
     | _ => (Exc "ParamValidationError", w)
     end).

Definition aws_client (service region : string) (w : Cloud)
  : Res unit * Cloud :=
  guarded w (boto3_client service region) (Ok tt, w).

Definition provider : Provider Cloud :=
  {| on_client := aws_client;
     on_describe_instances := ec2_describe_instances;
     on_describe_instance_attribute := ec2_describe_instance_attribute;
     on_describe_tags := aws_describe_tags;
     on_stop_instances := ec2_stop_instances;
     on_paginate := asg_paginate;
     on_update_auto_scaling_group := asg_update |}.

End Aws.

(* ================================================================== *)
(** ** Vocabulary of the properties *)
(* ================================================================== *)

(** A fresh store around a service state. *)
Definition start {S} (s : S) : World S := {| service := s; trace := [] |}.

(** Partial correctness with exceptional outcomes: from a store in
    [Pre], the outcome and final store of [m] are in [Post]. *)
Definition hoare {St A} (Pre : St -> Prop) (m : M St A)
    (Post : Res A -> St -> Prop) : Prop :=
  forall st, Pre st -> Post (fst (m st)) (snd (m st)).

(** The requests that only read. *)
Definition is_query (c : Call) : bool :=
  match c with
  | describe_instances _ _ | describe_instance_attribute _ _ _
  | describe_tags _ _ | describe_auto_scaling_groups _ _ => true
  | _ => false
  end.

Definition is_ec2_client_call (c : Call) : bool :=
  match c with
  | boto3_client service _ => (service =? "ec2")%string
  | _ => false
  end.

(** [m] only adds to the trace read by [tr], and only requests in [Q]. *)
Definition emits {St A} (tr : St -> list Call) (Q : Call -> bool)
    (m : M St A) : Prop :=
  forall st, exists added,
    tr (snd (m st)) = (tr st ++ added)%list /\ forallb Q added = true.

(** The trace of a store with locals. *)
Definition ltrace {S L} (st : World S * L) : list Call := trace (fst st).

Definition is_client_call (c : Call) : bool :=
  match c with
  | boto3_client _ _ => true
  | _ => false
  end.

Definition not_client_call (c : Call) : bool := negb (is_client_call c).

(* ================================================================== *)
(** ** Scenarios on the deterministic provider *)
(* ================================================================== *)

Module Scenario.
Import Aws.

Definition us_east : string := "us-east-1".

Definition ec2_east : Client :=
  {| service_name := "ec2"; region_name := us_east |}.

Definition asg_east : Client :=
  {| service_name := "autoscaling"; region_name := us_east |}.

Definition no_fault : Call -> option Exn := fun _ => None.

Definition instance (id : string) (s : InstanceState) : Instance :=
  {| i_region := us_east; i_id := id; i_type := Some "t3.micro";
     i_state := s; i_disable_api_stop := false |}.

Definition group (name : string) (min max desired : Z) : Group :=
  {| g_region := us_east; g_name := name;
     g_min := min; g_max := max; g_desired := desired |}.

Definition keep (service resource value : string) : ResourceTag :=
  {| t_service := service; t_region := us_east; t_resource := resource;
     t_key := "ResourceGovernance"; t_value := value |}.

(** Two running instances, [i-2] tagged; a stopped one; a group of
    three, and a group already at zero on a second page. *)
Definition fleet (faults : Call -> option Exn) : Cloud :=
  {| reservations := [ [instance "i-1" running; instance "i-2" running];
                       [instance "i-3" stopped] ];
     asg_pages := [ [group "asg-a" 1 5 3]; [group "asg-z" 0 4 0] ];
     tags := [keep "ec2" "i-2" "Keep"];
     fault := faults |}.

(** The same fleet with no tag at all. *)
Definition untagged_fleet (faults : Call -> option Exn) : Cloud :=
  {| reservations := reservations (fleet faults);
     asg_pages := asg_pages (fleet faults);
     tags := [];
     fault := faults |}.

(** The environment with [ALLOWED_REGIONS] set to [v]. *)
Definition environ_with (v : string) (key : string) : option string :=
  if (key =? "ALLOWED_REGIONS")%string then Some v else None.

(** [stop_instances] on [i-1] and every [update_auto_scaling_group]
    are refused. *)
Definition mutations_refused (c : Call) : option Exn :=
  match c with
  | stop_instances _ ids =>
      if is_in "i-1" ids then Some "UnauthorizedOperation" else None
  | update_auto_scaling_group _ _ _ _ _ => Some "AccessDenied"
  | _ => None
  end.

(** Tag queries are throttled. *)
Definition tags_throttled (c : Call) : option Exn :=
  match c with
  | describe_tags _ _ => Some "RequestLimitExceeded"
  | _ => None
  end.

(** Client construction rejects a malformed region name. *)
Definition region_rejected (c : Call) : option Exn :=
  match c with
  | boto3_client _ region =>
      if (region =? "us east 1")%string
      then Some "Provided region_name 'us east 1' doesn't match a supported format."
      else None
  | _ => None
  end.

End Scenario.

(* ================================================================== *)
(** ** Facts of the service state the properties speak about *)
(* ================================================================== *)

Module Facts.
Import Aws.

(** The [disableApiStop] attribute of the instance, as the provider
    holds it. *)
Definition api_stop_disabled (w : Cloud) (c : Client) (id : string) : bool :=
  match find_instance c id w with
  | Some i => i_disable_api_stop i
  | None => false
  end.

Definition keep_value (v : string) : bool :=
  (PyStr.lower v =? "keep")%string.

(** A [ResourceGovernance] tag with a value that reads [keep] is
    attached to the resource, in the service and region of [c]. *)
Definition keep_tagged (w : Cloud) (c : Client) (resource : string) : bool :=
  existsb (fun t =>
             (t_service t =? service_name c)%string
             && (t_region t =? region_name c)%string
             && (t_resource t =? resource)%string
             && (t_key t =? "ResourceGovernance")%string
             && keep_value (t_value t))
          (tags w).

(** The requests of the two checks, and a store with requests added. *)
Definition attribute_query (c : Client) (id : string) : Call :=
  describe_instance_attribute c id "disableApiStop".

Definition tag_query (c : Client) (filter_name resource : string) : Call :=
  describe_tags c [ {| Name := filter_name; Values := [resource] |};
                    {| Name := "key"; Values := ["ResourceGovernance"] |} ].

Definition after (W : World Cloud) (added : list Call) : World Cloud :=
  {| service := service W; trace := (trace W ++ added)%list |}.

(** The filter and the listing request of [stop_idle_instances]. *)
Definition running_filter : list Filter :=
  [ {| Name := "instance-state-name"; Values := ["running"] |} ].

Definition listing_query (c : Client) : Call :=
  describe_instances c running_filter.

(** The entry a sweeper appends for a resource: [f"{id} ({region})"]. *)
Definition entry (id region : string) : string :=
  id ++ " (" ++ region ++ ")".

(** The page requests of [scale_down_asgs], what page [k] lists for the
    region of [c], and the update request for a group. *)
Definition page_query (c : Client) (k : nat) : Call :=
  describe_auto_scaling_groups c k.

Definition page_groups (c : Client) (k : nat) (w : Cloud) : list Group :=
  filter (fun g => (g_region g =? region_name c)%string)
         (nth k (asg_pages w) []).

Definition zero_query (c : Client) (g : Group) : Call :=
  update_auto_scaling_group c (g_name g) 0 (PyInt (g_max g)) 0.

Definition page_count (w : Cloud) : nat := Nat.max 1 (length (asg_pages w)).

(** The answer of the oracle on a service state. *)
Definition instance_protected (w : Cloud) (c : Client) (id : string) : bool :=
  match fst (is_instance_stop_protected provider c id (start w)) with
  | Ok b => b
  | Exc _ => true
  end.

Definition asg_protected (w : Cloud) (c : Client) (name : string) : bool :=
  match fst (is_asg_protected provider c name (start w)) with
  | Ok b => b
  | Exc _ => true
  end.

(** Two service states the oracle cannot tell apart: same faults, same
    tags, same [disableApiStop] attributes. *)
Definition same_policy (w w' : Cloud) : Prop :=
  fault w = fault w' /\ tags w = tags w' /\
  forall c id,
    option_map i_disable_api_stop (find_instance c id w)
    = option_map i_disable_api_stop (find_instance c id w').

(** [id] names a running instance of the region of [c] that the oracle
    does not protect. *)
Definition stop_target (w : Cloud) (c : Client) (id : string) : Prop :=
  (exists i, In i (concat (reservations w)) /\
             i_region i = region_name c /\ i_state i = running /\
             i_id i = id) /\
  instance_protected w c id = false.

(** The two clients [process_region] builds for a region. *)
Definition ec2_of (region : string) : Client :=
  {| service_name := "ec2"; region_name := region |}.

Definition asg_of (region : string) : Client :=
  {| service_name := "autoscaling"; region_name := region |}.

(** The instances and groups of the region of [c]. *)
Definition instances_of (c : Client) (w : Cloud) : list Instance :=
  filter (fun i => (i_region i =? region_name c)%string)
         (concat (reservations w)).

Definition groups_of (c : Client) (w : Cloud) : list Group :=
  filter (fun g => (g_region g =? region_name c)%string)
         (concat (asg_pages w)).

(** What an update of sizes cannot change in a group, and the same for
    a whole service state, page by page. *)
Definition group_static (g : Group) : string * string * Z :=
  (g_region g, g_name g, g_max g).

Definition static (w : Cloud) : list (list (string * string * Z)) :=
  map (map group_static) (asg_pages w).

(** After a sweep, every group of the region with the name of [g] has
    sizes (0, MaxSize of [g], 0). *)
Definition zeroed (c : Client) (w : Cloud) (g : Group) : Prop :=
  forall g', In g' (groups_of c w) -> g_name g' = g_name g ->
             g_min g' = 0%Z /\ g_desired g' = 0%Z /\ g_max g' = g_max g.

(** What a sweep would still act on: a running instance the oracle
    does not protect and whose stop request would succeed; a group the
    oracle does not protect, with a positive DesiredCapacity, whose
    update request would succeed. *)
Definition is_running (i : Instance) : bool :=
  match i_state i with running => true | _ => false end.

Definition pending_instance (w : Cloud) (c : Client) (i : Instance) : bool :=
  is_running i
  && negb (instance_protected w c (i_id i))
  && is_ok (fst (ec2_stop_instances c [i_id i] w)).

Definition pending_group (w : Cloud) (c : Client) (g : Group) : bool :=
  negb (asg_protected w c (g_name g))
  && (0 <? g_desired g)%Z
  && is_ok (fst (asg_update c (g_name g) 0 (PyInt (g_max g)) 0 w)).

(** Nothing is left to do for the sweepers of [c]: the listing fails, or
    no listed instance is pending; no group on a page that the page
    loop reaches is pending. *)
Definition instances_settled (c : Client) (w : Cloud) : Prop :=
  fault w (listing_query c) <> None \/
  forall i, In i (instances_of c w) -> pending_instance w c i = false.

Definition groups_settled (c : Client) (w : Cloud) : Prop :=
  forall k,
    (forall j, j <= k -> fault w (page_query c j) = None) ->
    forall g, In g (page_groups c k w) -> pending_group w c g = false.

Definition region_settled (region : string) (w : Cloud) : Prop :=
  fault w (boto3_client "ec2" region) <> None \/
  fault w (boto3_client "autoscaling" region) <> None \/
  (instances_settled (ec2_of region) w /\ groups_settled (asg_of region) w).

(** The service states a sweep can reach: instances stopped, groups
    resized to zero. *)
Inductive evolves : Cloud -> Cloud -> Prop :=
| evolves_refl w : evolves w w
| evolves_stop w w' c ids :
    evolves w w' -> evolves w (stop_all c ids w')
| evolves_resize w w' c name mx :
    evolves w w' -> evolves w (resize_all c name 0 mx 0 w').

(** Group names are unique within a region. *)
Definition unique_groups (w : Cloud) : Prop :=
  NoDup (map (fun g => (g_region g, g_name g)) (concat (asg_pages w))).

End Facts.

(* ================================================================== *)
(** ** Vocabulary of a whole invocation *)
(* ================================================================== *)

(** The passes of the driver loop over [regions] from [w]: each region
    with what [process_region] answered for it. *)
Fixpoint passes {S} (P : Provider S) (regions : list string) (w : World S)
  : list (string * Res GovernanceResult) :=
  match regions with
  | [] => []
  | region :: rest =>
      (region, fst (process_region P region w))
      :: passes P rest (snd (process_region P region w))
  end.

(** The store the passes over [regions] leave. *)
Fixpoint after_passes {S} (P : Provider S) (regions : list string)
    (w : World S) : World S :=
  match regions with
  | [] => w
  | region :: rest =>
      after_passes P rest (snd (process_region P region w))
  end.

(** What one pass contributes to each list of [aggregate_results]. *)
Definition pass_stopped (p : string * Res GovernanceResult) : list string :=
  match snd p with Ok r => stopped_instances r | Exc _ => [] end.

Definition pass_scaled (p : string * Res GovernanceResult) : list string :=
  match snd p with Ok r => scaled_down_asgs r | Exc _ => [] end.

Definition pass_errors (p : string * Res GovernanceResult) : list string :=
  match snd p with
  | Ok r => errors r
  | Exc e => ["Error processing region " ++ fst p ++ ": " ++ e]
  end.

Definition pass_returned (p : string * Res GovernanceResult) : bool :=
  is_ok (snd p).

(** Every character of [s] satisfies [p]. *)
Fixpoint all_chars (p : ascii -> bool) (s : string) : bool :=
  match s with
  | EmptyString => true
  | String c s' => p c && all_chars p s'
  end.

(** A comma or a blank: what [get_allowed_regions] drops. *)
Definition comma_or_blank (c : ascii) : bool :=
  Ascii.eqb c "," || PyStr.isspace c.

(** The region a request is addressed to, and the client it goes
    through. *)
Definition call_region (q : Call) : string :=
  match q with
  | boto3_client _ region => region
  | describe_instances c _ | describe_instance_attribute c _ _
  | describe_tags c _ | stop_instances c _
  | describe_auto_scaling_groups c _
  | update_auto_scaling_group c _ _ _ _ => region_name c
  end.

Definition call_client (q : Call) : option Client :=
  match q with
  | boto3_client _ _ => None
  | describe_instances c _ | describe_instance_attribute c _ _
  | describe_tags c _ | stop_instances c _
  | describe_auto_scaling_groups c _
  | update_auto_scaling_group c _ _ _ _ => Some c
  end.

Definition in_region (region : string) (q : Call) : bool :=
  (call_region q =? region)%string.

Definition in_regions (regions : list string) (q : Call) : bool :=
  existsb (String.eqb (call_region q)) regions.

Definition client_eqb (c c' : Client) : bool :=
  (service_name c =? service_name c')%string
  && (region_name c =? region_name c')%string.

(** The requests of the instance sweeper and of the group sweeper. *)
Definition instance_sweep_call (c : Client) (q : Call) : bool :=
  match q with
  | describe_instances c' _ | describe_instance_attribute c' _ _
  | describe_tags c' _ | stop_instances c' _ => client_eqb c' c
  | _ => false
  end.

Definition group_sweep_call (c : Client) (q : Call) : bool :=
  match q with
  | describe_tags c' _ | describe_auto_scaling_groups c' _ =>
      client_eqb c' c
  | update_auto_scaling_group c' _ mn _ ds =>
      client_eqb c' c && (mn =? 0)%Z && (ds =? 0)%Z
  | _ => false
  end.

Definition is_stop_call (q : Call) : bool :=
  match q with stop_instances _ _ => true | _ => false end.

Definition is_update_call (q : Call) : bool :=
  match q with update_auto_scaling_group _ _ _ _ _ => true | _ => false end.

Module Sweep.
Import Aws Facts.

(** The running instances of the region of [c], in listing order. *)
Definition running_instances (c : Client) (w : Cloud) : list Instance :=
  filter is_running (instances_of c w).

(** The instances a sweep asks to stop, and those it does stop. *)
Definition stop_requested (w : Cloud) (c : Client) (i : Instance) : bool :=
  negb (instance_protected w c (i_id i)).

Definition stop_granted (w : Cloud) (c : Client) (i : Instance) : bool :=
  negb (instance_protected w c (i_id i))
  && is_ok (fst (ec2_stop_instances c [i_id i] w)).

(** An instance after a stop. *)
Definition stopping_of (i : Instance) : Instance :=
  {| i_region := i_region i; i_id := i_id i; i_type := i_type i;
     i_state := stopping; i_disable_api_stop := i_disable_api_stop i |}.

(** What an invocation over [regions] from the service state [w0] may do
    to an instance and to a group. *)
Definition instance_step (regions : list string) (w0 : Cloud)
    (i i' : Instance) : Prop :=
  i' = i \/
  (i' = stopping_of i /\ i_state i = running /\ In (i_region i) regions /\
   instance_protected w0 (ec2_of (i_region i)) (i_id i) = false).

Definition group_step (regions : list string) (w0 : Cloud)
    (g g' : Group) : Prop :=
  g' = g \/
  (g_region g' = g_region g /\ g_name g' = g_name g /\
   g_min g' = 0%Z /\ g_desired g' = 0%Z /\ In (g_region g) regions /\
   asg_protected w0 (asg_of (g_region g)) (g_name g) = false).

(** The service states an invocation over [regions] can reach from
    [w0]: one instance stopped, or one group resized to zero, at a
    time, through a client of a listed region and for a resource the
    oracle does not protect. *)
Inductive reaches (regions : list string) (w0 : Cloud) : Cloud -> Prop :=
| reaches_start : reaches regions w0 w0
| reaches_stop w region id :
    reaches regions w0 w -> In region regions ->
    instance_protected w0 (ec2_of region) id = false ->
    reaches regions w0 (stop_all (ec2_of region) [id] w)
| reaches_resize w region name mx :
    reaches regions w0 w -> In region regions ->
    asg_protected w0 (asg_of region) name = false ->
    reaches regions w0 (resize_all (asg_of region) name 0 mx 0 w).

(** The pages the page loop gets through: those before the first page
    request that fails, counted from page [k] over [m] pages. *)
Fixpoint reached_from (c : Client) (w : Cloud) (k m : nat) : nat :=
  match m with
  | 0 => 0
  | Datatypes.S m' =>
      match fault w (page_query c k) with
      | Some _ => 0
      | None => Datatypes.S (reached_from c w (Datatypes.S k) m')
      end
  end.

Definition reached_pages (c : Client) (w : Cloud) : nat :=
  reached_from c w 0 (page_count w).

(** The groups of the first [k] pages, and those the page loop gets
    to, in listing order. *)
Definition groups_upto (c : Client) (w : Cloud) (k : nat) : list Group :=
  concat (map (fun j => page_groups c j w) (seq 0 k)).

Definition swept_groups (c : Client) (w : Cloud) : list Group :=
  groups_upto c w (reached_pages c w).

(** The groups a sweep asks to update; those it does update are the
    pending ones. *)
Definition update_requested (w : Cloud) (c : Client) (g : Group) : bool :=
  negb (asg_protected w c (g_name g)) && (0 <? g_desired g)%Z.

(** The service after the groups [gs] were zeroed, one by one. *)
Definition zero_all (c : Client) (gs : list Group) (w : Cloud) : Cloud :=
  fold_left (fun w' g => resize_all c (g_name g) 0 (g_max g) 0 w') gs w.

End Sweep.

(* ================================================================== *)
(** ** A provider with ragged answers

    Its listing holds an instance without an id between two well-formed
    ones, and its only page a group without a MaxSize before a
    well-formed one; every other request succeeds and finds neither
    attribute nor tag.  The service state counts the requests that
    write. *)
(* ================================================================== *)

Module Ragged.

Definition listing : list InstanceDesc :=
  [ {| InstanceId := Some "i-1"; InstanceType := Some "t3.micro" |};
    {| InstanceId := None; InstanceType := Some "t3.micro" |};
    {| InstanceId := Some "i-2"; InstanceType := None |} ].

Definition page : list AutoScalingGroup :=
  [ {| AutoScalingGroupName := Some "asg-a";
       DesiredCapacity := Some (PyInt 2); MaxSize := None |};
    {| AutoScalingGroupName := Some "asg-b";
       DesiredCapacity := Some (PyInt 1); MaxSize := Some (PyInt 4) |} ].

Definition provider : Provider nat :=
  {| on_client := fun _ _ n => (Ok tt, n);
     on_describe_instances := fun _ _ n =>
       (Ok {| Reservations := Some [ {| Instances := Some listing |} ] |}, n);
     on_describe_instance_attribute := fun _ _ _ n =>
       (Ok {| DisableApiStop := None |}, n);
     on_describe_tags := fun _ _ n => (Ok {| Tags := None |}, n);
     on_stop_instances := fun _ _ n => (Ok tt, Datatypes.S n);
     on_paginate := fun _ _ =>
       [ fun n => (Ok {| AutoScalingGroups := Some page |}, n) ];
     on_update_auto_scaling_group := fun _ _ _ _ _ n =>
       (Ok tt, Datatypes.S n) |}.

End Ragged.

(** The request for the second page of groups fails. *)
Definition second_page_fails (q : Call) : option Exn :=
  match q with
  | describe_auto_scaling_groups _ 1 => Some "Throttling"
  | _ => None
  end.

(* ================================================================== *)
(** ** The program logic *)
(* ================================================================== *)

Section Logic.

Context {St : Type}.

Lemma bind_ok {A B} (m : M St A) (k : A -> M St B) (st st' : St) (a : A) :
  m st = (Ok a, st') -> bind m k st = k a st'.
Proof. intros H. unfold bind. rewrite H. reflexivity. Qed.

Lemma bind_exc {A B} (m : M St A) (k : A -> M St B) (st st' : St) (e : Exn) :
  m st = (Exc e, st') -> bind m k st = (Exc e, st').
Proof. intros H. unfold bind. rewrite H. reflexivity. Qed.

Lemma for_each_app {A} (xs ys : list A) (body : A -> M St unit) (st : St) :
  for_each (xs ++ ys) body st
  = bind (for_each xs body) (fun _ => for_each ys body) st.
Proof.
  revert st. induction xs as [| x xs IH]; intros st; simpl.
  - reflexivity.
  - unfold bind at 1 2 3. destruct (body x st) as [[u | e] st1].
    + rewrite IH. reflexivity.
    + reflexivity.
Qed.

Lemma hoare_bind {A B} (Pre : St -> Prop) (Mid : Res A -> St -> Prop)
    (Post : Res B -> St -> Prop) (m : M St A) (k : A -> M St B) :
  hoare Pre m Mid ->
  (forall a, hoare (Mid (Ok a)) (k a) Post) ->
  (forall e st, Mid (Exc e) st -> Post (Exc e) st) ->
  hoare Pre (bind m k) Post.
Proof.
  intros Hm Hk He st Hpre. specialize (Hm st Hpre).
  unfold bind. destruct (m st) as [[a | e] st']; simpl in *.
  - apply Hk; assumption.
  - apply He; assumption.
Qed.

(** A loop keeps an invariant that every iteration keeps, whether it
    runs to the end or is left by an exception. *)
Lemma hoare_for_each {A} (Inv : St -> Prop) (xs : list A)
    (body : A -> M St unit) :
  (forall x, In x xs -> hoare Inv (body x) (fun _ st => Inv st)) ->
  hoare Inv (for_each xs body) (fun _ st => Inv st).
Proof.
  induction xs as [| x rest IH]; intros Hbody.
  - intros st H; exact H.
  - simpl. eapply hoare_bind.
    + apply Hbody; left; reflexivity.
    + intros u. apply IH. intros y Hy. apply Hbody; right; exact Hy.
    + intros e st H; exact H.
Qed.

End Logic.

(* ================================================================== *)
(** ** Facts that hold for every provider *)
(* ================================================================== *)

Section AnyProvider.

Context {S : Type}.
Variable P : Provider S.

(** A [try] whose handler only logs always returns. *)
Lemma try_log_returns {St} (m : M St unit) (st : St) :
  exists st', try_except m (fun _ => ret tt) st = (Ok tt, st').
Proof.
  unfold try_except, ret. destruct (m st) as [[[] | e] st']; eauto.
Qed.

Lemma stop_idle_instances_returns (c : Client) (region : string)
    (w : World S) :
  exists l w', stop_idle_instances P c region w = (Ok l, w').
Proof.
  unfold stop_idle_instances, with_local.
  match goal with |- context [try_except ?m ?h ?st] =>
    destruct (try_log_returns m st) as [[w' l] H] end.
  rewrite H. eauto.
Qed.

Lemma scale_down_asgs_returns (c : Client) (region : string) (w : World S) :
  exists l w', scale_down_asgs P c region w = (Ok l, w').
Proof.
  unfold scale_down_asgs, with_local.
  match goal with |- context [try_except ?m ?h ?st] =>
    destruct (try_log_returns m st) as [[w' l] H] end.
  rewrite H. eauto.
Qed.

(** The sweeps of one region always return, without an error entry. *)
Lemma region_sweeps_returns (ec2 autoscaling : Client) (region : string)
    (w : World S) :
  exists stopped scaled w1 w2,
    stop_idle_instances P ec2 region w = (Ok stopped, w1) /\
    scale_down_asgs P autoscaling region w1 = (Ok scaled, w2) /\
    region_sweeps P ec2 autoscaling region w
    = (Ok {| stopped_instances := stopped; scaled_down_asgs := scaled;
             errors := [] |}, w2).
Proof.
  destruct (stop_idle_instances_returns ec2 region w) as (stopped & w1 & H1).
  destruct (scale_down_asgs_returns autoscaling region w1)
    as (scaled & w2 & H2).
  exists stopped, scaled, w1, w2. repeat split; try assumption.
  unfold region_sweeps, with_local, try_except, bind, lift, modify.
  rewrite H1. simpl. rewrite H2. reflexivity.
Qed.

Lemma new_client_ok (svc region : string) (w : World S) (s1 : S) :
  on_client P svc region (service w) = (Ok tt, s1) ->
  new_client P svc region w
  = (Ok {| service_name := svc; region_name := region |},
     {| service := s1;
        trace := append (trace w) (boto3_client svc region) |}).
Proof.
  intros H. unfold new_client, request, bind, ret. rewrite H. reflexivity.
Qed.

Lemma new_client_exc (svc region : string) (w : World S) (e : Exn)
    (s1 : S) :
  on_client P svc region (service w) = (Exc e, s1) ->
  new_client P svc region w
  = (Exc e, {| service := s1;
               trace := append (trace w) (boto3_client svc region) |}).
Proof.
  intros H. unfold new_client, request, bind, ret. rewrite H. reflexivity.
Qed.

End AnyProvider.

(* ================================================================== *)
(** ** What a computation may add to the trace *)
(* ================================================================== *)

Section Emits.

Context {St : Type}.
Variable tr : St -> list Call.
Variable Q : Call -> bool.

Lemma emits_nothing {A} (m : M St A) :
  (forall st, tr (snd (m st)) = tr st) -> emits tr Q m.
Proof.
  intros H st. exists []. rewrite H, app_nil_r. split; reflexivity.
Qed.

Lemma emits_ret {A} (a : A) : emits tr Q (ret a).
Proof. apply emits_nothing; reflexivity. Qed.

Lemma emits_pure {A} (r : Res A) : emits tr Q (pure r).
Proof. apply emits_nothing; reflexivity. Qed.

Lemma emits_bind {A B} (m : M St A) (k : A -> M St B) :
  emits tr Q m -> (forall a, emits tr Q (k a)) -> emits tr Q (bind m k).
Proof.
  intros Hm Hk st. destruct (Hm st) as (l1 & E1 & Q1).
  unfold bind. destruct (m st) as [[a | e] st1]; simpl in *.
  - destruct (Hk a st1) as (l2 & E2 & Q2).
    exists (l1 ++ l2)%list. rewrite E2, E1, app_assoc, forallb_app, Q1, Q2.
    split; reflexivity.
  - exists l1. split; assumption.
Qed.

Lemma emits_try {A} (m : M St A) (h : Exn -> M St A) :
  emits tr Q m -> (forall e, emits tr Q (h e)) -> emits tr Q (try_except m h).
Proof.
  intros Hm Hh st. destruct (Hm st) as (l1 & E1 & Q1).
  unfold try_except. destruct (m st) as [[a | e] st1]; simpl in *.
  - exists l1. split; assumption.
  - destruct (Hh e st1) as (l2 & E2 & Q2).
    exists (l1 ++ l2)%list. rewrite E2, E1, app_assoc, forallb_app, Q1, Q2.
    split; reflexivity.
Qed.

Lemma emits_for_each {A} (xs : list A) (body : A -> M St unit) :
  (forall x, emits tr Q (body x)) -> emits tr Q (for_each xs body).
Proof.
  intros Hbody. induction xs as [| x rest IH]; simpl.
  - apply emits_ret.
  - apply emits_bind; [apply Hbody | intros _; exact IH].
Qed.

Lemma emits_if {A} (b : bool) (m1 m2 : M St A) :
  emits tr Q m1 -> emits tr Q m2 -> emits tr Q (if b then m1 else m2).
Proof. destruct b; auto. Qed.

End Emits.

Section EmitsWorld.

Context {S : Type}.
Variable P : Provider S.
Variable Q : Call -> bool.

Lemma emits_request {R} (c : Call) (h : S -> Res R * S) :
  Q c = true -> emits trace Q (request c h).
Proof.
  intros Hc w. exists [c]. unfold request.
  destruct (h (service w)) as [r s']; simpl. rewrite Hc. split; reflexivity.
Qed.

Lemma emits_lift {L A} (m : M (World S) A) :
  emits trace Q m -> emits (@ltrace S L) Q (lift m).
Proof.
  intros Hm [w l]. destruct (Hm w) as (added & E & HQ). exists added.
  unfold lift, ltrace. destruct (m w) as [r w']; simpl in *. split; assumption.
Qed.

Lemma emits_modify {L} (f : L -> L) : emits (@ltrace S L) Q (modify f).
Proof. apply emits_nothing. intros [w l]; reflexivity. Qed.

Lemma emits_with_local {L A} (init : L) (m : M (World S * L) A) :
  emits ltrace Q m -> emits trace Q (with_local init m).
Proof.
  intros Hm w. destruct (Hm (w, init)) as (added & E & HQ). exists added.
  unfold with_local, ltrace in *.
  destruct (m (w, init)) as [[a | e] [w' l]]; simpl in *; split; assumption.
Qed.

Lemma emits_for_each_page {L} (c : Client) (pages : list (S -> Res Page * S))
    (body : Page -> M (World S * L) unit) :
  (forall k, Q (describe_auto_scaling_groups c k) = true) ->
  (forall page, emits ltrace Q (body page)) ->
  forall k, emits ltrace Q (for_each_page c k pages body).
Proof.
  intros Hq Hbody. induction pages as [| fetch rest IH]; intros k; simpl.
  - apply emits_ret.
  - apply emits_bind.
    + apply emits_lift, emits_request, Hq.
    + intros page. apply emits_bind; [apply Hbody | intros _; apply IH].
Qed.

End EmitsWorld.

(** The steps of a computation, taken apart rule by rule. *)
Ltac emits_step :=
  first [ apply emits_ret | apply emits_pure | apply emits_modify
        | apply emits_bind | apply emits_try | apply emits_if
        | apply emits_for_each | apply emits_lift | apply emits_with_local
        | apply emits_for_each_page
        | apply emits_request; reflexivity
        | intro ].

Ltac emits_all := repeat emits_step.

Section EmitsGovernor.

Context {S : Type}.
Variable P : Provider S.

Lemma is_instance_stop_protected_queries (c : Client) (id : string) :
  emits trace is_query (is_instance_stop_protected P c id).
Proof.
  unfold is_instance_stop_protected, instance_protection_check,
    do_describe_instance_attribute, do_describe_tags.
  emits_all.
Qed.

Lemma is_asg_protected_queries (c : Client) (name : string) :
  emits trace is_query (is_asg_protected P c name).
Proof.
  unfold is_asg_protected, asg_protection_check, do_describe_tags.
  emits_all.
Qed.

End EmitsGovernor.

(* ================================================================== *)
(** ** Strings *)
(* ================================================================== *)

Lemma split_no_sep (sep : ascii) (p : string) :
  PyStr.mem sep p = false -> PyStr.split sep p = [p].
Proof.
  induction p as [| c p IH]; simpl; intros H.
  - reflexivity.
  - apply orb_false_iff in H as [Hc Hp]. rewrite Hc, (IH Hp). reflexivity.
Qed.

Lemma split_app_sep (sep : ascii) (p s : string) :
  PyStr.mem sep p = false ->
  PyStr.split sep (p ++ String sep s) = p :: PyStr.split sep s.
Proof.
  induction p as [| c p IH]; simpl; intros H.
  - rewrite Ascii.eqb_refl. reflexivity.
  - apply orb_false_iff in H as [Hc Hp]. rewrite Hc, (IH Hp). reflexivity.
Qed.

Lemma split_join (sep : ascii) (names : list string) :
  Forall (fun n => PyStr.mem sep n = false) names ->
  PyStr.split sep (PyStr.join sep names)
  = match names with [] => [EmptyString] | _ => names end.
Proof.
  induction 1 as [| n rest Hn Hrest IH]; [reflexivity |].
  destruct rest as [| m rest'].
  - simpl. apply split_no_sep; assumption.
  - change (PyStr.join sep (n :: m :: rest'))
      with (n ++ String sep (PyStr.join sep (m :: rest'))).
    rewrite split_app_sep by assumption. rewrite IH. reflexivity.
Qed.

(** What [get_allowed_regions] makes of a comma-joined list of pieces:
    the pieces stripped, the blank ones dropped, nothing else. *)
Lemma get_allowed_regions_join (environ : string -> option string)
    (names : list string) :
  environ "ALLOWED_REGIONS" = Some (PyStr.join "," names) ->
  Forall (fun n => PyStr.mem "," n = false) names ->
  get_allowed_regions environ
  = map PyStr.strip
        (filter (fun n => PyStr.nonempty (PyStr.strip n)) names).
Proof.
  intros Henv Hnames. unfold get_allowed_regions. rewrite Henv. simpl Py.get.
  rewrite split_join by assumption. destruct names; reflexivity.
Qed.

Lemma count_occ_map_filter_strip (names : list string) (r : string) :
  r <> EmptyString ->
  count_occ string_dec
    (map PyStr.strip (filter (fun n => PyStr.nonempty (PyStr.strip n)) names))
    r
  = length (filter (fun n => (PyStr.strip n =? r)%string) names).
Proof.
  intros Hr. induction names as [| n rest IH]; [reflexivity |].
  simpl. destruct (String.eqb_spec (PyStr.strip n) r) as [E | E].
  - assert (Hne : PyStr.nonempty (PyStr.strip n) = true).
    { rewrite E. destruct r; [contradiction | reflexivity]. }
    rewrite Hne. simpl. destruct (string_dec (PyStr.strip n) r);
      [rewrite IH; reflexivity | contradiction].
  - destruct (PyStr.nonempty (PyStr.strip n)); simpl; [| exact IH].
    destruct (string_dec (PyStr.strip n) r); [contradiction | exact IH].
Qed.

(* ================================================================== *)
(** ** The orchestrator and the driver, for every provider *)
(* ================================================================== *)

Section Driver.

Context {S : Type}.
Variable P : Provider S.

Lemma forallb_not_client_no_ec2 (l : list Call) :
  forallb not_client_call l = true -> filter is_ec2_client_call l = [].
Proof.
  induction l as [| c l IH]; simpl; intros H; [reflexivity |].
  apply andb_true_iff in H as [Hc Hl].
  destruct c; simpl in *; try discriminate; auto.
Qed.

(** [process_region] returns, with an empty error list, as soon as both
    clients are built. *)
Lemma process_region_ok (region : string) (w : World S) (s1 s2 : S) :
  on_client P "ec2" region (service w) = (Ok tt, s1) ->
  on_client P "autoscaling" region s1 = (Ok tt, s2) ->
  exists stopped scaled w',
    process_region P region w
    = (Ok {| stopped_instances := stopped; scaled_down_asgs := scaled;
             errors := [] |}, w').
Proof.
  intros H1 H2. unfold process_region.
  erewrite bind_ok by (apply new_client_ok; exact H1).
  erewrite bind_ok by (apply new_client_ok; exact H2).
  match goal with |- context [region_sweeps P ?c1 ?c2 ?r ?w] =>
    destruct (region_sweeps_returns P c1 c2 r w)
      as (stopped & scaled & w1 & w2 & _ & _ & E) end.
  rewrite E. eauto.
Qed.

(** An exception of either client constructor leaves [process_region]. *)
Lemma process_region_raises (region : string) (w : World S) (e : Exn) :
  (exists s1, on_client P "ec2" region (service w) = (Exc e, s1)) \/
  (exists s1 s2,
      on_client P "ec2" region (service w) = (Ok tt, s1) /\
      on_client P "autoscaling" region s1 = (Exc e, s2)) ->
  exists w', process_region P region w = (Exc e, w').
Proof.
  unfold process_region. intros [(s1 & H1) | (s1 & s2 & H1 & H2)].
  - erewrite bind_exc by (apply new_client_exc; exact H1). eauto.
  - erewrite bind_ok by (apply new_client_ok; exact H1).
    erewrite bind_exc by (apply new_client_exc; exact H2). eauto.
Qed.

(** Whatever [process_region] returns has no error entry. *)
Lemma process_region_errors_empty (region : string) (w w' : World S)
    (res : GovernanceResult) :
  process_region P region w = (Ok res, w') -> errors res = [].
Proof.
  unfold process_region.
  destruct (on_client P "ec2" region (service w)) as [[[] | e1] s1] eqn:H1.
  2:{ erewrite bind_exc by (apply new_client_exc; exact H1).
      discriminate. }
  erewrite bind_ok by (apply new_client_ok; exact H1).
  destruct (on_client P "autoscaling" region s1) as [[[] | e2] s2] eqn:H2.
  2:{ erewrite bind_exc by (apply new_client_exc; exact H2).
      discriminate. }
  erewrite bind_ok by (apply new_client_ok; exact H2).
  match goal with |- context [region_sweeps P ?c1 ?c2 ?r ?w] =>
    destruct (region_sweeps_returns P c1 c2 r w)
      as (stopped & scaled & w1 & w2 & _ & _ & E) end.
  rewrite E. intros H; inversion H; reflexivity.
Qed.

Lemma region_sweeps_no_client (ec2 autoscaling : Client) (region : string) :
  emits trace not_client_call (region_sweeps P ec2 autoscaling region).
Proof.
  unfold region_sweeps.
  emits_all; reflexivity.
Qed.

(** The first request of [process_region] is the EC2 client; no other
    EC2 client is built after it. *)
Lemma process_region_trace (region : string) (w : World S) :
  exists rest,
    trace (snd (process_region P region w))
    = (trace w ++ boto3_client "ec2" region :: rest)%list /\
    filter is_ec2_client_call rest = [].
Proof.
  unfold process_region.
  destruct (on_client P "ec2" region (service w)) as [[[] | e1] s1] eqn:H1.
  2:{ erewrite bind_exc by (apply new_client_exc; exact H1).
      exists []. split; reflexivity. }
  erewrite bind_ok by (apply new_client_ok; exact H1).
  destruct (on_client P "autoscaling" region s1) as [[[] | e2] s2] eqn:H2.
  2:{ erewrite bind_exc by (apply new_client_exc; exact H2).
      simpl. unfold append. rewrite <- app_assoc.
      eexists. split; reflexivity. }
  erewrite bind_ok by (apply new_client_ok; exact H2).
  match goal with |- context [region_sweeps P ?c1 ?c2 ?r ?w] =>
    destruct (region_sweeps_no_client c1 c2 r w) as (added & E & HQ) end.
  rewrite E. simpl. unfold append. rewrite <- !app_assoc. simpl.
  eexists. split; [reflexivity |]. simpl.
  apply forallb_not_client_no_ec2; assumption.
Qed.

Lemma handle_region_ok (region : string) (w w' : World S)
    (res : GovernanceResult) (a : AggregateResult) :
  process_region P region w = (Ok res, w') ->
  handle_region P region (w, a) = (Ok tt, (w', merge_region region res a)).
Proof.
  intros H. unfold handle_region, try_except, bind, lift, modify.
  rewrite H. reflexivity.
Qed.

Lemma handle_region_exc (region : string) (w w' : World S) (e : Exn)
    (a : AggregateResult) :
  process_region P region w = (Exc e, w') ->
  handle_region P region (w, a)
  = (Ok tt, (w', record_region_error region e a)).
Proof.
  intros H. unfold handle_region, try_except, bind, lift, modify.
  rewrite H. reflexivity.
Qed.

(** The driver loop runs to its end from every store. *)
Lemma driver_loop_returns (regions : list string) (w : World S)
    (a : AggregateResult) :
  exists w' a',
    for_each regions (handle_region P) (w, a) = (Ok tt, (w', a')).
Proof.
  revert w a. induction regions as [| r rest IH]; intros w a; simpl.
  - unfold ret. eauto.
  - unfold bind.
    destruct (process_region P r w) as [[res | e] w1] eqn:E.
    + rewrite (handle_region_ok _ _ _ _ _ E). apply IH.
    + rewrite (handle_region_exc _ _ _ _ _ E). apply IH.
Qed.

Lemma lambda_handler_unfold (environ : string -> option string)
    (event context : pyval) (w w' : World S) (a : AggregateResult) :
  for_each (get_allowed_regions environ) (handle_region P) (w, no_aggregate)
  = (Ok tt, (w', a)) ->
  lambda_handler P environ event context w
  = (Ok {| statusCode := 200; body := a |}, w').
Proof.
  intros H. unfold lambda_handler, bind, with_local, ret. rewrite H.
  reflexivity.
Qed.

(** One EC2 client request per listed region, in list order. *)
Lemma driver_loop_trace (regions : list string) (w : World S)
    (a : AggregateResult) :
  exists added,
    trace (fst (snd (for_each regions (handle_region P) (w, a))))
    = (trace w ++ added)%list /\
    filter is_ec2_client_call added = map (boto3_client "ec2") regions.
Proof.
  revert w a. induction regions as [| r rest IH]; intros w a; simpl.
  - exists []. rewrite app_nil_r. split; reflexivity.
  - unfold bind. destruct (process_region_trace r w) as (tl & Et & Ht).
    destruct (process_region P r w) as [[res | e] w1] eqn:E; simpl in Et.
    + rewrite (handle_region_ok _ _ _ _ _ E).
      destruct (IH w1 (merge_region r res a)) as (added & Ea & Ha).
      exists (boto3_client "ec2" r :: tl ++ added)%list. split.
      * rewrite Ea, Et, <- app_assoc. reflexivity.
      * simpl. rewrite filter_app, Ht, Ha. reflexivity.
    + rewrite (handle_region_exc _ _ _ _ _ E).
      destruct (IH w1 (record_region_error r e a)) as (added & Ea & Ha).
      exists (boto3_client "ec2" r :: tl ++ added)%list. split.
      * rewrite Ea, Et, <- app_assoc. reflexivity.
      * simpl. rewrite filter_app, Ht, Ha. reflexivity.
Qed.

End Driver.

(* ================================================================== *)
(** ** The protection oracle inside the sweepers, for every provider *)
(* ================================================================== *)

Section OracleInLoop.

Context {S : Type}.
Variable P : Provider S.

Lemma instance_check_raises_protected (c : Client) (id : string)
    (w w' : World S) (e : Exn) :
  instance_protection_check P c id w = (Exc e, w') ->
  is_instance_stop_protected P c id w = (Ok true, w').
Proof.
  intros H. unfold is_instance_stop_protected, try_except. rewrite H.
  reflexivity.
Qed.

Lemma asg_check_raises_protected (c : Client) (name : string)
    (w w' : World S) (e : Exn) :
  asg_protection_check P c name w = (Exc e, w') ->
  is_asg_protected P c name w = (Ok true, w').
Proof.
  intros H. unfold is_asg_protected, try_except. rewrite H. reflexivity.
Qed.

(** A protected instance ends its iteration where the oracle left the
    store, with the result list as it was. *)
Lemma stop_one_protected (c : Client) (region id : string)
    (itype : option string) (w w' : World S) (stopped : list string) :
  is_instance_stop_protected P c id w = (Ok true, w') ->
  stop_one P c region {| InstanceId := Some id; InstanceType := itype |}
    (w, stopped)
  = (Ok tt, (w', stopped)).
Proof.
  intros H. unfold stop_one, bind, pure, lift. simpl. rewrite H. reflexivity.
Qed.

Lemma scale_one_protected (c : Client) (region name : string)
    (capacity : pyval) (max : option pyval) (w w' : World S)
    (scaled : list string) :
  is_asg_protected P c name w = (Ok true, w') ->
  scale_one P c region
    {| AutoScalingGroupName := Some name; DesiredCapacity := Some capacity;
       MaxSize := max |} (w, scaled)
  = (Ok tt, (w', scaled)).
Proof.
  intros H. unfold scale_one, bind, pure, lift. simpl. rewrite H. reflexivity.
Qed.

End OracleInLoop.

(* ================================================================== *)
(** ** The model at work *)
(* ================================================================== *)

Example split_keeps_empty_pieces :
  PyStr.split "," "a,,b," = ["a"; ""; "b"; ""].
Proof. reflexivity. Qed.

Example strip_both_ends :
  PyStr.strip (String (ascii_of_nat 9) " us-east-1  ") = "us-east-1".
Proof. reflexivity. Qed.

Example lower_any_case : PyStr.lower "KeEp" = "keep".
Proof. reflexivity. Qed.

Example default_region :
  get_allowed_regions (fun _ => None) = ["us-east-1"].
Proof. reflexivity. Qed.

Example blank_region_list :
  fst (lambda_handler Aws.provider (Scenario.environ_with "") PyNone PyNone
         (start (Scenario.fleet Scenario.no_fault)))
  = Ok {| statusCode := 200; body := no_aggregate |}.
Proof. reflexivity. Qed.

(** [i-1] is stopped, the tagged [i-2] and the stopped [i-3] are not;
    [asg-a] is zeroed, [asg-z] was at zero already. *)
Example one_region_swept :
  fst (lambda_handler Aws.provider (Scenario.environ_with "us-east-1")
         PyNone PyNone (start (Scenario.fleet Scenario.no_fault)))
  = Ok {| statusCode := 200;
          body := {| agg_stopped_instances := ["i-1 (us-east-1)"];
                     agg_scaled_down_asgs := ["asg-a (us-east-1)"];
                     agg_errors := [];
                     regions_processed := ["us-east-1"] |} |}.
Proof. vm_compute. reflexivity. Qed.

(** A tag value that is not a string makes the check raise, and the
    instance is left alone. *)
Example malformed_tag_value :
  any_keep_tag [ {| Value := Some PyNone |} ]
  = Exc "'NoneType' object has no attribute 'lower'".
Proof. reflexivity. Qed.

(* ================================================================== *)
(** ** The oracle on the deterministic provider *)
(* ================================================================== *)

Section AwsOracle.
Import Aws Facts.

Lemma any_keep_tag_values (l : list ResourceTag) :
  any_keep_tag (map (fun t => {| Value := Some (PyStr (t_value t)) |}) l)
  = Ok (existsb (fun t => keep_value (t_value t)) l).
Proof.
  induction l as [| t l IH]; simpl; [reflexivity |].
  unfold keep_value at 1.
  destruct (PyStr.lower (t_value t) =? "keep")%string; simpl;
    [reflexivity | exact IH].
Qed.

Lemma is_in_single (x y : string) : is_in x [y] = (x =? y)%string.
Proof. unfold is_in; simpl. apply orb_false_r. Qed.

Lemma existsb_filter {A} (p q : A -> bool) (l : list A) :
  existsb q (filter p l) = existsb (fun x => p x && q x) l.
Proof.
  induction l as [| x l IH]; simpl; [reflexivity |].
  destruct (p x); simpl; rewrite IH; reflexivity.
Qed.

Lemma existsb_ext {A} (p q : A -> bool) (l : list A) :
  (forall x, p x = q x) -> existsb p l = existsb q l.
Proof.
  intros H. induction l as [| x l IH]; simpl; [reflexivity |].
  rewrite H, IH. reflexivity.
Qed.

(** The tags a resource query lists carry a keep value exactly when the
    resource is keep-tagged. *)
Lemma listed_tags_keep (c : Client) (filter_name resource : string)
    (w : Cloud) :
  (filter_name =? "key")%string = false ->
  existsb (fun t => keep_value (t_value t))
          (listed_tags c
             [ {| Name := filter_name; Values := [resource] |};
               {| Name := "key"; Values := ["ResourceGovernance"] |} ] w)
  = keep_tagged w c resource.
Proof.
  intros Hname. unfold listed_tags, keep_tagged. rewrite existsb_filter.
  apply existsb_ext. intros t. unfold tag_selected.
  cbn [forallb Name Values]. rewrite Hname.
  change ("key" =? "key")%string with true. cbv iota.
  rewrite !is_in_single.
  destruct (t_service t =? service_name c)%string,
    (t_region t =? region_name c)%string,
    (t_resource t =? resource)%string,
    (t_key t =? "ResourceGovernance")%string; reflexivity.
Qed.

Lemma tag_filters_known (c : Client) (filter_name resource : string) :
  (filter_name =? "key")%string = false ->
  forallb (tag_filter_known c)
    [ {| Name := filter_name; Values := [resource] |};
      {| Name := "key"; Values := ["ResourceGovernance"] |} ]
  = (filter_name =? resource_filter c)%string.
Proof.
  intros H. unfold tag_filter_known. cbn [forallb Name]. rewrite H.
  change ("key" =? "key")%string with true.
  rewrite orb_true_r, orb_false_r, andb_true_r. reflexivity.
Qed.

Lemma trace_two (l : list Call) (a b : Call) :
  append (append l a) b = (l ++ [a; b])%list.
Proof. unfold append. rewrite <- app_assoc. reflexivity. Qed.

(** The check of an instance, request by request. *)
Lemma aws_instance_check (c : Client) (id : string) (W : World Cloud) :
  instance_protection_check provider c id W
  = let w := service W in
    let q1 := attribute_query c id in
    let q2 := tag_query c "resource-id" id in
    match fault w q1 with
    | Some e => (Exc e, after W [q1])
    | None =>
        match find_instance c id w with
        | None => (Exc "InvalidInstanceID.NotFound", after W [q1])
        | Some i =>
            if i_disable_api_stop i then (Ok true, after W [q1])
            else
              match fault w q2 with
              | Some e => (Exc e, after W [q1; q2])
              | None =>
                  if (service_name c =? "ec2")%string
                  then (Ok (keep_tagged w c id), after W [q1; q2])
                  else (Exc "InvalidParameterValue", after W [q1; q2])
              end
        end
    end.
Proof.
  unfold instance_protection_check, do_describe_instance_attribute,
    do_describe_tags, request, bind, ret, pure, after, attribute_query,
    tag_query.
  cbn [on_describe_instance_attribute on_describe_tags provider].
  unfold ec2_describe_instance_attribute, aws_describe_tags, guarded.
  cbv zeta.
  destruct (fault (service W) _) as [e1 |]; [reflexivity |].
  destruct (find_instance c id (service W)) as [i |]; [| reflexivity].
  change ("disableApiStop" =? "disableApiStop")%string with true.
  cbn [DisableApiStop AttrValue Py.get truthy service trace].
  destruct (i_disable_api_stop i); [reflexivity |].
  cbn [service trace]. rewrite trace_two.
  destruct (fault (service W) _) as [e2 |]; [reflexivity |].
  rewrite tag_filters_known by reflexivity. unfold resource_filter.
  destruct (service_name c =? "ec2")%string eqn:Hsvc.
  - change ("resource-id" =? "resource-id")%string with true.
    cbn [Tags Py.get]. rewrite any_keep_tag_values.
    rewrite (listed_tags_keep c "resource-id" id (service W) eq_refl).
    reflexivity.
  - reflexivity.
Qed.

(** The check of a group: one tag query. *)
Lemma aws_asg_check (c : Client) (name : string) (W : World Cloud) :
  asg_protection_check provider c name W
  = let w := service W in
    let q := tag_query c "auto-scaling-group" name in
    match fault w q with
    | Some e => (Exc e, after W [q])
    | None =>
        if (service_name c =? "ec2")%string
        then (Exc "InvalidParameterValue", after W [q])
        else (Ok (keep_tagged w c name), after W [q])
    end.
Proof.
  unfold asg_protection_check, do_describe_tags, request, bind, ret, pure,
    after, tag_query.
  cbn [on_describe_tags provider].
  unfold aws_describe_tags, guarded. cbv zeta.
  destruct (fault (service W) _) as [e1 |]; [reflexivity |].
  rewrite tag_filters_known by reflexivity. unfold resource_filter.
  destruct (service_name c =? "ec2")%string eqn:Hsvc.
  - reflexivity.
  - change ("auto-scaling-group" =? "auto-scaling-group")%string with true.
    cbn [Tags Py.get service trace]. rewrite any_keep_tag_values.
    rewrite (listed_tags_keep c "auto-scaling-group" name (service W) eq_refl).
    reflexivity.
Qed.

(** On this provider the oracle answers [instance_protected], changes
    nothing in the service and only queries. *)
Lemma aws_is_instance_stop_protected (c : Client) (id : string)
    (W : World Cloud) :
  exists added,
    is_instance_stop_protected provider c id W
    = (Ok (instance_protected (service W) c id), after W added) /\
    forallb is_query added = true.
Proof.
  unfold instance_protected, is_instance_stop_protected, try_except.
  rewrite !aws_instance_check. cbv zeta. cbn [service start].
  destruct (fault (service W) _) as [e1 |];
    [eexists; split; reflexivity |].
  destruct (find_instance c id (service W)) as [i |];
    [| eexists; split; reflexivity].
  destruct (i_disable_api_stop i); [eexists; split; reflexivity |].
  destruct (fault (service W) _) as [e2 |];
    [eexists; split; reflexivity |].
  destruct (service_name c =? "ec2")%string;
    eexists; split; reflexivity.
Qed.

Lemma aws_is_asg_protected (c : Client) (name : string) (W : World Cloud) :
  is_asg_protected provider c name W
  = (Ok (asg_protected (service W) c name),
     after W [tag_query c "auto-scaling-group" name]).
Proof.
  unfold asg_protected, is_asg_protected, try_except.
  rewrite !aws_asg_check. cbv zeta. cbn [service start].
  destruct (fault (service W) _) as [e1 |]; [reflexivity |].
  destruct (service_name c =? "ec2")%string; reflexivity.
Qed.

Lemma same_policy_refl (w : Cloud) : same_policy w w.
Proof. repeat split. Qed.

Lemma same_policy_trans (w1 w2 w3 : Cloud) :
  same_policy w1 w2 -> same_policy w2 w3 -> same_policy w1 w3.
Proof.
  intros (F1 & T1 & A1) (F2 & T2 & A2).
  split; [congruence | split; [congruence |]].
  intros c id. rewrite A1. apply A2.
Qed.

Lemma instance_protected_policy (w w' : Cloud) (c : Client) (id : string) :
  same_policy w w' -> instance_protected w c id = instance_protected w' c id.
Proof.
  intros (F & T & A). unfold instance_protected, is_instance_stop_protected,
    try_except.
  rewrite !aws_instance_check. cbv zeta. cbn [service start].
  specialize (A c id). unfold keep_tagged. rewrite <- F, <- T.
  destruct (fault w (attribute_query c id)); [reflexivity |].
  destruct (find_instance c id w) as [i |],
    (find_instance c id w') as [i' |]; simpl in A; try discriminate;
    [| reflexivity].
  injection A as A. rewrite <- A.
  destruct (i_disable_api_stop i); [reflexivity |].
  destruct (fault w _); [reflexivity |].
  destruct (service_name c =? "ec2")%string; reflexivity.
Qed.

Lemma asg_protected_policy (w w' : Cloud) (c : Client) (name : string) :
  same_policy w w' -> asg_protected w c name = asg_protected w' c name.
Proof.
  intros (F & T & A). unfold asg_protected, is_asg_protected, try_except.
  rewrite !aws_asg_check. cbv zeta. cbn [service start].
  unfold keep_tagged. rewrite <- F, <- T.
  destruct (fault w _); [reflexivity |].
  destruct (service_name c =? "ec2")%string; reflexivity.
Qed.

Lemma find_map_same {A} (p : A -> bool) (f : A -> A) (l : list A) :
  (forall x, p (f x) = p x) ->
  find p (map f l) = option_map f (find p l).
Proof.
  intros H. induction l as [| x l IH]; simpl; [reflexivity |].
  rewrite H. destruct (p x); [reflexivity | exact IH].
Qed.

Lemma stop_keeps (c : Client) (ids : list string) (i : Instance) :
  i_region (stop c ids i) = i_region i /\
  i_id (stop c ids i) = i_id i /\
  i_type (stop c ids i) = i_type i /\
  i_disable_api_stop (stop c ids i) = i_disable_api_stop i.
Proof.
  unfold stop.
  destruct ((i_region i =? region_name c)%string && is_in (i_id i) ids);
    [destruct (i_state i) |]; repeat split.
Qed.

Lemma find_instance_stop_all (c c' : Client) (ids : list string) (id : string)
    (w : Cloud) :
  find_instance c id (stop_all c' ids w)
  = option_map (stop c' ids) (find_instance c id w).
Proof.
  unfold find_instance, stop_all. cbn [reservations].
  rewrite <- concat_map. apply find_map_same. intros i. unfold own_instance.
  destruct (stop_keeps c' ids i) as (-> & -> & _). reflexivity.
Qed.

Lemma same_policy_stop_all (c : Client) (ids : list string) (w : Cloud) :
  same_policy w (stop_all c ids w).
Proof.
  repeat split. intros c' id. rewrite find_instance_stop_all.
  destruct (find_instance c' id w) as [i |]; [| reflexivity]. simpl.
  destruct (stop_keeps c ids i) as (_ & _ & _ & ->). reflexivity.
Qed.

Lemma same_policy_resize_all (c : Client) (name : string) (min max desired : Z)
    (w : Cloud) :
  same_policy w (resize_all c name min max desired w).
Proof. repeat split. Qed.

End AwsOracle.

(* ================================================================== *)
(** ** The instance sweeper on the deterministic provider *)
(* ================================================================== *)

Section AwsInstances.
Import Aws Facts.

Lemma list_ascii_app (a b : string) :
  list_ascii_of_string (a ++ b)
  = (list_ascii_of_string a ++ list_ascii_of_string b)%list.
Proof. induction a as [| ch a IH]; simpl; [| rewrite IH]; reflexivity. Qed.

Lemma string_app_inv_tail (a b t : string) : a ++ t = b ++ t -> a = b.
Proof.
  intros H. apply (f_equal list_ascii_of_string) in H.
  rewrite !list_ascii_app in H. apply app_inv_tail in H.
  rewrite <- (string_of_list_ascii_of_string a),
    <- (string_of_list_ascii_of_string b), H.
  reflexivity.
Qed.

Lemma entry_inj (id id' region : string) :
  entry id region = entry id' region -> id = id'.
Proof. apply string_app_inv_tail. Qed.

(** The two nested loops of a sweeper walk the flattened listing. *)
Lemma for_each_nested {St A B} (wrap : list B -> A)
    (unwrap : A -> Res (list B)) (body : B -> M St unit)
    (groups : list (list B)) (st : St) :
  (forall l, unwrap (wrap l) = Ok l) ->
  for_each (map wrap groups)
           (fun a => bind (pure (unwrap a)) (fun l => for_each l body)) st
  = for_each (concat groups) body st.
Proof.
  intros Hw. revert st. induction groups as [| l rest IH]; intros st.
  - reflexivity.
  - cbn [map concat for_each]. rewrite for_each_app.
    unfold bind at 1 2. unfold pure at 1. rewrite Hw.
    fold (bind (for_each l body)
               (fun _ => for_each (concat rest) body) st).
    unfold bind. destruct (for_each l body st) as [[u | e] st1];
      [apply IH | reflexivity].
Qed.

Lemma listed_instances_in (c : Client) (w : Cloud) (i : Instance) :
  In i (concat (listed_instances c running_filter w)) ->
  In i (concat (reservations w)) /\
  i_region i = region_name c /\ i_state i = running.
Proof.
  unfold listed_instances. intros H. apply in_concat in H as (r & Hr & Hi).
  apply filter_In in Hr as (Hr & _). apply in_map_iff in Hr as (r0 & <- & Hr0).
  apply filter_In in Hi as (Hi & Hsel). split.
  - apply in_concat. eauto.
  - unfold instance_selected, running_filter in Hsel. cbn in Hsel.
    apply andb_true_iff in Hsel as (Hreg & Hst).
    apply String.eqb_eq in Hreg. split; [exact Hreg |].
    destruct (i_state i); simpl in Hst; try discriminate; reflexivity.
Qed.

(** One iteration of the instance loop. *)
Lemma aws_stop_one (c : Client) (region : string) (i : Instance)
    (W : World Cloud) (acc : list string) :
  exists probe,
    forallb is_query probe = true /\
    stop_one provider c region (describe_instance i) (W, acc)
    = (Ok tt,
       if instance_protected (service W) c (i_id i)
       then (after W probe, acc)
       else
         let q := stop_instances c [i_id i] in
         match ec2_stop_instances c [i_id i] (service W) with
         | (Ok _, w') =>
             ({| service := w'; trace := (trace W ++ probe ++ [q])%list |},
              append acc (entry (i_id i) region))
         | (Exc _, w') =>
             ({| service := w'; trace := (trace W ++ probe ++ [q])%list |},
              acc)
         end).
Proof.
  destruct (aws_is_instance_stop_protected c (i_id i) W)
    as (probe & Hp & Hq).
  exists probe. split; [exact Hq |].
  unfold stop_one, describe_instance. cbn [InstanceId InstanceType getitem].
  unfold bind at 1. unfold pure at 1.
  unfold bind at 1. unfold lift at 1. rewrite Hp.
  destruct (instance_protected (service W) c (i_id i)); [reflexivity |].
  unfold try_except, bind, lift, do_stop_instances, request, modify, ret,
    after.
  cbn [on_stop_instances provider service trace].
  destruct (ec2_stop_instances c [i_id i] (service W)) as [[[] | e] w'];
    unfold append, entry; rewrite <- app_assoc; reflexivity.
Qed.

(** An invariant that the listing request and every iteration keep
    holds when the instance sweeper returns, which it always does. *)
Lemma aws_stop_idle_instances_inv (Inv : World Cloud * list string -> Prop)
    (c : Client) (region : string) (W : World Cloud) :
  Inv (after W [listing_query c], []) ->
  (forall i st,
      In i (concat (listed_instances c running_filter (service W))) ->
      Inv st ->
      Inv (snd (stop_one provider c region (describe_instance i) st))) ->
  exists res W',
    stop_idle_instances provider c region W = (Ok res, W') /\ Inv (W', res).
Proof.
  intros Hinit Hstep.
  unfold stop_idle_instances, with_local, try_except.
  unfold bind at 1. unfold lift at 1.
  unfold do_describe_instances, request.
  cbn [on_describe_instances provider].
  unfold ec2_describe_instances, guarded.
  fold running_filter. fold (listing_query c).
  destruct (fault (service W) (listing_query c)) as [e |].
  - eexists _, _. split; [reflexivity | exact Hinit].
  - cbn [forallb running_filter Name].
    change ("instance-state-name" =? "instance-state-name")%string with true.
    cbn [andb]. cbv iota. unfold bind at 1. unfold pure at 1.
    cbn [Reservations getitem].
    rewrite <- (map_map (map describe_instance)
                        (fun l => {| Instances := Some l |})).
    rewrite (for_each_nested
               (fun l => {| Instances := Some l |})
               (fun reservation =>
                  getitem "Instances" (Instances reservation)))
      by reflexivity.
    rewrite <- concat_map.
    assert (Hloop : hoare Inv
              (for_each
                 (map describe_instance
                    (concat (listed_instances c running_filter (service W))))
                 (stop_one provider c region))
              (fun _ st => Inv st)).
    { apply hoare_for_each. intros x Hx st Hst.
      apply in_map_iff in Hx as (i & <- & Hi). apply Hstep; assumption. }
    specialize (Hloop _ Hinit). cbv beta in Hloop.
    match goal with |- context [for_each ?l ?b ?st] =>
      change st with (after W [listing_query c], @nil string)
    end.
    destruct (for_each _ _ (after W [listing_query c], [])) as [[[] | e] [W' res]];
      eexists _, _; (split; [reflexivity | exact Hloop]).
Qed.

Lemma query_not_stop (probe : list Call) (c : Client) (ids : list string) :
  forallb is_query probe = true -> ~ In (stop_instances c ids) probe.
Proof.
  intros H Hin. rewrite forallb_forall in H. apply H in Hin. discriminate.
Qed.

Lemma ec2_stop_instances_policy (c : Client) (ids : list string) (w : Cloud) :
  same_policy w (snd (ec2_stop_instances c ids w)).
Proof.
  unfold ec2_stop_instances, guarded.
  destruct (fault w _); [apply same_policy_refl |].
  destruct (forallb _ ids); [apply same_policy_stop_all |].
  apply same_policy_refl.
Qed.

(** Every stop request of a sweep, and every entry of its result, is
    for a running, unprotected instance of the region. *)
Lemma aws_stop_idle_instances_targets (c : Client) (region : string)
    (W : World Cloud) :
  exists res W' added,
    stop_idle_instances provider c region W = (Ok res, W') /\
    trace W' = (trace W ++ added)%list /\
    same_policy (service W) (service W') /\
    (forall c' ids, In (stop_instances c' ids) added ->
       c' = c /\ exists id, ids = [id] /\ stop_target (service W) c id) /\
    (forall s, In s res ->
       exists id, s = entry id region /\ stop_target (service W) c id /\
                  In (stop_instances c [id]) added).
Proof.
  pose (Inv := fun st : World Cloud * list string =>
    same_policy (service W) (service (fst st)) /\
    exists added,
      trace (fst st) = (trace W ++ added)%list /\
      (forall c' ids, In (stop_instances c' ids) added ->
         c' = c /\ exists id, ids = [id] /\ stop_target (service W) c id) /\
      (forall s, In s (snd st) ->
         exists id, s = entry id region /\ stop_target (service W) c id /\
                    In (stop_instances c [id]) added)).
  destruct (aws_stop_idle_instances_inv Inv c region W)
    as (res & W' & Hrun & Hpol & added & Htr & Hcalls & Hres).
  - split; [apply same_policy_refl |]. exists [listing_query c].
    split; [reflexivity |]. split.
    + intros c' ids [H | []]. discriminate.
    + intros s [].
  - intros i [W1 acc] Hi (Hpol & added & Htr & Hcalls & Hres).
    cbn [fst snd] in *.
    destruct (aws_stop_one c region i W1 acc) as (probe & Hq & ->).
    cbn [snd].
    destruct (listed_instances_in c (service W) i Hi) as (Hin & Hreg & Hst).
    destruct (instance_protected (service W1) c (i_id i)) eqn:Hprot.
    + unfold Inv. cbn [fst snd after service trace].
      split; [exact Hpol |].
      exists (added ++ probe)%list. rewrite Htr, app_assoc.
      split; [reflexivity |]. split.
      * intros c' ids Hc. apply in_app_or in Hc as [Hc | Hc];
          [auto | destruct (query_not_stop _ _ _ Hq Hc)].
      * intros s Hs. destruct (Hres s Hs) as (id & E & Ht & Hc).
        exists id. repeat split; try apply Ht; auto using in_or_app.
    + assert (Htarget : stop_target (service W) c (i_id i)).
      { split; [exists i; repeat split; assumption |].
        rewrite (instance_protected_policy _ _ c (i_id i) Hpol).
        exact Hprot. }
      pose proof (ec2_stop_instances_policy c [i_id i] (service W1)) as Hp1.
      assert (Hcalls' : forall c' ids,
                 In (stop_instances c' ids)
                    (added ++ probe ++ [stop_instances c [i_id i]])%list ->
                 c' = c /\
                 exists id, ids = [id] /\ stop_target (service W) c id).
      { intros c' ids Hc. apply in_app_or in Hc as [Hc | Hc]; [auto |].
        apply in_app_or in Hc as [Hc | [Hc | []]];
          [destruct (query_not_stop _ _ _ Hq Hc) |].
        injection Hc as <- <-. split; [reflexivity |]. eauto. }
      unfold Inv. cbv zeta.
      destruct (ec2_stop_instances c [i_id i] (service W1))
        as [[[] | e] w1]; cbn [fst snd service trace] in *.
      * split; [eapply same_policy_trans; eassumption |].
        exists (added ++ probe ++ [stop_instances c [i_id i]])%list.
        rewrite Htr, <- app_assoc. split; [reflexivity |].
        split; [exact Hcalls' |].
        intros s Hs. unfold append in Hs. apply in_app_or in Hs as [Hs | Hs].
        -- destruct (Hres s Hs) as (id & E & Ht & Hc).
           exists id. repeat split; try apply Ht; auto using in_or_app.
        -- destruct Hs as [<- | []]. exists (i_id i).
           repeat split; try apply Htarget.
           apply in_or_app; right. apply in_or_app; right. left; reflexivity.
      * split; [eapply same_policy_trans; eassumption |].
        exists (added ++ probe ++ [stop_instances c [i_id i]])%list.
        rewrite Htr, <- app_assoc. split; [reflexivity |].
        split; [exact Hcalls' |].
        intros s Hs. destruct (Hres s Hs) as (id & E & Ht & Hc).
        exists id. repeat split; try apply Ht; auto using in_or_app.
  - exists res, W', added.
    split; [exact Hrun |]. split; [exact Htr |]. split; [exact Hpol |].
    split; assumption.
Qed.

(** The requests of the instance sweeper are queries and stops. *)
Lemma stop_idle_instances_never_updates (c : Client) (region : string)
    (W : World Cloud) :
  exists res W' added,
    stop_idle_instances provider c region W = (Ok res, W') /\
    trace W' = (trace W ++ added)%list /\
    (forall q, In q added ->
               match q with
               | update_auto_scaling_group _ _ _ _ _ => false
               | _ => true
               end = true).
Proof.
  destruct (stop_idle_instances_returns provider c region W)
    as (res & W' & Hrun).
  assert (Hm : emits trace
                 (fun q => match q with
                           | update_auto_scaling_group _ _ _ _ _ => false
                           | _ => true
                           end)
                 (stop_idle_instances provider c region)).
  { unfold stop_idle_instances, stop_one, do_describe_instances,
      do_stop_instances. emits_all. }
  destruct (Hm W) as (added & E & HQ). rewrite Hrun in E.
  exists res, W', added. split; [exact Hrun |]. split; [exact E |].
  rewrite forallb_forall in HQ. exact HQ.
Qed.

End AwsInstances.

(* ================================================================== *)
(** ** The group sweeper on the deterministic provider *)
(* ================================================================== *)

Section AwsGroups.
Import Aws Facts.

(** One iteration of the group loop. *)
Lemma aws_scale_one (c : Client) (region : string) (g : Group)
    (W : World Cloud) (acc : list string) :
  scale_one provider c region (describe_group g) (W, acc)
  = (Ok tt,
     let q := tag_query c "auto-scaling-group" (g_name g) in
     if asg_protected (service W) c (g_name g) then (after W [q], acc)
     else if (0 <? g_desired g)%Z then
       match asg_update c (g_name g) 0 (PyInt (g_max g)) 0 (service W) with
       | (Ok _, w') =>
           ({| service := w';
               trace := (trace W ++ [q; zero_query c g])%list |},
            append acc (entry (g_name g) region))
       | (Exc _, w') =>
           ({| service := w';
               trace := (trace W ++ [q; zero_query c g])%list |}, acc)
       end
     else (after W [q], acc)).
Proof.
  unfold scale_one, describe_group.
  cbn [AutoScalingGroupName DesiredCapacity MaxSize getitem].
  unfold bind at 1. unfold pure at 1.
  unfold bind at 1. unfold pure at 1.
  unfold bind at 1. unfold lift at 1. rewrite aws_is_asg_protected.
  cbv zeta.
  destruct (asg_protected (service W) c (g_name g)); [reflexivity |].
  unfold bind at 1. unfold pure at 1. cbn [Py.gt].
  destruct (0 <? g_desired g)%Z; [| reflexivity].
  unfold try_except, bind, pure, lift, do_update_auto_scaling_group, request,
    modify, ret, after, zero_query.
  cbn [on_update_auto_scaling_group provider service trace].
  destruct (asg_update c (g_name g) 0 (PyInt (g_max g)) 0 (service W))
    as [[[] | e] w']; unfold append; rewrite <- app_assoc; reflexivity.
Qed.

(** One turn of the page loop: the request, then the groups listed. *)
Lemma aws_page_step (c : Client) (region : string) (k : nat)
    (rest : list (Cloud -> Res Page * Cloud)) (W : World Cloud)
    (acc : list string) :
  for_each_page c k (fetch_page c k :: rest)
    (fun page =>
       bind (pure (getitem "AutoScalingGroups" (AutoScalingGroups page)))
            (fun groups => for_each groups (scale_one provider c region)))
    (W, acc)
  = match fault (service W) (page_query c k) with
    | Some e => (Exc e, (after W [page_query c k], acc))
    | None =>
        bind (for_each (map describe_group (page_groups c k (service W)))
                       (scale_one provider c region))
             (fun _ =>
                for_each_page c (Datatypes.S k) rest
                  (fun page =>
                     bind (pure (getitem "AutoScalingGroups"
                                         (AutoScalingGroups page)))
                          (fun groups =>
                             for_each groups
                                      (scale_one provider c region))))
             (after W [page_query c k], acc)
    end.
Proof.
  cbn [for_each_page]. unfold bind at 1. unfold lift at 1, request at 1.
  unfold fetch_page at 1, guarded, page_query.
  destruct (fault (service W) (describe_auto_scaling_groups c k));
    reflexivity.
Qed.

(** The rule of the group sweeper: [PInv k] holds before the request
    for page [k], [GInv k rest] inside page [k] with [rest] still to
    do.  The sweeper returns, after the last page or at the first page
    request that fails. *)
Lemma aws_scale_down_asgs_rule
    (PInv : nat -> World Cloud * list string -> Prop)
    (GInv : nat -> list Group -> World Cloud * list string -> Prop)
    (c : Client) (region : string) (W : World Cloud) :
  let n := page_count (service W) in
  PInv 0 (W, []) ->
  (forall k st, k < n -> PInv k st ->
     fault (service (fst st)) (page_query c k) = None ->
     GInv k (page_groups c k (service (fst st)))
          (after (fst st) [page_query c k], snd st)) ->
  (forall k g rest st, GInv k (g :: rest) st ->
     GInv k rest (snd (scale_one provider c region (describe_group g) st))) ->
  (forall k st, GInv k [] st -> PInv (Datatypes.S k) st) ->
  exists res W',
    scale_down_asgs provider c region W = (Ok res, W') /\
    (PInv n (W', res) \/
     exists k st,
       k < n /\ PInv k st /\
       fault (service (fst st)) (page_query c k) <> None /\
       (W', res) = (after (fst st) [page_query c k], snd st)).
Proof.
  intros n H0 Hfetch Hgroup Hpage.
  set (body := fun page : Page =>
         bind (pure (getitem "AutoScalingGroups" (AutoScalingGroups page)))
              (fun groups => for_each groups (scale_one provider c region))).
  assert (Hinner : forall k rest st,
             GInv k rest st ->
             exists st',
               for_each (map describe_group rest)
                        (scale_one provider c region) st = (Ok tt, st') /\
               GInv k [] st').
  { intros k rest. induction rest as [| g rest IH]; intros st Hst.
    - exists st. split; [reflexivity | exact Hst].
    - cbn [map for_each]. unfold bind at 1.
      specialize (Hgroup k g rest st Hst).
      destruct st as [W1 acc]. rewrite aws_scale_one in *. cbn [snd] in Hgroup.
      apply IH. exact Hgroup. }
  assert (Hloop : forall m k st,
             k + m = n -> PInv k st ->
             exists r st1,
               for_each_page c k (map (fetch_page c) (seq k m)) body st
               = (r, st1) /\
               ((r = Ok tt /\ PInv n st1) \/
                (exists e k' st',
                    r = Exc e /\ k' < n /\ PInv k' st' /\
                    fault (service (fst st')) (page_query c k') <> None /\
                    st1 = (after (fst st') [page_query c k'], snd st')))).
  { induction m as [| m IH]; intros k st Hk Hst.
    - exists (Ok tt), st. split; [reflexivity |]. left.
      rewrite Nat.add_0_r in Hk. subst k. split; [reflexivity | exact Hst].
    - destruct st as [W1 acc]. cbn [seq map]. unfold body.
      rewrite aws_page_step. fold body.
      destruct (fault (service W1) (page_query c k)) as [e |] eqn:Hf.
      + eexists _, _. split; [reflexivity |]. right.
        exists e, k, (W1, acc). cbn [fst snd].
        split; [reflexivity |]. split; [lia |]. split; [exact Hst |].
        split; [congruence | reflexivity].
      + assert (Hk' : k < n) by lia.
        specialize (Hfetch k (W1, acc) Hk' Hst Hf). cbn [fst snd] in Hfetch.
        destruct (Hinner _ _ _ Hfetch) as (st' & Erun & Hst').
        rewrite (bind_ok _ _ _ _ _ Erun).
        apply (IH (Datatypes.S k) st'); [lia | apply Hpage; exact Hst']. }
  unfold scale_down_asgs, with_local, try_except.
  unfold bind at 1. unfold lift at 1, do_paginate at 1.
  cbn [on_paginate provider]. unfold asg_paginate.
  fold (page_count (service W)). fold n. fold body.
  destruct (Hloop n 0 (W, []) eq_refl H0) as (r & [W' res] & Erun & Hr).
  rewrite Erun.
  destruct Hr as [(-> & H) | (e & k & st' & -> & Hk & Hst & Hf & E)].
  - exists res, W'. split; [reflexivity |]. left; exact H.
  - exists res, W'. split; [reflexivity |].
    right. exists k, st'. repeat split; assumption.
Qed.

Lemma page_groups_in (c : Client) (k : nat) (w : Cloud) (g : Group) :
  In g (page_groups c k w) -> In g (groups_of c w).
Proof.
  unfold page_groups, groups_of. intros H. apply filter_In in H as (H & Hr).
  apply filter_In. split; [| exact Hr]. apply in_concat.
  exists (nth k (asg_pages w) []). split; [| exact H].
  destruct (Nat.lt_ge_cases k (length (asg_pages w))) as [Hk | Hk].
  - apply nth_In; exact Hk.
  - rewrite nth_overflow in H by exact Hk. destruct H.
Qed.

(** An invariant that page requests and iterations keep holds when the
    group sweeper returns.  The group of an iteration was listed from
    an earlier store of the sweep. *)
Lemma aws_scale_down_asgs_inv (Inv : World Cloud * list string -> Prop)
    (c : Client) (region : string) (W : World Cloud) :
  Inv (W, []) ->
  (forall k W1 acc, Inv (W1, acc) -> Inv (after W1 [page_query c k], acc)) ->
  (forall g listed st,
      Inv listed -> In g (groups_of c (service (fst listed))) -> Inv st ->
      Inv (snd (scale_one provider c region (describe_group g) st))) ->
  exists res W',
    scale_down_asgs provider c region W = (Ok res, W') /\ Inv (W', res).
Proof.
  intros H0 Hq Hstep.
  destruct (aws_scale_down_asgs_rule
              (fun _ st => Inv st)
              (fun _ rest st =>
                 Inv st /\
                 exists listed,
                   Inv listed /\
                   forall g, In g rest ->
                             In g (groups_of c (service (fst listed))))
              c region W)
    as (res & W' & Hrun & Hend).
  - exact H0.
  - intros k [W1 acc] _ Hst _. cbn [fst snd]. split; [apply Hq; exact Hst |].
    exists (W1, acc). split; [exact Hst |]. intros g Hg.
    eapply page_groups_in; exact Hg.
  - intros k g rest st (Hst & listed & Hl & Hin). split.
    + apply (Hstep g listed st Hl); [apply Hin; left; reflexivity | exact Hst].
    + exists listed. split; [exact Hl |]. intros g' Hg'. apply Hin.
      right; exact Hg'.
  - intros k st (Hst & _). exact Hst.
  - exists res, W'. split; [exact Hrun |].
    destruct Hend as [H | (k & [W1 acc] & _ & Hst & _ & E)]; [exact H |].
    rewrite E. apply Hq. exact Hst.
Qed.

(** An update either changes nothing or resizes the named group. *)
Lemma asg_update_cases (c : Client) (name : string) (mx : Z) (w : Cloud) :
  (exists e, asg_update c name 0 (PyInt mx) 0 w = (Exc e, w)) \/
  asg_update c name 0 (PyInt mx) 0 w = (Ok tt, resize_all c name 0 mx 0 w).
Proof.
  unfold asg_update, guarded.
  destruct (fault w _); [left; eauto |].
  destruct (existsb _ _); [| left; eauto].
  destruct ((0 <=? 0)%Z && (0 <=? mx)%Z); [right; reflexivity | left; eauto].
Qed.

Lemma in_resized (c : Client) (name : string) (mn mx ds : Z) (w : Cloud)
    (g' : Group) :
  In g' (groups_of c (resize_all c name mn mx ds w)) <->
  exists g, In g (groups_of c w) /\ g' = resize c name mn mx ds g.
Proof.
  unfold groups_of, resize_all. cbn [asg_pages]. rewrite <- concat_map.
  split.
  - intros H. apply filter_In in H as (H & Hr).
    apply in_map_iff in H as (g & <- & Hg). exists g. split; [| reflexivity].
    apply filter_In. split; [exact Hg |].
    unfold resize in Hr. destruct (own_group c name g); exact Hr.
  - intros (g & Hg & ->). apply filter_In in Hg as (Hg & Hr).
    apply filter_In. split; [apply in_map; exact Hg |].
    unfold resize. destruct (own_group c name g); exact Hr.
Qed.

(** A name whose groups are all at zero gets no update request and no
    entry. *)
Lemma aws_zero_capacity_untouched (c : Client) (region : string)
    (W : World Cloud) (name : string) :
  (forall g, In g (groups_of c (service W)) -> g_name g = name ->
             g_desired g = 0%Z) ->
  exists res W' added,
    scale_down_asgs provider c region W = (Ok res, W') /\
    trace W' = (trace W ++ added)%list /\
    (forall c' n mn mx ds,
        In (update_auto_scaling_group c' n mn mx ds) added -> n <> name) /\
    ~ In (entry name region) res.
Proof.
  intros Hzero.
  pose (Inv := fun st : World Cloud * list string =>
    (forall g, In g (groups_of c (service (fst st))) -> g_name g = name ->
               g_desired g = 0%Z) /\
    exists added,
      trace (fst st) = (trace W ++ added)%list /\
      (forall c' n mn mx ds,
          In (update_auto_scaling_group c' n mn mx ds) added -> n <> name) /\
      ~ In (entry name region) (snd st)).
  destruct (aws_scale_down_asgs_inv Inv c region W)
    as (res & W' & Hrun & _ & added & Htr & Hcalls & Hres).
  - split; [exact Hzero |]. exists []. rewrite app_nil_r.
    split; [reflexivity |]. split; [intros c' n mn mx ds [] | intros []].
  - intros k W1 acc (Hz & added & Htr & Hcalls & Hres).
    split; [exact Hz |]. exists (added ++ [page_query c k])%list.
    cbn [fst snd after trace] in *. rewrite Htr, app_assoc.
    split; [reflexivity |]. split; [| exact Hres].
    intros c' n mn mx ds Hin. apply in_app_or in Hin as [Hin | [Hin | []]];
      [eauto | discriminate].
  - intros g listed [W1 acc] (Hzl & _) Hg (Hz & added & Htr & Hcalls & Hres).
    rewrite aws_scale_one. cbn [fst snd] in *. cbv zeta.
    assert (Hquery : Inv (after W1 [tag_query c "auto-scaling-group"
                                               (g_name g)], acc)).
    { split; [exact Hz |].
      exists (added ++ [tag_query c "auto-scaling-group" (g_name g)])%list.
      cbn [fst snd after trace]. rewrite Htr, app_assoc.
      split; [reflexivity |]. split; [| exact Hres].
      intros c' n mn mx ds Hin. apply in_app_or in Hin as [Hin | [Hin | []]];
        [eauto | discriminate]. }
    destruct (asg_protected (service W1) c (g_name g)); [exact Hquery |].
    destruct (0 <? g_desired g)%Z eqn:Hpos; [| exact Hquery].
    assert (Hname : g_name g <> name).
    { intros E. rewrite (Hzl g Hg E) in Hpos. discriminate. }
    assert (Hcalls' : forall c' n mn mx ds,
               In (update_auto_scaling_group c' n mn mx ds)
                  (added ++ [tag_query c "auto-scaling-group" (g_name g);
                             zero_query c g])%list -> n <> name).
    { intros c' n mn mx ds Hin.
      apply in_app_or in Hin as [Hin | [Hin | [Hin | []]]];
        [eauto | discriminate |].
      injection Hin as _ <- _ _ _. exact Hname. }
    destruct (asg_update_cases c (g_name g) (g_max g) (service W1))
      as [(e & ->) | ->].
    + split; [exact Hz |]. eexists. cbn [fst snd trace].
      rewrite Htr, <- app_assoc. split; [reflexivity |].
      split; [exact Hcalls' | exact Hres].
    + split.
      * cbn [fst service]. intros g' Hg' E.
        apply in_resized in Hg' as (g0 & Hg0 & ->).
        unfold resize in *. destruct (own_group c (g_name g) g0);
          [reflexivity | apply Hz; assumption].
      * eexists. cbn [fst snd trace]. rewrite Htr, <- app_assoc.
        split; [reflexivity |]. split; [exact Hcalls' |].
        unfold append. intros Hin. apply in_app_or in Hin as [Hin | [E | []]];
          [exact (Hres Hin) |].
        apply entry_inj in E. exact (Hname E).
  - exists res, W', added. repeat split; assumption.
Qed.

Lemma NoDup_map_eq {A B} (f : A -> B) (l : list A) (x y : A) :
  NoDup (map f l) -> In x l -> In y l -> f x = f y -> x = y.
Proof.
  induction l as [| a l IH]; simpl; intros Hnd Hx Hy E; [destruct Hx |].
  inversion Hnd as [| ? ? Hnot Hnd']; subst.
  destruct Hx as [-> | Hx], Hy as [-> | Hy]; auto.
  - exfalso. apply Hnot. rewrite E. apply in_map; exact Hy.
  - exfalso. apply Hnot. rewrite <- E. apply in_map; exact Hx.
Qed.

(** With the same static part, every group has a twin of the same
    region, name and MaxSize. *)
Lemma static_twin (c : Client) (w w' : Cloud) (g : Group) :
  static w' = static w -> In g (groups_of c w') ->
  exists g0, In g0 (groups_of c w) /\ group_static g0 = group_static g.
Proof.
  unfold static, groups_of. intros E Hg.
  apply filter_In in Hg as (Hg & Hr).
  assert (Hin : In (group_static g)
                   (map group_static (concat (asg_pages w')))).
  { apply in_map; exact Hg. }
  rewrite concat_map, E, <- concat_map in Hin.
  apply in_map_iff in Hin as (g0 & E0 & Hg0).
  exists g0. split; [| exact E0]. apply filter_In. split; [exact Hg0 |].
  unfold group_static in E0. injection E0 as -> _ _. exact Hr.
Qed.

Lemma own_group_iff (c : Client) (name : string) (g : Group) :
  own_group c name g = true <->
  g_region g = region_name c /\ g_name g = name.
Proof.
  unfold own_group. rewrite andb_true_iff, !String.eqb_eq. reflexivity.
Qed.

Lemma resize_all_static (c : Client) (name : string) (mx : Z) (w : Cloud) :
  (forall g, In g (concat (asg_pages w)) -> own_group c name g = true ->
             g_max g = mx) ->
  static (resize_all c name 0 mx 0 w) = static w.
Proof.
  intros H. unfold static, resize_all. cbn [asg_pages]. rewrite map_map.
  apply map_ext_in. intros page Hpage. rewrite map_map.
  apply map_ext_in. intros g Hg. unfold resize, group_static.
  destruct (own_group c name g) eqn:Hown; [| reflexivity].
  cbn [g_region g_name g_max]. rewrite (H g); [reflexivity | | exact Hown].
  apply in_concat. eauto.
Qed.

(** Every update request zeroes MinSize and DesiredCapacity and passes
    the MaxSize the named group had; no MaxSize changes; the groups
    entered in the result end at (0, MaxSize, 0). *)
Lemma aws_scale_down_keeps_max (c : Client) (region : string)
    (W : World Cloud) :
  unique_groups (service W) ->
  exists res W' added,
    scale_down_asgs provider c region W = (Ok res, W') /\
    trace W' = (trace W ++ added)%list /\
    (forall c' n mn mx ds,
        In (update_auto_scaling_group c' n mn mx ds) added ->
        c' = c /\ mn = 0%Z /\ ds = 0%Z /\
        exists g, In g (groups_of c (service W)) /\ g_name g = n /\
                  mx = PyInt (g_max g)) /\
    static (service W') = static (service W) /\
    (forall s, In s res ->
       exists g, In g (groups_of c (service W)) /\
                 s = entry (g_name g) region /\
                 In (zero_query c g) added /\
                 zeroed c (service W') g).
Proof.
  intros Huniq.
  pose (Calls := fun added : list Call =>
    forall c' n mn mx ds,
      In (update_auto_scaling_group c' n mn mx ds) added ->
      c' = c /\ mn = 0%Z /\ ds = 0%Z /\
      exists g, In g (groups_of c (service W)) /\ g_name g = n /\
                mx = PyInt (g_max g)).
  pose (Inv := fun st : World Cloud * list string =>
    static (service (fst st)) = static (service W) /\
    exists added,
      trace (fst st) = (trace W ++ added)%list /\ Calls added /\
      (forall s, In s (snd st) ->
         exists g, In g (groups_of c (service W)) /\
                   s = entry (g_name g) region /\
                   In (zero_query c g) added /\
                   zeroed c (service (fst st)) g)).
  assert (Hquery : forall q W1 acc,
             is_query q = true -> Inv (W1, acc) -> Inv (after W1 [q], acc)).
  { intros q W1 acc Hq (Hs & added & Htr & Hcalls & Hres).
    split; [exact Hs |]. exists (added ++ [q])%list.
    cbn [fst snd after trace service] in *. rewrite Htr, app_assoc.
    split; [reflexivity |]. split.
    - intros c' n mn mx ds Hin. apply in_app_or in Hin as [Hin | [E | []]];
        [apply Hcalls; exact Hin | rewrite E in Hq; discriminate].
    - intros s Hs'. destruct (Hres s Hs') as (g & Hg & E & Hz & Hzero).
      exists g. repeat split; try assumption; try apply Hzero; auto.
      apply in_or_app; left; exact Hz. }
  destruct (aws_scale_down_asgs_inv Inv c region W)
    as (res & W' & Hrun & Hs & added & Htr & Hcalls & Hres).
  - split; [reflexivity |]. exists []. rewrite app_nil_r.
    split; [reflexivity |]. split; [intros c' n mn mx ds [] | intros s []].
  - intros k W1 acc. apply Hquery. reflexivity.
  - intros g listed [W1 acc] (Hsl & _) Hg Hst.
    rewrite aws_scale_one. cbn [fst snd] in *. cbv zeta.
    pose proof (Hquery (tag_query c "auto-scaling-group" (g_name g)) W1 acc
                  eq_refl Hst) as Hq.
    destruct (asg_protected (service W1) c (g_name g)); [exact Hq |].
    destruct (0 <? g_desired g)%Z; [| exact Hq]. clear Hq.
    destruct Hst as (Hs & added & Htr & Hcalls & Hres).
    cbn [fst snd] in *.
    destruct (static_twin c _ _ g Hsl Hg) as (g0 & Hg0 & E0).
    assert (Hrg : g_region g = region_name c).
    { apply filter_In in Hg as (_ & Hr). apply String.eqb_eq; exact Hr. }
    assert (Ename : g_name g0 = g_name g /\ g_max g0 = g_max g).
    { unfold group_static in E0. injection E0 as _ -> ->. split; reflexivity. }
    destruct Ename as (En & Em).
    assert (Hcalls' : Calls (added
                       ++ [tag_query c "auto-scaling-group" (g_name g);
                           zero_query c g])%list).
    { intros c' n mn mx ds Hin.
      apply in_app_or in Hin as [Hin | [Hin | [Hin | []]]];
        [apply Hcalls; exact Hin | discriminate |].
      injection Hin as <- <- <- <- <-. repeat split.
      exists g0. rewrite Em. repeat split; assumption. }
    destruct (asg_update_cases c (g_name g) (g_max g) (service W1))
      as [(e & ->) | ->].
    + split; [exact Hs |]. eexists. cbn [fst snd trace service].
      rewrite Htr, <- app_assoc. split; [reflexivity |].
      split; [exact Hcalls' |].
      intros s Hs'. destruct (Hres s Hs') as (g1 & Hg1 & E & Hz & Hzero).
      exists g1. repeat split; try assumption; try apply Hzero; auto.
      apply in_or_app; left; exact Hz.
    + assert (Hmax : forall g', In g' (concat (asg_pages (service W1))) ->
                                own_group c (g_name g) g' = true ->
                                g_max g' = g_max g).
      { intros g' Hg' Hown. apply own_group_iff in Hown as (Hr' & Hn').
        assert (Hin' : In g' (groups_of c (service W1))).
        { apply filter_In. split; [exact Hg' |].
          apply String.eqb_eq; exact Hr'. }
        destruct (static_twin c _ _ g' Hs Hin') as (g0' & Hg0' & E0').
        assert (g0' = g0).
        { apply filter_In in Hg0 as (Hg0 & _).
          apply filter_In in Hg0' as (Hg0' & _).
          apply (NoDup_map_eq _ _ _ _ Huniq Hg0' Hg0).
          unfold group_static in *. congruence. }
        subst g0'. unfold group_static in *. congruence. }
      split; [cbn [fst service]; rewrite resize_all_static; assumption |].
      eexists. cbn [fst snd trace service].
      rewrite Htr, <- app_assoc. split; [reflexivity |].
      split; [exact Hcalls' |].
      assert (Hnew : forall g1,
                 (forall g', In g' (groups_of c (service W1)) ->
                             g_name g' = g_name g1 ->
                             g_name g1 = g_name g \/
                             (g_min g' = 0%Z /\ g_desired g' = 0%Z /\
                              g_max g' = g_max g1)) ->
                 (g_name g1 = g_name g -> g_max g1 = g_max g) ->
                 zeroed c (resize_all c (g_name g) 0 (g_max g) 0 (service W1))
                        g1).
      { intros g1 Hold Hsame g' Hg' En'.
        apply in_resized in Hg' as (g2 & Hg2 & ->).
        unfold resize in *. destruct (own_group c (g_name g) g2) eqn:Hown.
        - cbn [g_name g_min g_desired g_max] in *.
          apply own_group_iff in Hown as (_ & Hn2).
          repeat split. symmetry. apply Hsame. congruence.
        - destruct (Hold g2 Hg2 En') as [E | H]; [| exact H].
          exfalso. apply filter_In in Hg2 as (_ & Hr2).
          apply String.eqb_eq in Hr2.
          assert (own_group c (g_name g) g2 = true)
            by (apply own_group_iff; split; congruence).
          congruence. }
      unfold append. intros s Hs'. apply in_app_or in Hs' as [Hs' | [<- | []]].
      * destruct (Hres s Hs') as (g1 & Hg1 & E & Hz & Hzero).
        exists g1. split; [exact Hg1 |]. split; [exact E |].
        split; [apply in_or_app; left; exact Hz |].
        apply Hnew.
        -- intros g' Hg' En'. right. apply Hzero; assumption.
        -- intros En1.
           assert (g1 = g0).
           { apply filter_In in Hg0 as (Hg0 & Hr0).
             apply filter_In in Hg1 as (Hg1 & Hr1).
             apply String.eqb_eq in Hr0, Hr1.
             apply (NoDup_map_eq _ _ _ _ Huniq Hg1 Hg0). congruence. }
           congruence.
      * exists g0. split; [exact Hg0 |]. split; [rewrite En; reflexivity |].
        split.
        -- apply in_or_app; right. right. left.
           unfold zero_query. rewrite En, Em. reflexivity.
        -- apply Hnew; [| intros _; exact Em].
           intros g' _ _. left. exact En.
  - exists res, W', added.
    split; [exact Hrun |]. split; [exact Htr |]. split; [exact Hcalls |].
    split; [exact Hs | exact Hres].
Qed.

End AwsGroups.

(* ================================================================== *)
(** ** The orchestrator on the deterministic provider *)
(* ================================================================== *)

Section AwsRegion.
Import Aws Facts.

(** [process_region], client by client. *)
Lemma aws_process_region (region : string) (W : World Cloud) :
  process_region provider region W
  = match fault (service W) (boto3_client "ec2" region) with
    | Some e => (Exc e, after W [boto3_client "ec2" region])
    | None =>
        match fault (service W) (boto3_client "autoscaling" region) with
        | Some e =>
            (Exc e, after W [boto3_client "ec2" region;
                             boto3_client "autoscaling" region])
        | None =>
            region_sweeps provider (ec2_of region) (asg_of region) region
              (after W [boto3_client "ec2" region;
                        boto3_client "autoscaling" region])
        end
    end.
Proof.
  unfold process_region.
  unfold bind at 1, new_client at 1, bind at 1, request at 1.
  cbn [on_client provider]. unfold aws_client at 1, guarded.
  destruct (fault (service W) (boto3_client "ec2" region)); [reflexivity |].
  unfold ret at 1.
  unfold bind at 1, new_client at 1, bind at 1, request at 1.
  cbn [on_client provider service trace]. unfold aws_client at 1, guarded.
  destruct (fault (service W) (boto3_client "autoscaling" region));
    unfold after; rewrite trace_two; reflexivity.
Qed.

(** The instance sweeper leaves the groups alone. *)
Lemma aws_stop_idle_instances_groups (c : Client) (region : string)
    (W W' : World Cloud) (res : list string) :
  stop_idle_instances provider c region W = (Ok res, W') ->
  asg_pages (service W') = asg_pages (service W).
Proof.
  intros Hrun.
  destruct (aws_stop_idle_instances_inv
              (fun st => asg_pages (service (fst st)) = asg_pages (service W))
              c region W) as (res' & W'' & Hrun' & H).
  - reflexivity.
  - intros i [W1 acc] _ H1.
    destruct (aws_stop_one c region i W1 acc) as (probe & _ & ->).
    cbn [fst snd] in *.
    destruct (instance_protected (service W1) c (i_id i)); [exact H1 |].
    cbv zeta. unfold ec2_stop_instances, guarded.
    destruct (fault (service W1) _); [exact H1 |].
    destruct (forallb _ _); exact H1.
  - rewrite Hrun in Hrun'. injection Hrun' as <- <-. exact H.
Qed.

End AwsRegion.

(* ================================================================== *)
(** ** A second sweep finds nothing to do *)
(* ================================================================== *)

Section AwsIdempotence.
Import Aws Facts.

Lemma evolves_trans (w1 w2 w3 : Cloud) :
  evolves w1 w2 -> evolves w2 w3 -> evolves w1 w3.
Proof.
  intros H12 H23. induction H23; [exact H12 | |]; constructor; auto.
Qed.

Lemma evolves_policy (w w' : Cloud) : evolves w w' -> same_policy w w'.
Proof.
  induction 1 as [| w w' c ids _ IH | w w' c name mx _ IH].
  - apply same_policy_refl.
  - eapply same_policy_trans; [exact IH | apply same_policy_stop_all].
  - eapply same_policy_trans; [exact IH | apply same_policy_resize_all].
Qed.

Lemma evolves_fault (w w' : Cloud) : evolves w w' -> fault w' = fault w.
Proof. intros H. destruct (evolves_policy _ _ H) as (F & _). auto. Qed.

(** *** The effect of the two requests that write *)

Lemma ec2_stop_cases (c : Client) (ids : list string) (w : Cloud) :
  (exists e, ec2_stop_instances c ids w = (Exc e, w)) \/
  ec2_stop_instances c ids w = (Ok tt, stop_all c ids w).
Proof.
  unfold ec2_stop_instances, guarded.
  destruct (fault w _); [left; eauto |].
  destruct (forallb _ ids); [right; reflexivity | left; eauto].
Qed.

Lemma existsb_map_same {A} (p : A -> bool) (f : A -> A) (l : list A) :
  (forall x, p (f x) = p x) -> existsb p (map f l) = existsb p l.
Proof.
  intros H. induction l as [| x l IH]; simpl; [reflexivity |].
  rewrite H, IH. reflexivity.
Qed.

Lemma forallb_same {A} (p q : A -> bool) (l : list A) :
  (forall x, p x = q x) -> forallb p l = forallb q l.
Proof.
  intros H. induction l as [| x l IH]; simpl; [reflexivity |].
  rewrite H, IH. reflexivity.
Qed.

Lemma filter_map_same {A} (p : A -> bool) (f : A -> A) (l : list A) :
  (forall x, p (f x) = p x) -> filter p (map f l) = map f (filter p l).
Proof.
  intros H. induction l as [| x l IH]; simpl; [reflexivity |].
  rewrite H. destruct (p x); simpl; rewrite IH; reflexivity.
Qed.

Lemma resize_keeps (c : Client) (name : string) (mn mx ds : Z) (g : Group) :
  g_region (resize c name mn mx ds g) = g_region g /\
  g_name (resize c name mn mx ds g) = g_name g.
Proof. unfold resize. destruct (own_group c name g); split; reflexivity. Qed.

Lemma instances_of_stop_all (c c' : Client) (ids : list string) (w : Cloud) :
  instances_of c (stop_all c' ids w) = map (stop c' ids) (instances_of c w).
Proof.
  unfold instances_of, stop_all. cbn [reservations]. rewrite <- concat_map.
  apply filter_map_same. intros i.
  destruct (stop_keeps c' ids i) as (-> & _). reflexivity.
Qed.

Lemma page_groups_resize_all (c c' : Client) (name : string) (mn mx ds : Z)
    (k : nat) (w : Cloud) :
  page_groups c k (resize_all c' name mn mx ds w)
  = map (resize c' name mn mx ds) (page_groups c k w).
Proof.
  unfold page_groups, resize_all. cbn [asg_pages].
  change (@nil Group) with (map (resize c' name mn mx ds) []) at 1.
  rewrite map_nth. apply filter_map_same. intros g.
  destruct (resize_keeps c' name mn mx ds g) as (-> & _). reflexivity.
Qed.

(** Whether a stop or an update request succeeds is not changed by
    stops and updates to zero. *)
Lemma stop_outcome_stop_all (c c' : Client) (ids ids' : list string)
    (w : Cloud) :
  is_ok (fst (ec2_stop_instances c ids (stop_all c' ids' w)))
  = is_ok (fst (ec2_stop_instances c ids w)).
Proof.
  unfold ec2_stop_instances, guarded. cbn [fault stop_all reservations].
  destruct (fault w _); [reflexivity |].
  assert (E : forallb (fun id => existsb (own_instance c id)
                         (concat (map (map (stop c' ids')) (reservations w))))
                      ids
              = forallb (fun id => existsb (own_instance c id)
                           (concat (reservations w))) ids).
  { apply forallb_same. intros id. rewrite <- concat_map.
    apply existsb_map_same. intros i. unfold own_instance.
    destruct (stop_keeps c' ids' i) as (-> & -> & _). reflexivity. }
  rewrite E. clear E. destruct (forallb _ ids); reflexivity.
Qed.

Lemma update_outcome_resize_all (c c' : Client) (name name' : string)
    (mx mx' : Z) (w : Cloud) :
  is_ok (fst (asg_update c name 0 (PyInt mx) 0
                (resize_all c' name' 0 mx' 0 w)))
  = is_ok (fst (asg_update c name 0 (PyInt mx) 0 w)).
Proof.
  unfold asg_update, guarded. cbn [fault resize_all asg_pages].
  destruct (fault w _); [reflexivity |].
  rewrite <- concat_map.
  rewrite (existsb_map_same (own_group c name)).
  - destruct (existsb _ _); [| reflexivity].
    destruct ((0 <=? 0)%Z && (0 <=? mx)%Z); reflexivity.
  - intros g. unfold own_group.
    destruct (resize_keeps c' name' 0 mx' 0 g) as (-> & ->). reflexivity.
Qed.

(** *** What is pending after a write was pending before it *)

Lemma pending_instance_stop_all (c c' : Client) (ids : list string)
    (w : Cloud) (i : Instance) :
  pending_instance (stop_all c' ids w) c (stop c' ids i) = true ->
  pending_instance w c i = true /\ stop c' ids i = i.
Proof.
  unfold pending_instance. intros H.
  apply andb_true_iff in H as (H & Hok).
  apply andb_true_iff in H as (Hrun & Hprot).
  rewrite stop_outcome_stop_all in Hok.
  destruct (stop_keeps c' ids i) as (_ & Eid & _). rewrite Eid in *.
  rewrite <- (instance_protected_policy _ _ c (i_id i)
                (same_policy_stop_all c' ids w)) in Hprot.
  rewrite Hprot, Hok, !andb_true_r.
  revert Hrun. unfold is_running, stop.
  destruct ((i_region i =? region_name c')%string && is_in (i_id i) ids);
    [| intros Hrun; split; [exact Hrun | reflexivity]].
  destruct (i_state i) eqn:Est; cbn [i_state]; rewrite ?Est; intros Hrun;
    discriminate Hrun.
Qed.

Lemma pending_instance_resize_all (c c' : Client) (name : string) (mx : Z)
    (w : Cloud) (i : Instance) :
  pending_instance (resize_all c' name 0 mx 0 w) c i = pending_instance w c i.
Proof.
  unfold pending_instance.
  rewrite <- (instance_protected_policy _ _ c (i_id i)
                (same_policy_resize_all c' name 0 mx 0 w)).
  f_equal. unfold ec2_stop_instances, guarded.
  cbn [fault resize_all reservations].
  destruct (fault w _); [reflexivity |].
  destruct (forallb _ _); reflexivity.
Qed.

Lemma pending_group_stop_all (c c' : Client) (ids : list string) (w : Cloud)
    (g : Group) :
  pending_group (stop_all c' ids w) c g = pending_group w c g.
Proof.
  unfold pending_group.
  rewrite <- (asg_protected_policy _ _ c (g_name g)
                (same_policy_stop_all c' ids w)).
  f_equal. unfold asg_update, guarded. cbn [fault stop_all asg_pages].
  destruct (fault w _); [reflexivity |].
  destruct (existsb _ _); [| reflexivity].
  destruct ((0 <=? 0)%Z && (0 <=? g_max g)%Z); reflexivity.
Qed.

Lemma pending_group_resize_all (c c' : Client) (name : string) (mx : Z)
    (w : Cloud) (g : Group) :
  pending_group (resize_all c' name 0 mx 0 w) c (resize c' name 0 mx 0 g)
  = true ->
  pending_group w c g = true /\ own_group c' name g = false.
Proof.
  unfold pending_group, resize.
  destruct (own_group c' name g) eqn:Hown.
  - cbn [g_desired]. rewrite andb_false_r. discriminate.
  - rewrite update_outcome_resize_all.
    rewrite <- (asg_protected_policy _ _ c (g_name g)
                  (same_policy_resize_all c' name 0 mx 0 w)).
    intros H. split; [exact H | reflexivity].
Qed.

(** *** Being settled survives every write of a sweep *)

Lemma instances_settled_evolves (c : Client) (w w' : Cloud) :
  evolves w w' -> instances_settled c w -> instances_settled c w'.
Proof.
  induction 1 as [| w w' c' ids _ IH | w w' c' name mx _ IH];
    intros Hs; [exact Hs | |]; specialize (IH Hs);
    destruct IH as [Hf | Hnone]; try (left; exact Hf); right; intros i Hi.
  - rewrite instances_of_stop_all in Hi.
    apply in_map_iff in Hi as (i0 & <- & Hi0).
    destruct (pending_instance (stop_all c' ids w') c (stop c' ids i0))
      eqn:Hp; [| reflexivity].
    apply pending_instance_stop_all in Hp as (Hp & _).
    rewrite (Hnone i0 Hi0) in Hp. discriminate.
  - rewrite pending_instance_resize_all. apply Hnone. exact Hi.
Qed.

Lemma groups_settled_evolves (c : Client) (w w' : Cloud) :
  evolves w w' -> groups_settled c w -> groups_settled c w'.
Proof.
  induction 1 as [| w w' c' ids _ IH | w w' c' name mx _ IH];
    intros Hs; [exact Hs | |]; specialize (IH Hs); intros k Hreach g Hg.
  - rewrite pending_group_stop_all. apply (IH k Hreach). exact Hg.
  - rewrite page_groups_resize_all in Hg.
    apply in_map_iff in Hg as (g0 & <- & Hg0).
    destruct (pending_group (resize_all c' name 0 mx 0 w') c
                (resize c' name 0 mx 0 g0)) eqn:Hp; [| reflexivity].
    apply pending_group_resize_all in Hp as (Hp & _).
    rewrite (IH k Hreach g0 Hg0) in Hp. discriminate.
Qed.

Lemma region_settled_evolves (region : string) (w w' : Cloud) :
  evolves w w' -> region_settled region w -> region_settled region w'.
Proof.
  intros Hev [H | [H | (Hi & Hg)]].
  - left. rewrite (evolves_fault _ _ Hev). exact H.
  - right; left. rewrite (evolves_fault _ _ Hev). exact H.
  - right; right. split.
    + eapply instances_settled_evolves; eassumption.
    + eapply groups_settled_evolves; eassumption.
Qed.

(** *** The sweepers only stop instances and zero groups *)

Lemma stop_one_evolves (c : Client) (region : string) (i : Instance)
    (w0 : Cloud) (st : World Cloud * list string) :
  evolves w0 (service (fst st)) ->
  evolves w0
    (service (fst (snd (stop_one provider c region (describe_instance i)
                          st)))).
Proof.
  destruct st as [W1 acc]. intros H.
  destruct (aws_stop_one c region i W1 acc) as (probe & _ & ->).
  cbn [fst snd] in *.
  destruct (instance_protected (service W1) c (i_id i)); [exact H |].
  cbv zeta.
  destruct (ec2_stop_cases c [i_id i] (service W1)) as [(e & ->) | ->];
    [exact H | constructor; exact H].
Qed.

Lemma scale_one_evolves (c : Client) (region : string) (g : Group)
    (w0 : Cloud) (st : World Cloud * list string) :
  evolves w0 (service (fst st)) ->
  evolves w0
    (service (fst (snd (scale_one provider c region (describe_group g)
                          st)))).
Proof.
  destruct st as [W1 acc]. intros H. rewrite aws_scale_one.
  cbn [fst snd] in *. cbv zeta.
  destruct (asg_protected (service W1) c (g_name g)); [exact H |].
  destruct (0 <? g_desired g)%Z; [| exact H].
  destruct (asg_update_cases c (g_name g) (g_max g) (service W1))
    as [(e & ->) | ->]; [exact H | constructor; exact H].
Qed.

Lemma stop_idle_instances_evolves (c : Client) (region : string)
    (W W' : World Cloud) (res : list string) :
  stop_idle_instances provider c region W = (Ok res, W') ->
  evolves (service W) (service W').
Proof.
  intros Hrun.
  destruct (aws_stop_idle_instances_inv
              (fun st => evolves (service W) (service (fst st))) c region W)
    as (res' & W'' & Hrun' & H).
  - constructor.
  - intros i st _ H. apply stop_one_evolves; exact H.
  - rewrite Hrun in Hrun'. injection Hrun' as <- <-. exact H.
Qed.

Lemma scale_down_asgs_evolves (c : Client) (region : string)
    (W W' : World Cloud) (res : list string) :
  scale_down_asgs provider c region W = (Ok res, W') ->
  evolves (service W) (service W').
Proof.
  intros Hrun.
  destruct (aws_scale_down_asgs_inv
              (fun st => evolves (service W) (service (fst st))) c region W)
    as (res' & W'' & Hrun' & H).
  - constructor.
  - intros k W1 acc H; exact H.
  - intros g listed st _ _ H. apply scale_one_evolves; exact H.
  - rewrite Hrun in Hrun'. injection Hrun' as <- <-. exact H.
Qed.

(** *** The rule of the instance sweeper, with the instances still to
    do in the invariant *)

Lemma aws_stop_idle_instances_rule
    (GInv : list Instance -> World Cloud * list string -> Prop)
    (Post : World Cloud * list string -> Prop)
    (c : Client) (region : string) (W : World Cloud) :
  (fault (service W) (listing_query c) <> None ->
   Post (after W [listing_query c], [])) ->
  (fault (service W) (listing_query c) = None ->
   GInv (concat (listed_instances c running_filter (service W)))
        (after W [listing_query c], [])) ->
  (forall i rest st,
      GInv (i :: rest) st ->
      GInv rest (snd (stop_one provider c region (describe_instance i) st))) ->
  (forall st, GInv [] st -> Post st) ->
  exists res W',
    stop_idle_instances provider c region W = (Ok res, W') /\ Post (W', res).
Proof.
  intros Hfault Hinit Hstep Hend.
  assert (Hloop : forall rest st,
             GInv rest st ->
             exists st',
               for_each (map describe_instance rest)
                        (stop_one provider c region) st = (Ok tt, st') /\
               GInv [] st').
  { induction rest as [| i rest IH]; intros st Hst.
    - exists st. split; [reflexivity | exact Hst].
    - cbn [map for_each]. unfold bind at 1.
      specialize (Hstep i rest st Hst). destruct st as [W1 acc].
      destruct (aws_stop_one c region i W1 acc) as (probe & _ & E).
      rewrite E in *. cbn [snd] in Hstep. apply IH. exact Hstep. }
  unfold stop_idle_instances, with_local, try_except.
  unfold bind at 1. unfold lift at 1.
  unfold do_describe_instances, request.
  cbn [on_describe_instances provider].
  unfold ec2_describe_instances, guarded.
  fold running_filter. fold (listing_query c).
  destruct (fault (service W) (listing_query c)) as [e |] eqn:Hf.
  - eexists _, _. split; [reflexivity |]. apply Hfault. discriminate.
  - cbn [forallb running_filter Name].
    change ("instance-state-name" =? "instance-state-name")%string with true.
    cbn [andb]. cbv iota. unfold bind at 1. unfold pure at 1.
    cbn [Reservations getitem].
    rewrite <- (map_map (map describe_instance)
                        (fun l => {| Instances := Some l |})).
    rewrite (for_each_nested
               (fun l => {| Instances := Some l |})
               (fun reservation =>
                  getitem "Instances" (Instances reservation)))
      by reflexivity.
    rewrite <- concat_map.
    match goal with |- context [for_each ?l ?b ?st] =>
      change st with (after W [listing_query c], @nil string)
    end.
    destruct (Hloop _ _ (Hinit eq_refl)) as ([W' res] & -> & Hst).
    eexists _, _. split; [reflexivity |]. apply Hend. exact Hst.
Qed.

(** *** After a sweep nothing is pending *)

Lemma listed_complete (c : Client) (w : Cloud) (i : Instance) :
  In i (instances_of c w) -> is_running i = true ->
  In i (concat (listed_instances c running_filter w)).
Proof.
  unfold instances_of, listed_instances, is_running. intros Hi Hrun.
  apply filter_In in Hi as (Hi & Hreg).
  apply in_concat in Hi as (r & Hr & Hir).
  assert (Hsel : In i (filter (instance_selected c running_filter) r)).
  { apply filter_In. split; [exact Hir |].
    unfold instance_selected. rewrite Hreg.
    destruct (i_state i); try discriminate Hrun. reflexivity. }
  apply in_concat.
  exists (filter (instance_selected c running_filter) r).
  split; [| exact Hsel].
  apply filter_In. split; [apply in_map; exact Hr |].
  destruct (filter (instance_selected c running_filter) r);
    [destruct Hsel | reflexivity].
Qed.

Lemma pending_instance_parts (w : Cloud) (c : Client) (i : Instance) :
  pending_instance w c i = true ->
  is_running i = true /\ instance_protected w c (i_id i) = false /\
  is_ok (fst (ec2_stop_instances c [i_id i] w)) = true.
Proof.
  unfold pending_instance. intros H.
  apply andb_true_iff in H as (H & Hok).
  apply andb_true_iff in H as (Hrun & Hprot).
  apply negb_true_iff in Hprot. repeat split; assumption.
Qed.

Lemma stop_idle_instances_settles (c : Client) (region : string)
    (W W' : World Cloud) (res : list string) :
  stop_idle_instances provider c region W = (Ok res, W') ->
  instances_settled c (service W').
Proof.
  intros Hrun.
  destruct (aws_stop_idle_instances_rule
    (fun rest st =>
       forall i, In i (instances_of c (service (fst st))) ->
                 pending_instance (service (fst st)) c i = true ->
                 In (i_id i) (map i_id rest))
    (fun st => instances_settled c (service (fst st)))
    c region W) as (res' & W'' & Hrun' & H).
  - intros Hf. left. exact Hf.
  - intros _ i Hi Hp. cbn [fst after service] in *.
    apply in_map. apply listed_complete; [exact Hi |].
    apply pending_instance_parts in Hp. apply Hp.
  - intros i0 rest [W1 acc] Hinv.
    destruct (aws_stop_one c region i0 W1 acc) as (probe & _ & ->).
    cbn [fst snd] in *.
    destruct (instance_protected (service W1) c (i_id i0)) eqn:Hprot.
    + cbn [fst after service]. intros i Hi Hp.
      destruct (Hinv i Hi Hp) as [E | Hin]; [| exact Hin].
      apply pending_instance_parts in Hp as (_ & Hp & _).
      rewrite <- E in Hp. congruence.
    + cbv zeta.
      destruct (ec2_stop_cases c [i_id i0] (service W1))
        as [(e & Es) | Es]; rewrite Es; cbn [fst service].
      * intros i Hi Hp.
        destruct (Hinv i Hi Hp) as [E | Hin]; [| exact Hin].
        apply pending_instance_parts in Hp as (_ & _ & Hp).
        rewrite <- E, Es in Hp. discriminate.
      * intros i' Hi' Hp'. rewrite instances_of_stop_all in Hi'.
        apply in_map_iff in Hi' as (i & <- & Hi).
        destruct (pending_instance_stop_all _ _ _ _ _ Hp') as (Hp & Esame).
        rewrite Esame.
        destruct (Hinv i Hi Hp) as [E | Hin]; [| exact Hin].
        exfalso. apply pending_instance_parts in Hp as (Hr & _).
        apply filter_In in Hi as (_ & Hreg).
        revert Esame Hr. unfold stop, is_running.
        rewrite Hreg, <- E. unfold is_in. cbn [existsb].
        rewrite String.eqb_refl. cbn [orb andb].
        destruct (i_state i) eqn:Est; intros Econtra Hr;
          try discriminate Hr.
        apply (f_equal i_state) in Econtra.
        cbn [i_state] in Econtra. congruence.
  - intros st Hinv. right. intros i Hi.
    destruct (pending_instance (service (fst st)) c i) eqn:Hp;
      [| reflexivity].
    destruct (Hinv i Hi Hp).
  - rewrite Hrun in Hrun'. injection Hrun' as <- <-. exact H.
Qed.

Lemma scale_down_asgs_settles (c : Client) (region : string)
    (W W' : World Cloud) (res : list string) :
  scale_down_asgs provider c region W = (Ok res, W') ->
  groups_settled c (service W').
Proof.
  intros Hrun.
  pose (Done := fun (k : nat) (w : Cloud) =>
    forall j, j < k -> forall g, In g (page_groups c j w) ->
                                 pending_group w c g = false).
  destruct (aws_scale_down_asgs_rule
    (fun k st =>
       length (asg_pages (service (fst st)))
       = length (asg_pages (service W)) /\
       Done k (service (fst st)))
    (fun k rest st =>
       length (asg_pages (service (fst st)))
       = length (asg_pages (service W)) /\
       Done k (service (fst st)) /\
       (forall g, In g (page_groups c k (service (fst st))) ->
                  pending_group (service (fst st)) c g = true -> In g rest) /\
       (forall g, In g rest -> g_region g = region_name c))
    c region W) as (res' & W'' & Hrun' & Hend).
  - split; [reflexivity |]. intros j Hj. inversion Hj.
  - intros k [W1 acc] _ (Hlen & Hdone) _. cbn [fst snd after service] in *.
    split; [exact Hlen |]. split; [exact Hdone |]. split; [auto |].
    intros g Hg. unfold page_groups in Hg. apply filter_In in Hg as (_ & Hr).
    apply String.eqb_eq; exact Hr.
  - intros k g0 rest [W1 acc] (Hlen & Hdone & Hpage & Hreg).
    rewrite aws_scale_one. cbn [fst snd] in *. cbv zeta.
    assert (Hsame : pending_group (service W1) c g0 = false ->
              length (asg_pages (service W1))
              = length (asg_pages (service W)) /\
              Done k (service W1) /\
              (forall g, In g (page_groups c k (service W1)) ->
                         pending_group (service W1) c g = true ->
                         In g rest) /\
              (forall g, In g rest -> g_region g = region_name c)).
    { intros Hnp. split; [exact Hlen |]. split; [exact Hdone |]. split.
      - intros g Hg Hp. destruct (Hpage g Hg Hp) as [<- | Hin];
          [congruence | exact Hin].
      - intros g Hg. apply Hreg. right; exact Hg. }
    unfold pending_group in Hsame.
    destruct (asg_protected (service W1) c (g_name g0));
      [apply Hsame; reflexivity |].
    destruct (0 <? g_desired g0)%Z;
      [| apply Hsame; reflexivity].
    destruct (asg_update_cases c (g_name g0) (g_max g0) (service W1))
      as [(e & Eu) | Eu]; rewrite Eu in *; cbn [fst snd service] in *;
      [apply Hsame; reflexivity |].
    clear Hsame.
    assert (Hown0 : own_group c (g_name g0) g0 = true).
    { apply own_group_iff. split; [| reflexivity]. apply Hreg.
      left; reflexivity. }
    split; [unfold resize_all; cbn [asg_pages]; rewrite length_map;
            exact Hlen |].
    split; [| split].
    + intros j Hj g' Hg'. rewrite page_groups_resize_all in Hg'.
      apply in_map_iff in Hg' as (g & <- & Hg).
      destruct (pending_group _ c (resize c (g_name g0) 0 (g_max g0) 0 g))
        eqn:Hp; [| reflexivity].
      apply pending_group_resize_all in Hp as (Hp & _).
      rewrite (Hdone j Hj g Hg) in Hp. discriminate.
    + intros g' Hg' Hp'. rewrite page_groups_resize_all in Hg'.
      apply in_map_iff in Hg' as (g & <- & Hg).
      destruct (pending_group_resize_all _ _ _ _ _ _ Hp') as (Hp & Hown).
      unfold resize. rewrite Hown.
      destruct (Hpage g Hg Hp) as [<- | Hin]; [congruence | exact Hin].
    + intros g Hg. apply Hreg. right; exact Hg.
  - intros k st (Hlen & Hdone & Hpage & _). split; [exact Hlen |].
    intros j Hj g Hg.
    assert (Hcase : j < k \/ j = k) by lia.
    destruct Hcase as [Hlt | ->]; [apply (Hdone j Hlt g Hg) |].
    destruct (pending_group (service (fst st)) c g) eqn:Hp; [| reflexivity].
    destruct (Hpage g Hg Hp).
  - rewrite Hrun in Hrun'. injection Hrun' as <- <-.
    destruct Hend as [(Hlen & Hdone) | (k & [W1 acc] & Hk & (_ & Hdone)
                                        & Hf & E)];
      cbn [fst snd] in *; intros k' Hreach g Hg.
    + destruct (Nat.lt_ge_cases k' (page_count (service W))) as [Hlt | Hge].
      * apply (Hdone k' Hlt g Hg).
      * unfold page_groups in Hg. rewrite nth_overflow in Hg; [destruct Hg |].
        rewrite Hlen. unfold page_count in Hge. lia.
    + injection E as -> _. cbn [after service] in *.
      destruct (Nat.lt_ge_cases k' k) as [Hlt | Hge].
      * apply (Hdone k' Hlt g Hg).
      * exfalso. apply Hf. apply Hreach. exact Hge.
Qed.

(** *** A settled region is left as it is *)

Lemma stop_idle_instances_idle (c : Client) (region : string)
    (W : World Cloud) :
  instances_settled c (service W) ->
  exists W',
    stop_idle_instances provider c region W = (Ok [], W') /\
    service W' = service W.
Proof.
  intros Hs.
  destruct (aws_stop_idle_instances_rule
    (fun rest st =>
       service (fst st) = service W /\ snd st = [] /\
       (forall i, In i (instances_of c (service W)) ->
                  pending_instance (service W) c i = false) /\
       (forall i, In i rest ->
                  In i (instances_of c (service W)) /\ is_running i = true))
    (fun st => service (fst st) = service W /\ snd st = [])
    c region W) as (res & W' & Hrun & Hsvc & Hres).
  - intros _. split; reflexivity.
  - intros Hf. destruct Hs as [Hs | Hs]; [contradiction |].
    split; [reflexivity |]. split; [reflexivity |]. split; [exact Hs |].
    intros i Hi.
    destruct (listed_instances_in c (service W) i Hi) as (Hin & Hreg & Hst).
    split.
    + apply filter_In. split; [exact Hin |]. apply String.eqb_eq; exact Hreg.
    + unfold is_running. rewrite Hst. reflexivity.
  - intros i0 rest [W1 acc] (Hsvc & Hacc & Hnone & Hrest).
    cbn [fst snd] in *.
    destruct (aws_stop_one c region i0 W1 acc) as (probe & _ & ->).
    cbn [snd]. destruct (Hrest i0 (or_introl eq_refl)) as (Hi0 & Hrun0).
    pose proof (Hnone i0 Hi0) as Hnp. unfold pending_instance in Hnp.
    rewrite Hrun0, <- Hsvc in Hnp. cbn [andb] in Hnp.
    assert (Hkeep : forall i, In i rest ->
               In i (instances_of c (service W)) /\ is_running i = true).
    { intros i Hi. apply Hrest. right; exact Hi. }
    destruct (instance_protected (service W1) c (i_id i0)).
    + cbn [fst snd after service]. repeat split; assumption || apply Hkeep;
        assumption.
    + cbv zeta. cbn [negb andb] in Hnp.
      destruct (ec2_stop_cases c [i_id i0] (service W1))
        as [(e & Es) | Es]; rewrite Es in *; cbn [fst snd service] in *;
        [| discriminate Hnp].
      repeat split; assumption || apply Hkeep; assumption.
  - intros st (Hsvc & Hacc & _). split; assumption.
  - cbn [fst snd] in *. subst res. exists W'. split; assumption.
Qed.

Lemma scale_down_asgs_idle (c : Client) (region : string) (W : World Cloud) :
  groups_settled c (service W) ->
  exists W',
    scale_down_asgs provider c region W = (Ok [], W') /\
    service W' = service W.
Proof.
  intros Hs.
  destruct (aws_scale_down_asgs_rule
    (fun k st =>
       service (fst st) = service W /\ snd st = [] /\
       forall j, j < k -> fault (service W) (page_query c j) = None)
    (fun k rest st =>
       service (fst st) = service W /\ snd st = [] /\
       (forall j, j <= k -> fault (service W) (page_query c j) = None) /\
       (forall g, In g rest -> In g (page_groups c k (service W))))
    c region W) as (res & W' & Hrun & Hend).
  - split; [reflexivity |]. split; [reflexivity |]. intros j Hj.
    inversion Hj.
  - intros k [W1 acc] _ (Hsvc & Hacc & Hreach) Hf. cbn [fst snd] in *.
    rewrite Hsvc in *. split; [exact Hsvc |]. split; [exact Hacc |].
    split; [| auto].
    intros j Hj. assert (Hcase : j < k \/ j = k) by lia.
    destruct Hcase as [Hlt | ->]; auto.
  - intros k g0 rest [W1 acc] (Hsvc & Hacc & Hreach & Hrest).
    rewrite aws_scale_one. cbn [fst snd] in *. cbv zeta.
    pose proof (Hs k Hreach g0 (Hrest g0 (or_introl eq_refl))) as Hnp.
    unfold pending_group in Hnp. rewrite <- Hsvc in Hnp.
    assert (Hkeep : forall g, In g rest ->
                              In g (page_groups c k (service W))).
    { intros g Hg. apply Hrest. right; exact Hg. }
    destruct (asg_protected (service W1) c (g_name g0));
      [repeat split; assumption |].
    destruct (0 <? g_desired g0)%Z; [| repeat split; assumption].
    cbn [negb andb] in Hnp.
    destruct (asg_update_cases c (g_name g0) (g_max g0) (service W1))
      as [(e & Eu) | Eu]; rewrite Eu in *; cbn [fst snd service] in *;
      [repeat split; assumption | discriminate Hnp].
  - intros k st (Hsvc & Hacc & Hreach & _).
    split; [exact Hsvc |]. split; [exact Hacc |].
    intros j Hj. apply Hreach. lia.
  - destruct Hend as [(Hsvc & Hres & _)
                     | (k & [W1 acc] & _ & (Hsvc & Hacc & _) & _ & E)];
      cbn [fst snd] in *.
    + subst res. exists W'. split; assumption.
    + injection E as -> ->. subst acc. eexists. split; [exact Hrun |].
      exact Hsvc.
Qed.

(** *** One region, then all of them *)

Lemma process_region_evolves (region : string) (W : World Cloud) :
  evolves (service W) (service (snd (process_region provider region W))).
Proof.
  rewrite aws_process_region.
  destruct (fault (service W) (boto3_client "ec2" region));
    [constructor |].
  destruct (fault (service W) (boto3_client "autoscaling" region));
    [constructor |].
  set (W0 := after W _).
  destruct (region_sweeps_returns provider (ec2_of region) (asg_of region)
              region W0)
    as (stopped & scaled & W1 & W2 & Hstop & Hscale & ->).
  cbn [snd]. change (service W) with (service W0).
  eapply evolves_trans.
  - eapply stop_idle_instances_evolves; exact Hstop.
  - eapply scale_down_asgs_evolves; exact Hscale.
Qed.

Lemma process_region_settles (region : string) (W : World Cloud) :
  region_settled region (service (snd (process_region provider region W))).
Proof.
  rewrite aws_process_region.
  destruct (fault (service W) (boto3_client "ec2" region)) eqn:F1;
    [left; cbn [snd after service]; congruence |].
  destruct (fault (service W) (boto3_client "autoscaling" region)) eqn:F2;
    [right; left; cbn [snd after service]; congruence |].
  set (W0 := after W _).
  destruct (region_sweeps_returns provider (ec2_of region) (asg_of region)
              region W0)
    as (stopped & scaled & W1 & W2 & Hstop & Hscale & ->).
  cbn [snd]. right; right. split.
  - eapply instances_settled_evolves.
    + eapply scale_down_asgs_evolves; exact Hscale.
    + eapply stop_idle_instances_settles; exact Hstop.
  - eapply scale_down_asgs_settles; exact Hscale.
Qed.

Lemma process_region_idle (region : string) (W : World Cloud) :
  region_settled region (service W) ->
  service (snd (process_region provider region W)) = service W /\
  forall res,
    fst (process_region provider region W) = Ok res ->
    stopped_instances res = [] /\ scaled_down_asgs res = [].
Proof.
  intros Hs. rewrite aws_process_region.
  destruct (fault (service W) (boto3_client "ec2" region)) eqn:F1;
    [split; [reflexivity | discriminate] |].
  destruct (fault (service W) (boto3_client "autoscaling" region)) eqn:F2;
    [split; [reflexivity | discriminate] |].
  destruct Hs as [Hs | [Hs | (Hi & Hg)]]; try congruence.
  set (W0 := after W _).
  destruct (region_sweeps_returns provider (ec2_of region) (asg_of region)
              region W0)
    as (stopped & scaled & W1 & W2 & Hstop & Hscale & ->).
  destruct (stop_idle_instances_idle (ec2_of region) region W0 Hi)
    as (W1' & Hstop' & Hsvc1).
  rewrite Hstop in Hstop'. injection Hstop' as -> <-.
  destruct (scale_down_asgs_idle (asg_of region) region W1) as
    (W2' & Hscale' & Hsvc2).
  { rewrite Hsvc1. exact Hg. }
  rewrite Hscale in Hscale'. injection Hscale' as -> <-.
  cbn [fst snd]. split; [rewrite Hsvc2, Hsvc1; reflexivity |].
  intros res E. injection E as <-. split; reflexivity.
Qed.

Lemma handle_region_world (region : string) (W : World Cloud)
    (a : AggregateResult) :
  exists a',
    handle_region provider region (W, a)
    = (Ok tt, (snd (process_region provider region W), a')) /\
    (agg_stopped_instances a'
     = match fst (process_region provider region W) with
       | Ok res => extend (agg_stopped_instances a) (stopped_instances res)
       | Exc _ => agg_stopped_instances a
       end) /\
    (agg_scaled_down_asgs a'
     = match fst (process_region provider region W) with
       | Ok res => extend (agg_scaled_down_asgs a) (scaled_down_asgs res)
       | Exc _ => agg_scaled_down_asgs a
       end).
Proof.
  destruct (process_region provider region W) as [[res | e] W1] eqn:E.
  - rewrite (handle_region_ok _ _ _ _ _ _ E). eexists. repeat split.
  - rewrite (handle_region_exc _ _ _ _ _ _ E). eexists. repeat split.
Qed.

(** After the driver loop every listed region is settled. *)
Lemma driver_settles (regions : list string) (W : World Cloud)
    (a : AggregateResult) :
  let W' := fst (snd (for_each regions (handle_region provider) (W, a))) in
  evolves (service W) (service W') /\
  forall r, In r regions -> region_settled r (service W').
Proof.
  revert W a. induction regions as [| region rest IH]; intros W a.
  - split; [constructor | intros r []].
  - cbn [for_each].
    destruct (handle_region_world region W a) as (a1 & E & _).
    rewrite (bind_ok _ _ _ _ _ E).
    destruct (IH (snd (process_region provider region W)) a1) as (Hev & Hall).
    split.
    + eapply evolves_trans; [apply process_region_evolves | exact Hev].
    + intros r [<- | Hr]; [| apply Hall; exact Hr].
      eapply region_settled_evolves; [exact Hev |].
      apply process_region_settles.
Qed.

(** Over settled regions the driver loop changes nothing and collects
    nothing. *)
Lemma driver_idle (regions : list string) (W : World Cloud)
    (a : AggregateResult) :
  (forall r, In r regions -> region_settled r (service W)) ->
  exists W' a',
    for_each regions (handle_region provider) (W, a) = (Ok tt, (W', a')) /\
    service W' = service W /\
    agg_stopped_instances a' = agg_stopped_instances a /\
    agg_scaled_down_asgs a' = agg_scaled_down_asgs a.
Proof.
  revert W a. induction regions as [| region rest IH]; intros W a Hall.
  - exists W, a. repeat split.
  - cbn [for_each].
    destruct (handle_region_world region W a) as (a1 & E & Hst & Hsc).
    rewrite (bind_ok _ _ _ _ _ E).
    destruct (process_region_idle region W (Hall region (or_introl eq_refl)))
      as (Hsvc & Hres).
    destruct (IH (snd (process_region provider region W)) a1)
      as (W' & a' & Erest & Hsvc' & Hst' & Hsc').
    { intros r Hr. rewrite Hsvc. apply Hall. right; exact Hr. }
    exists W', a'. split; [exact Erest |]. split; [congruence |].
    rewrite Hst', Hsc', Hst, Hsc.
    destruct (fst (process_region provider region W)) as [res | e].
    + destruct (Hres res eq_refl) as (-> & ->). unfold extend.
      rewrite !app_nil_r. split; reflexivity.
    + split; reflexivity.
Qed.

End AwsIdempotence.

(* ================================================================== *)
(** ** The properties of the orchestrator and the driver *)
(* ================================================================== *)

(** C2, as stated, fails: a client constructor that raises (here on a
    malformed region name) makes [process_region] raise. *)
Lemma process_region_propagates_client_failure :
  fst (process_region Aws.provider "us east 1"
         (start (Scenario.fleet Scenario.region_rejected)))
  = Exc "Provided region_name 'us east 1' doesn't match a supported format.".
Proof. vm_compute. reflexivity. Qed.

(** C2, amended: once both clients are constructed, [process_region]
    returns a GovernanceResult and raises nothing, whatever the
    provider answers to the sweepers; an exception raised by either
    client constructor is the one [process_region] raises. *)
Theorem process_region_outcome {S} (P : Provider S) (region : string)
    (w : World S) :
  match on_client P "ec2" region (service w) with
  | (Exc e, _) => exists w', process_region P region w = (Exc e, w')
  | (Ok _, s1) =>
      match on_client P "autoscaling" region s1 with
      | (Exc e, _) => exists w', process_region P region w = (Exc e, w')
      | (Ok _, _) =>
          exists res w', process_region P region w = (Ok res, w')
      end
  end.
Proof.
  destruct (on_client P "ec2" region (service w)) as [[[] | e1] s1] eqn:H1.
  - destruct (on_client P "autoscaling" region s1) as [[[] | e2] s2] eqn:H2.
    + destruct (process_region_ok P region w s1 s2 H1 H2)
        as (stopped & scaled & w' & E).
      rewrite E. eexists _, _. reflexivity.
    + apply process_region_raises. right. eauto.
  - apply process_region_raises. left. eauto.
Qed.

(* ================================================================== *)
(** ** Failures inside a sweep *)
(* ================================================================== *)

(** C1 does not hold of the code: in a region where the stop of [i-1]
    and the update of [asg-a] are both refused, the two requests are
    issued and raise, the sibling [i-2] is still stopped, and the
    response reports no error at all. *)
Lemma sweep_failures_are_not_reported :
  let W := start (Scenario.untagged_fleet Scenario.mutations_refused) in
  let run := lambda_handler Aws.provider
               (Scenario.environ_with "us-east-1") PyNone PyNone W in
  fst (Aws.ec2_stop_instances Scenario.ec2_east ["i-1"] (service W))
  = Exc "UnauthorizedOperation" /\
  fst (Aws.asg_update Scenario.asg_east "asg-a" 0 (PyInt 5) 0 (service W))
  = Exc "AccessDenied" /\
  In (stop_instances Scenario.ec2_east ["i-1"]) (trace (snd run)) /\
  In (update_auto_scaling_group Scenario.asg_east "asg-a" 0 (PyInt 5) 0)
     (trace (snd run)) /\
  fst run
  = Ok {| statusCode := 200;
          body := {| agg_stopped_instances := ["i-2 (us-east-1)"];
                     agg_scaled_down_asgs := [];
                     agg_errors := [];
                     regions_processed := ["us-east-1"] |} |}.
Proof.
  vm_compute. repeat split; auto 20.
Qed.

(* ================================================================== *)
(** ** The fail-safe of the protection oracle *)
(* ================================================================== *)

(** C3: when the check of an instance or of a group raises, for
    whatever reason, the oracle answers true; the iteration of the
    sweeper for that resource then ends in the store the check left,
    with its result list unchanged; the check itself only issues
    describe requests, so no stop or update request is issued for the
    resource; and a returned GovernanceResult has no error entry. *)
Theorem failed_protection_check_means_protected {S} (P : Provider S) :
  (forall c id w e w',
      instance_protection_check P c id w = (Exc e, w') ->
      is_instance_stop_protected P c id w = (Ok true, w') /\
      (forall region itype stopped,
          stop_one P c region
            {| InstanceId := Some id; InstanceType := itype |} (w, stopped)
          = (Ok tt, (w', stopped))) /\
      exists added,
        trace w' = (trace w ++ added)%list /\ forallb is_query added = true)
  /\
  (forall c name w e w',
      asg_protection_check P c name w = (Exc e, w') ->
      is_asg_protected P c name w = (Ok true, w') /\
      (forall region capacity max scaled,
          scale_one P c region
            {| AutoScalingGroupName := Some name;
               DesiredCapacity := Some capacity; MaxSize := max |}
            (w, scaled)
          = (Ok tt, (w', scaled))) /\
      exists added,
        trace w' = (trace w ++ added)%list /\ forallb is_query added = true)
  /\
  (forall region w res w',
      process_region P region w = (Ok res, w') -> errors res = []).
Proof.
  split; [| split].
  - intros c id w e w' H.
    pose proof (instance_check_raises_protected P c id w w' e H) as Hp.
    split; [exact Hp |]. split.
    + intros region itype stopped. apply stop_one_protected; exact Hp.
    + destruct (is_instance_stop_protected_queries P c id w) as (l & E & Q).
      rewrite Hp in E. exists l. split; assumption.
  - intros c name w e w' H.
    pose proof (asg_check_raises_protected P c name w w' e H) as Hp.
    split; [exact Hp |]. split.
    + intros region capacity max scaled. apply scale_one_protected; exact Hp.
    + destruct (is_asg_protected_queries P c name w) as (l & E & Q).
      rewrite Hp in E. exists l. split; assumption.
  - intros region w res w'. apply process_region_errors_empty.
Qed.

(** C3 at work: tag queries are throttled, so the checks of the
    untagged [i-1] and [asg-a] raise; both are left alone and nothing
    is reported. *)
Lemma failed_protection_check_means_protected_witness :
  let w := start (Scenario.fleet Scenario.tags_throttled) in
  fst (is_instance_stop_protected Aws.provider Scenario.ec2_east "i-1" w)
  = Ok true /\
  fst (is_asg_protected Aws.provider Scenario.asg_east "asg-a" w)
  = Ok true /\
  fst (process_region Aws.provider Scenario.us_east w)
  = Ok {| stopped_instances := []; scaled_down_asgs := []; errors := [] |}.
Proof.
  intros w.
  destruct (failed_protection_check_means_protected Aws.provider)
    as (Hi & Hg & He).
  split; [| split].
  - edestruct (Hi Scenario.ec2_east "i-1" w) as (Hp & _);
      [vm_compute; reflexivity |].
    rewrite Hp. reflexivity.
  - edestruct (Hg Scenario.asg_east "asg-a" w) as (Hp & _);
      [vm_compute; reflexivity |].
    rewrite Hp. reflexivity.
  - vm_compute. reflexivity.
Defined.

(* ================================================================== *)
(** ** The protection policy *)
(* ================================================================== *)

(** C5, as stated, fails: with tag queries throttled, the untagged
    instance [i-1], whose [disableApiStop] is false, is judged
    protected. *)
Lemma protected_without_attribute_or_tag :
  let w := Scenario.fleet Scenario.tags_throttled in
  fst (is_instance_stop_protected Aws.provider Scenario.ec2_east "i-1"
         (start w)) = Ok true /\
  Facts.api_stop_disabled w Scenario.ec2_east "i-1" = false /\
  Facts.keep_tagged w Scenario.ec2_east "i-1" = false.
Proof. vm_compute. repeat split. Qed.

(** C5, amended: an instance is judged protected exactly when its
    [disableApiStop] attribute is true, or a ResourceGovernance tag
    reading keep (in any letter case) is attached, or the check itself
    raises; a group exactly when such a tag is attached or its check
    raises, and the check of a group issues one tag query and nothing
    else. *)
Theorem protection_policy (c : Client) (id name : string)
    (W : World Aws.Cloud) :
  (fst (is_instance_stop_protected Aws.provider c id W) = Ok true <->
   Facts.api_stop_disabled (service W) c id = true \/
   Facts.keep_tagged (service W) c id = true \/
   exists e, fst (instance_protection_check Aws.provider c id W) = Exc e) /\
  (fst (is_asg_protected Aws.provider c name W) = Ok true <->
   Facts.keep_tagged (service W) c name = true \/
   exists e, fst (asg_protection_check Aws.provider c name W) = Exc e) /\
  trace (snd (is_asg_protected Aws.provider c name W))
  = (trace W ++ [Facts.tag_query c "auto-scaling-group" name])%list.
Proof.
  split; [| split].
  - unfold is_instance_stop_protected, try_except, Facts.api_stop_disabled.
    rewrite aws_instance_check. cbv zeta.
    destruct (Aws.fault (service W) _) as [e1 |];
      [split; [intros _; right; right; eexists; reflexivity | intros _; reflexivity] |].
    destruct (Aws.find_instance c id (service W)) as [i |];
      [| split; [intros _; right; right; eexists; reflexivity | intros _; reflexivity]].
    destruct (Aws.i_disable_api_stop i);
      [split; [intros _; left; reflexivity | intros _; reflexivity] |].
    destruct (Aws.fault (service W) _) as [e2 |];
      [split; [intros _; right; right; eexists; reflexivity | intros _; reflexivity] |].
    destruct (service_name c =? "ec2")%string;
      [| split; [intros _; right; right; eexists; reflexivity | intros _; reflexivity]].
    cbn [fst]. split.
    + intros H. right; left. congruence.
    + intros [H | [H | [e H]]]; try discriminate. congruence.
  - unfold is_asg_protected, try_except.
    rewrite aws_asg_check. cbv zeta.
    destruct (Aws.fault (service W) _) as [e1 |];
      [split; [intros _; right; eexists; reflexivity | intros _; reflexivity] |].
    destruct (service_name c =? "ec2")%string;
      [split; [intros _; right; eexists; reflexivity | intros _; reflexivity] |].
    cbn [fst]. split.
    + intros H. left. congruence.
    + intros [H | [e H]]; try discriminate. congruence.
  - rewrite aws_is_asg_protected. reflexivity.
Qed.

(* ================================================================== *)
(** ** The instance sweeper *)
(* ================================================================== *)

(** C8: every stop request of the instance sweeper names exactly one
    instance, which is running in the region and which the oracle does
    not protect.  Hence an id that no running instance of the region
    carries is never in a stop request nor in the result, and an id for
    which the oracle answers true is never in a stop request nor in
    the result. *)
Theorem stop_only_running_unprotected (c : Client) (region : string)
    (W : World Aws.Cloud) :
  exists res W' added,
    stop_idle_instances Aws.provider c region W = (Ok res, W') /\
    trace W' = (trace W ++ added)%list /\
    (forall c' ids, In (stop_instances c' ids) added ->
       c' = c /\
       exists id, ids = [id] /\ Facts.stop_target (service W) c id) /\
    (forall id,
       (forall i, In i (Facts.instances_of c (service W)) ->
                  Aws.i_id i = id -> Aws.i_state i <> Aws.running) ->
       (forall c' ids, In (stop_instances c' ids) added -> ~ In id ids) /\
       ~ In (Facts.entry id region) res) /\
    (forall id,
       fst (is_instance_stop_protected Aws.provider c id W) = Ok true ->
       (forall c' ids, In (stop_instances c' ids) added -> ~ In id ids) /\
       ~ In (Facts.entry id region) res).
Proof.
  destruct (aws_stop_idle_instances_targets c region W)
    as (res & W' & added & Hrun & Htr & _ & Hcalls & Hres).
  exists res, W', added.
  split; [exact Hrun |]. split; [exact Htr |]. split; [exact Hcalls |].
  assert (Hno : forall id,
             ~ Facts.stop_target (service W) c id ->
             (forall c' ids, In (stop_instances c' ids) added -> ~ In id ids)
             /\ ~ In (Facts.entry id region) res).
  { intros id Hnot. split.
    - intros c' ids Hc Hid.
      destruct (Hcalls c' ids Hc) as (_ & id' & -> & Ht).
      destruct Hid as [<- | []]. exact (Hnot Ht).
    - intros Hin. destruct (Hres _ Hin) as (id' & E & Ht & _).
      apply entry_inj in E. subst id'. exact (Hnot Ht). }
  split.
  - intros id Hstate. apply Hno. intros ((i & Hin & Hreg & Hst & Hid) & _).
    apply (Hstate i); try assumption.
    apply filter_In. split; [exact Hin |]. apply String.eqb_eq; exact Hreg.
  - intros id Hprot. apply Hno. intros (_ & Hfalse).
    destruct (aws_is_instance_stop_protected c id W) as (probe & E & _).
    rewrite E in Hprot. cbn [fst] in Hprot. congruence.
Qed.

(** C8 at work: [i-3] is stopped and [i-2] is tagged. *)
Lemma stop_only_running_unprotected_witness :
  exists res W' added,
    stop_idle_instances Aws.provider Scenario.ec2_east Scenario.us_east
      (start (Scenario.fleet Scenario.no_fault)) = (Ok res, W') /\
    trace W' = added /\
    ((forall c' ids, In (stop_instances c' ids) added -> ~ In "i-3" ids) /\
     ~ In (Facts.entry "i-3" Scenario.us_east) res) /\
    ((forall c' ids, In (stop_instances c' ids) added -> ~ In "i-2" ids) /\
     ~ In (Facts.entry "i-2" Scenario.us_east) res).
Proof.
  destruct (stop_only_running_unprotected Scenario.ec2_east Scenario.us_east
              (start (Scenario.fleet Scenario.no_fault)))
    as (res & W' & added & Hrun & Htr & _ & Hstate & Hprot).
  exists res, W', added. split; [exact Hrun |]. split; [exact Htr |]. split.
  - apply Hstate. intros i Hin Hid.
    vm_compute in Hin. destruct Hin as [<- | [<- | [<- | []]]];
      vm_compute in Hid; try discriminate Hid. discriminate.
  - apply Hprot. vm_compute. reflexivity.
Defined.

(* ================================================================== *)
(** ** The group sweeper *)
(* ================================================================== *)

(** C7: when every group of the region called [name] has
    DesiredCapacity 0, tagged or not, a pass over the region issues no
    update request for [name]; and if the pass returns, [name] has no
    entry in [scaled_down_asgs] and the error list is empty. *)
Theorem zero_capacity_group_is_skipped (region name : string)
    (W : World Aws.Cloud) :
  (forall g, In g (Facts.groups_of (Facts.asg_of region) (service W)) ->
             Aws.g_name g = name -> Aws.g_desired g = 0%Z) ->
  exists added,
    trace (snd (process_region Aws.provider region W))
    = (trace W ++ added)%list /\
    (forall c n mn mx ds,
        In (update_auto_scaling_group c n mn mx ds) added -> n <> name) /\
    (forall res,
        fst (process_region Aws.provider region W) = Ok res ->
        ~ In (Facts.entry name region) (scaled_down_asgs res) /\
        errors res = []).
Proof.
  intros Hzero. rewrite aws_process_region.
  destruct (Aws.fault (service W) (boto3_client "ec2" region)) as [e1 |].
  { eexists. split; [reflexivity |]. split; [| discriminate].
    intros c n mn mx ds [H | []]. discriminate. }
  destruct (Aws.fault (service W) (boto3_client "autoscaling" region))
    as [e2 |].
  { eexists. split; [reflexivity |]. split; [| discriminate].
    intros c n mn mx ds [H | [H | []]]; discriminate. }
  set (W0 := Facts.after W _).
  destruct (region_sweeps_returns Aws.provider (Facts.ec2_of region)
              (Facts.asg_of region) region W0)
    as (stopped & scaled & W1 & W2 & Hstop & Hscale & ->).
  destruct (stop_idle_instances_never_updates (Facts.ec2_of region) region W0)
    as (res1 & W1' & added1 & Hstop' & Htr1 & Hq1).
  rewrite Hstop in Hstop'. injection Hstop' as <- <-.
  pose proof (aws_stop_idle_instances_groups _ _ _ _ _ Hstop) as Hpages.
  destruct (aws_zero_capacity_untouched (Facts.asg_of region) region W1 name)
    as (res2 & W2' & added2 & Hscale' & Htr2 & Hcalls & Hres).
  { unfold Facts.groups_of in *. rewrite Hpages. exact Hzero. }
  rewrite Hscale in Hscale'. injection Hscale' as <- <-.
  cbn [fst snd].
  exists ([boto3_client "ec2" region; boto3_client "autoscaling" region]
            ++ added1 ++ added2)%list.
  split.
  - rewrite Htr2, Htr1. unfold W0, Facts.after. cbn [trace].
    rewrite <- !app_assoc. reflexivity.
  - split.
    + intros c n mn mx ds Hin.
      apply in_app_or in Hin as [[H | [H | []]] | Hin]; try discriminate.
      apply in_app_or in Hin as [Hin | Hin]; [| eauto].
      apply Hq1 in Hin. discriminate.
    + intros res E. injection E as <-. split; [exact Hres | reflexivity].
Qed.

(** C7 at work: [asg-z] is at zero on the second page. *)
Lemma zero_capacity_group_is_skipped_witness :
  exists added res,
    trace (snd (process_region Aws.provider Scenario.us_east
                  (start (Scenario.fleet Scenario.no_fault)))) = added /\
    (forall c n mn mx ds,
        In (update_auto_scaling_group c n mn mx ds) added -> n <> "asg-z") /\
    fst (process_region Aws.provider Scenario.us_east
           (start (Scenario.fleet Scenario.no_fault))) = Ok res /\
    ~ In (Facts.entry "asg-z" Scenario.us_east) (scaled_down_asgs res) /\
    errors res = [].
Proof.
  destruct (zero_capacity_group_is_skipped Scenario.us_east "asg-z"
              (start (Scenario.fleet Scenario.no_fault)))
    as (added & Htr & Hcalls & Hres).
  - intros g Hin Hname. vm_compute in Hin.
    destruct Hin as [<- | [<- | []]]; [discriminate Hname | reflexivity].
  - exists added. eexists. split; [exact Htr |]. split; [exact Hcalls |].
    split; [vm_compute; reflexivity |]. apply Hres. vm_compute. reflexivity.
Defined.

(** C4: with group names unique per region, every update request of
    the group sweeper sets MinSize 0 and DesiredCapacity 0 and passes
    the MaxSize the named group had before the sweep; the region, name
    and MaxSize of every group are after the sweep what they were
    before it; and every group entered in the result was sent such a
    request and ends with MinSize 0, DesiredCapacity 0 and its MaxSize
    from before the sweep. *)
Theorem scale_down_keeps_max_size (c : Client) (region : string)
    (W : World Aws.Cloud) :
  Facts.unique_groups (service W) ->
  exists res W' added,
    scale_down_asgs Aws.provider c region W = (Ok res, W') /\
    trace W' = (trace W ++ added)%list /\
    (forall c' n mn mx ds,
        In (update_auto_scaling_group c' n mn mx ds) added ->
        c' = c /\ mn = 0%Z /\ ds = 0%Z /\
        exists g, In g (Facts.groups_of c (service W)) /\
                  Aws.g_name g = n /\ mx = PyInt (Aws.g_max g)) /\
    Facts.static (service W') = Facts.static (service W) /\
    (forall s, In s res ->
       exists g, In g (Facts.groups_of c (service W)) /\
                 s = Facts.entry (Aws.g_name g) region /\
                 In (Facts.zero_query c g) added /\
                 forall g', In g' (Facts.groups_of c (service W')) ->
                            Aws.g_name g' = Aws.g_name g ->
                            Aws.g_min g' = 0%Z /\ Aws.g_desired g' = 0%Z /\
                            Aws.g_max g' = Aws.g_max g).
Proof. apply aws_scale_down_keeps_max. Qed.

(** C4 at work: [asg-a] goes from (1, 5, 3) to (0, 5, 0). *)
Lemma scale_down_keeps_max_size_witness :
  exists res W' added,
    scale_down_asgs Aws.provider Scenario.asg_east Scenario.us_east
      (start (Scenario.fleet Scenario.no_fault)) = (Ok res, W') /\
    trace W' = added /\
    res = ["asg-a (us-east-1)"] /\
    Aws.asg_pages (service W')
    = [ [Scenario.group "asg-a" 0 5 0]; [Scenario.group "asg-z" 0 4 0] ] /\
    Facts.static (service W')
    = [ [("us-east-1", "asg-a", 5%Z)]; [("us-east-1", "asg-z", 4%Z)] ].
Proof.
  destruct (scale_down_keeps_max_size Scenario.asg_east Scenario.us_east
              (start (Scenario.fleet Scenario.no_fault)))
    as (res & W' & added & Hrun & Htr & _ & Hstatic & _).
  - unfold Facts.unique_groups. cbn.
    repeat constructor; cbn; intuition discriminate.
  - exists res, W', added. split; [exact Hrun |]. split; [exact Htr |].
    split; [| split; [| rewrite Hstatic; reflexivity]];
      vm_compute in Hrun; inversion Hrun; reflexivity.
Defined.

(* ================================================================== *)
(** ** Running the sweep again *)
(* ================================================================== *)

(** C9: on a provider whose answers depend on its state only, a second
    invocation that starts from the store the first one left returns
    with empty [stopped_instances] and [scaled_down_asgs], and leaves
    the service as it found it. *)
Theorem second_sweep_finds_nothing (environ : string -> option string)
    (event1 context1 event2 context2 : pyval) (W : World Aws.Cloud) :
  let first := lambda_handler Aws.provider environ event1 context1 W in
  let second :=
    lambda_handler Aws.provider environ event2 context2 (snd first) in
  exists a,
    fst second = Ok {| statusCode := 200; body := a |} /\
    agg_stopped_instances a = [] /\
    agg_scaled_down_asgs a = [] /\
    service (snd second) = service (snd first).
Proof.
  intros first second. subst first second.
  set (regions := get_allowed_regions environ).
  destruct (driver_loop_returns Aws.provider regions W no_aggregate)
    as (W1 & a1 & Hloop1).
  rewrite (lambda_handler_unfold _ _ event1 context1 _ _ _ Hloop1).
  cbn [snd].
  pose proof (driver_settles regions W no_aggregate) as (_ & Hsettled).
  fold regions in Hloop1. rewrite Hloop1 in Hsettled. cbn [fst snd] in Hsettled.
  destruct (driver_idle regions W1 no_aggregate Hsettled)
    as (W2 & a2 & Hloop2 & Hsvc & Hst & Hsc).
  rewrite (lambda_handler_unfold _ _ event2 context2 _ _ _ Hloop2).
  exists a2. repeat split; assumption.
Qed.

(** C9 at work: the first invocation stops [i-1] and zeroes [asg-a];
    the second one, started from the store it left, reports nothing. *)
Lemma second_sweep_finds_nothing_witness :
  let environ := Scenario.environ_with "us-east-1" in
  let first :=
    lambda_handler Aws.provider environ PyNone PyNone
      (start (Scenario.fleet Scenario.no_fault)) in
  let second :=
    lambda_handler Aws.provider environ PyNone PyNone (snd first) in
  (exists a1,
      fst first = Ok {| statusCode := 200; body := a1 |} /\
      agg_stopped_instances a1 = ["i-1 (us-east-1)"] /\
      agg_scaled_down_asgs a1 = ["asg-a (us-east-1)"]) /\
  (exists a2,
      fst second = Ok {| statusCode := 200; body := a2 |} /\
      agg_stopped_instances a2 = [] /\
      agg_scaled_down_asgs a2 = []).
Proof.
  intros environ first second. split.
  - eexists. vm_compute. repeat split.
  - destruct (second_sweep_finds_nothing environ PyNone PyNone PyNone PyNone
                (start (Scenario.fleet Scenario.no_fault)))
      as (a2 & Hret & Hst & Hsc & _).
    exists a2. repeat split; assumption.
Defined.

(* ================================================================== *)
(** ** The region list *)
(* ================================================================== *)

Lemma rstrip_idempotent (s : string) :
  PyStr.rstrip (PyStr.rstrip s) = PyStr.rstrip s.
Proof.
  induction s as [| c s IH]; [reflexivity |].
  cbn [PyStr.rstrip]. destruct (PyStr.rstrip s) as [| d r] eqn:E.
  - destruct (PyStr.isspace c) eqn:Hc; [reflexivity |].
    cbn [PyStr.rstrip]. rewrite Hc. reflexivity.
  - change (PyStr.rstrip (String c (String d r)))
      with (match PyStr.rstrip (String d r) with
            | EmptyString =>
                if PyStr.isspace c then EmptyString else String c EmptyString
            | r' => String c r'
            end).
    rewrite IH. reflexivity.
Qed.

Lemma rstrip_keeps_head (c : ascii) (s : string) :
  PyStr.isspace c = false ->
  exists r, PyStr.rstrip (String c s) = String c r.
Proof.
  intros Hc. cbn [PyStr.rstrip]. rewrite Hc.
  destruct (PyStr.rstrip s); eauto.
Qed.

Lemma lstrip_head (s : string) :
  PyStr.lstrip s = EmptyString \/
  exists c t, PyStr.lstrip s = String c t /\ PyStr.isspace c = false.
Proof.
  induction s as [| c s IH]; [left; reflexivity |].
  cbn [PyStr.lstrip]. destruct (PyStr.isspace c) eqn:Hc; [exact IH |].
  right. eauto.
Qed.

Lemma strip_idempotent (s : string) :
  PyStr.strip (PyStr.strip s) = PyStr.strip s.
Proof.
  unfold PyStr.strip.
  destruct (lstrip_head s) as [-> | (c & t & -> & Hc)]; [reflexivity |].
  destruct (rstrip_keeps_head c t Hc) as (r & E).
  rewrite E at 1. cbn [PyStr.lstrip]. rewrite Hc, <- E.
  apply rstrip_idempotent.
Qed.

Lemma mem_lstrip (sep : ascii) (s : string) :
  PyStr.mem sep s = false -> PyStr.mem sep (PyStr.lstrip s) = false.
Proof.
  induction s as [| c s IH]; [auto |]. cbn [PyStr.lstrip].
  destruct (PyStr.isspace c); [| auto].
  cbn [PyStr.mem]. intros H. apply orb_false_iff in H as [_ H]. auto.
Qed.

Lemma mem_rstrip (sep : ascii) (s : string) :
  PyStr.mem sep s = false -> PyStr.mem sep (PyStr.rstrip s) = false.
Proof.
  induction s as [| c s IH]; [auto |]. cbn [PyStr.mem PyStr.rstrip].
  intros H. apply orb_false_iff in H as [Hc Hs]. specialize (IH Hs).
  destruct (PyStr.rstrip s) as [| d r].
  - destruct (PyStr.isspace c); [reflexivity |].
    cbn [PyStr.mem]. rewrite Hc. reflexivity.
  - cbn [PyStr.mem] in *. rewrite Hc. exact IH.
Qed.

Lemma split_pieces_no_sep (sep : ascii) (s p : string) :
  In p (PyStr.split sep s) -> PyStr.mem sep p = false.
Proof.
  revert p. induction s as [| c s IH]; intros p.
  - intros [<- | []]. reflexivity.
  - cbn [PyStr.split]. destruct (Ascii.eqb c sep) eqn:Hc.
    + intros [<- | H]; [reflexivity | auto].
    + destruct (PyStr.split sep s) as [| piece rest].
      * intros [<- | []]. cbn [PyStr.mem]. rewrite Hc. reflexivity.
      * intros [<- | H].
        -- cbn [PyStr.mem]. rewrite Hc. apply IH. left; reflexivity.
        -- apply IH. right; exact H.
Qed.

(** X1: every region name [get_allowed_regions] returns is non-empty,
    carries no blank at either end (stripping it again changes
    nothing) and holds no comma. *)
Theorem allowed_regions_are_clean (environ : string -> option string)
    (region : string) :
  In region (get_allowed_regions environ) ->
  region <> EmptyString /\
  PyStr.strip region = region /\
  PyStr.mem "," region = false.
Proof.
  unfold get_allowed_regions. intros H.
  apply in_map_iff in H as (piece & <- & H).
  apply filter_In in H as (Hin & Hne).
  split; [| split].
  - intros E. rewrite E in Hne. discriminate.
  - apply strip_idempotent.
  - unfold PyStr.strip. apply mem_rstrip, mem_lstrip.
    eapply split_pieces_no_sep; exact Hin.
Qed.

(** X1 at work: blanks around the names, an empty piece between them. *)
Lemma allowed_regions_are_clean_witness :
  In "eu-west-1"
     (get_allowed_regions (Scenario.environ_with " us-east-1 ,, eu-west-1 ")) /\
  "eu-west-1" <> EmptyString /\
  PyStr.strip "eu-west-1" = "eu-west-1" /\
  PyStr.mem "," "eu-west-1" = false.
Proof.
  assert (H : In "eu-west-1"
                (get_allowed_regions
                   (Scenario.environ_with " us-east-1 ,, eu-west-1 "))).
  { right; left; reflexivity. }
  split; [exact H |].
  exact (allowed_regions_are_clean _ _ H).
Defined.

(* ================================================================== *)
(** ** The driver loop, pass by pass *)
(* ================================================================== *)

Section Passes.

Context {S : Type}.
Variable P : Provider S.

Lemma driver_loop_passes (regions : list string) (w : World S)
    (a : AggregateResult) :
  exists w' a',
    for_each regions (handle_region P) (w, a) = (Ok tt, (w', a')) /\
    agg_stopped_instances a'
    = (agg_stopped_instances a
       ++ concat (map pass_stopped (passes P regions w)))%list /\
    agg_scaled_down_asgs a'
    = (agg_scaled_down_asgs a
       ++ concat (map pass_scaled (passes P regions w)))%list /\
    agg_errors a'
    = (agg_errors a ++ concat (map pass_errors (passes P regions w)))%list /\
    regions_processed a'
    = (regions_processed a
       ++ map fst (filter pass_returned (passes P regions w)))%list.
Proof.
  revert w a. induction regions as [| r rest IH]; intros w a.
  - exists w, a. cbn. rewrite !app_nil_r. repeat split.
  - cbn [for_each passes].
    destruct (process_region P r w) as [[res | e] w1] eqn:E; cbn [fst snd].
    + rewrite (bind_ok _ _ _ _ _ (handle_region_ok P _ _ _ _ a E)).
      destruct (IH w1 (merge_region r res a))
        as (w' & a' & Erun & H1 & H2 & H3 & H4).
      exists w', a'. split; [exact Erun |].
      rewrite H1, H2, H3, H4.
      cbn [map concat filter pass_returned pass_stopped pass_scaled
           pass_errors is_ok fst snd merge_region agg_stopped_instances
           agg_scaled_down_asgs agg_errors regions_processed].
      unfold extend, append. rewrite <- !app_assoc. repeat split.
    + rewrite (bind_ok _ _ _ _ _ (handle_region_exc P _ _ _ _ a E)).
      destruct (IH w1 (record_region_error r e a))
        as (w' & a' & Erun & H1 & H2 & H3 & H4).
      exists w', a'. split; [exact Erun |].
      rewrite H1, H2, H3, H4.
      cbn [map concat filter pass_returned pass_stopped pass_scaled
           pass_errors is_ok fst snd record_region_error
           agg_stopped_instances agg_scaled_down_asgs agg_errors
           regions_processed].
      unfold append. rewrite <- !app_assoc. repeat split.
Qed.

Lemma passes_regions (regions : list string) (w : World S) :
  map fst (passes P regions w) = regions.
Proof.
  revert w. induction regions as [| r rest IH]; intros w; [reflexivity |].
  cbn [passes map fst]. rewrite IH. reflexivity.
Qed.

Lemma passes_no_sweep_error (regions : list string) (w : World S)
    (region : string) (res : GovernanceResult) :
  In (region, Ok res) (passes P regions w) -> errors res = [].
Proof.
  revert w. induction regions as [| r rest IH]; intros w; [intros [] |].
  cbn [passes]. intros [E | H]; [| eapply IH; exact H].
  injection E as _ E.
  destruct (process_region P r w) as [r0 w1] eqn:Erun. cbn [fst] in E.
  subst r0. eapply process_region_errors_empty; exact Erun.
Qed.

Lemma passes_accounting (regions : list string) (w : World S) :
  length (filter pass_returned (passes P regions w))
  + length (concat (map pass_errors (passes P regions w)))
  = length regions.
Proof.
  revert w. induction regions as [| r rest IH]; intros w; [reflexivity |].
  cbn [passes map concat filter]. unfold pass_returned at 1, pass_errors at 1.
  cbn [fst snd]. rewrite length_app.
  destruct (process_region P r w) as [[res | e] w1] eqn:E; cbn [fst snd is_ok].
  - rewrite (process_region_errors_empty P _ _ _ _ E). cbn [length].
    specialize (IH w1). lia.
  - cbn [length]. specialize (IH w1). lia.
Qed.

Lemma driver_loop_store (regions : list string) (w : World S)
    (a : AggregateResult) :
  fst (snd (for_each regions (handle_region P) (w, a)))
  = after_passes P regions w.
Proof.
  revert w a. induction regions as [| r rest IH]; intros w a; [reflexivity |].
  cbn [for_each after_passes].
  destruct (process_region P r w) as [[res | e] w1] eqn:E; cbn [snd].
  - rewrite (bind_ok _ _ _ _ _ (handle_region_ok P _ _ _ _ a E)). apply IH.
  - rewrite (bind_ok _ _ _ _ _ (handle_region_exc P _ _ _ _ a E)). apply IH.
Qed.

Lemma passes_app (pre post : list string) (w : World S) :
  passes P (pre ++ post) w
  = (passes P pre w ++ passes P post (after_passes P pre w))%list.
Proof.
  revert w. induction pre as [| r pre IH]; intros w; [reflexivity |].
  cbn [app passes after_passes]. rewrite IH. reflexivity.
Qed.

Lemma count_occ_returned (ps : list (string * Res GovernanceResult))
    (r : string) :
  (forall res, In (r, res) ps -> is_ok res = true) ->
  count_occ string_dec (map fst (filter pass_returned ps)) r
  = count_occ string_dec (map fst ps) r.
Proof.
  induction ps as [| [r0 res0] ps IH]; intros H; [reflexivity |].
  assert (IH' := IH (fun res Hin => H res (or_intror Hin))).
  cbn [filter map fst]. unfold pass_returned at 1. cbn [snd].
  destruct (is_ok res0) eqn:Hok.
  - cbn [map fst count_occ]. rewrite IH'. reflexivity.
  - cbn [count_occ]. destruct (string_dec r0 r) as [-> | Hne]; [| exact IH'].
    rewrite (H res0 (or_introl eq_refl)) in Hok. discriminate Hok.
Qed.

End Passes.

(** X2: the four lists of the response body are built pass by pass, in
    the order of the region list: [stopped_instances] and
    [scaled_down_asgs] are the concatenation of what the returning
    passes reported, [regions_processed] lists the regions whose pass
    returned, and [errors] holds one message for each pass that raised
    and nothing else, so that every region is counted exactly once. *)
Theorem aggregate_is_built_pass_by_pass {S} (P : Provider S)
    (environ : string -> option string) (event context : pyval)
    (w : World S) :
  let regions := get_allowed_regions environ in
  let ps := passes P regions w in
  exists a w',
    lambda_handler P environ event context w
    = (Ok {| statusCode := 200; body := a |}, w') /\
    map fst ps = regions /\
    agg_stopped_instances a = concat (map pass_stopped ps) /\
    agg_scaled_down_asgs a = concat (map pass_scaled ps) /\
    agg_errors a = concat (map pass_errors ps) /\
    regions_processed a = map fst (filter pass_returned ps) /\
    (forall region res, In (region, Ok res) ps -> errors res = []) /\
    length (regions_processed a) + length (agg_errors a) = length regions.
Proof.
  intros regions ps.
  destruct (driver_loop_passes P regions w no_aggregate)
    as (w' & a & Erun & H1 & H2 & H3 & H4).
  cbn [no_aggregate agg_stopped_instances agg_scaled_down_asgs agg_errors
       regions_processed app] in *.
  exists a, w'. split; [apply lambda_handler_unfold; exact Erun |].
  split; [apply passes_regions |].
  split; [exact H1 |]. split; [exact H2 |]. split; [exact H3 |].
  split; [exact H4 |]. split; [apply passes_no_sweep_error |].
  rewrite H3, H4, length_map. apply passes_accounting.
Qed.

(** C6: the driver always returns status 200, in the store the passes
    over the region list leave.  A region whose [process_region]
    raises adds exactly one error string and nothing else: it is left
    out of [regions_processed] and of the two result lists.  Every
    region after it still gets its pass of [process_region], started
    from the store the failure left, and what those passes report is
    in the response. *)
Theorem lambda_handler_isolates_region_failure {S} (P : Provider S)
    (environ : string -> option string) (event context : pyval)
    (w : World S) :
  exists a,
    lambda_handler P environ event context w
    = (Ok {| statusCode := 200; body := a |},
       after_passes P (get_allowed_regions environ) w) /\
    forall pre region post e,
      get_allowed_regions environ = (pre ++ region :: post)%list ->
      fst (process_region P region (after_passes P pre w)) = Exc e ->
      let before := passes P pre w in
      let remaining :=
        passes P post
          (snd (process_region P region (after_passes P pre w))) in
      map fst remaining = post /\
      agg_errors a
      = (concat (map pass_errors before)
         ++ [("Error processing region " ++ region ++ ": " ++ e)%string]
         ++ concat (map pass_errors remaining))%list /\
      regions_processed a
      = (map fst (filter pass_returned before)
         ++ map fst (filter pass_returned remaining))%list /\
      agg_stopped_instances a
      = (concat (map pass_stopped before)
         ++ concat (map pass_stopped remaining))%list /\
      agg_scaled_down_asgs a
      = (concat (map pass_scaled before)
         ++ concat (map pass_scaled remaining))%list.
Proof.
  destruct (driver_loop_passes P (get_allowed_regions environ) w no_aggregate)
    as (w' & a & Erun & H1 & H2 & H3 & H4).
  pose proof (driver_loop_store P (get_allowed_regions environ) w
                no_aggregate) as Hstore.
  rewrite Erun in Hstore. cbn [fst snd] in Hstore. subst w'.
  cbn [no_aggregate agg_stopped_instances agg_scaled_down_asgs agg_errors
       regions_processed app] in *.
  exists a. split; [apply lambda_handler_unfold; exact Erun |].
  intros pre region post e Hsplit Hexc. cbv zeta.
  split; [apply passes_regions |].
  rewrite H1, H2, H3, H4, Hsplit, passes_app.
  cbn [passes]. rewrite Hexc.
  rewrite !map_app, !filter_app, !concat_app, !map_app.
  cbn [map filter concat pass_returned pass_errors pass_stopped pass_scaled
       is_ok fst snd app].
  repeat split.
Qed.

(** C6 at work: the second of three regions is rejected at client
    construction; the third one is swept all the same. *)
Lemma lambda_handler_isolates_region_failure_witness :
  exists a w',
    lambda_handler Aws.provider
      (Scenario.environ_with "eu-west-1,us east 1,us-east-1") PyNone PyNone
      (start (Scenario.fleet Scenario.region_rejected))
    = (Ok {| statusCode := 200; body := a |}, w') /\
    regions_processed a = ["eu-west-1"; "us-east-1"] /\
    agg_errors a
    = ["Error processing region us east 1: Provided region_name 'us east 1' doesn't match a supported format."] /\
    agg_stopped_instances a = ["i-1 (us-east-1)"] /\
    agg_scaled_down_asgs a = ["asg-a (us-east-1)"].
Proof.
  destruct (lambda_handler_isolates_region_failure Aws.provider
              (Scenario.environ_with "eu-west-1,us east 1,us-east-1")
              PyNone PyNone
              (start (Scenario.fleet Scenario.region_rejected)))
    as (a & Hret & Hiso).
  eexists a, _. split; [exact Hret |].
  destruct (Hiso ["eu-west-1"] "us east 1" ["us-east-1"]
              "Provided region_name 'us east 1' doesn't match a supported format.")
    as (_ & He & Hrp & Hst & Hsc);
    [ vm_compute; reflexivity | vm_compute; reflexivity | ].
  rewrite He, Hrp, Hst, Hsc. vm_compute. repeat split.
Defined.

(** C10: the parsed region list keeps every non-blank piece of
    ALLOWED_REGIONS, stripped, in order and with repetitions; the
    driver runs one pass of [process_region] per entry, in list order,
    each starting with the construction of an EC2 client; and
    [regions_processed] lists, in order, the entries whose pass
    returned.  So a region listed N times is passed to
    [process_region] N times, and when each of its passes returns it
    appears N times in [regions_processed], whatever becomes of the
    passes of the other regions. *)
Theorem repeated_region_is_processed_repeatedly {S} (P : Provider S)
    (environ : string -> option string) (event context : pyval)
    (w : World S) (names : list string) :
  environ "ALLOWED_REGIONS" = Some (PyStr.join "," names) ->
  Forall (fun n => PyStr.mem "," n = false) names ->
  let regions := get_allowed_regions environ in
  let ps := passes P regions w in
  regions = map PyStr.strip
                (filter (fun n => PyStr.nonempty (PyStr.strip n)) names) /\
  (forall r, r <> EmptyString ->
     count_occ string_dec regions r
     = length (filter (fun n => (PyStr.strip n =? r)%string) names)) /\
  map fst ps = regions /\
  exists a w' added,
    lambda_handler P environ event context w
    = (Ok {| statusCode := 200; body := a |}, w') /\
    trace w' = (trace w ++ added)%list /\
    filter is_ec2_client_call added = map (boto3_client "ec2") regions /\
    regions_processed a = map fst (filter pass_returned ps) /\
    (forall r,
        (forall res, In (r, res) ps -> is_ok res = true) ->
        count_occ string_dec (regions_processed a) r
        = count_occ string_dec regions r).
Proof.
  intros Henv Hnames regions ps.
  assert (Hparse := get_allowed_regions_join environ names Henv Hnames).
  fold regions in Hparse. split; [exact Hparse |]. split.
  { intros r Hr. rewrite Hparse. apply count_occ_map_filter_strip; exact Hr. }
  split; [apply passes_regions |].
  destruct (driver_loop_passes P regions w no_aggregate)
    as (w' & a & Hloop & _ & _ & _ & Hrp).
  cbn [no_aggregate regions_processed app] in Hrp. fold ps in Hrp.
  destruct (driver_loop_trace P regions w no_aggregate)
    as (added & Htr & Hec2).
  rewrite Hloop in Htr. cbn [fst snd] in Htr.
  exists a, w', added.
  split; [apply lambda_handler_unfold; exact Hloop |].
  split; [exact Htr |]. split; [exact Hec2 |]. split; [exact Hrp |].
  intros r Hall. rewrite Hrp, (count_occ_returned ps r Hall).
  unfold ps. rewrite passes_regions. reflexivity.
Qed.

(** C10 at work: [us-east-1] listed twice, once with blanks around it,
    around a region that is rejected at client construction. *)
Lemma repeated_region_is_processed_repeatedly_witness :
  let environ :=
    Scenario.environ_with "us-east-1,us east 1, us-east-1 " in
  get_allowed_regions environ = ["us-east-1"; "us east 1"; "us-east-1"] /\
  count_occ string_dec (get_allowed_regions environ) "us-east-1" = 2 /\
  exists a w' added,
    lambda_handler Aws.provider environ PyNone PyNone
      (start (Scenario.fleet Scenario.region_rejected))
    = (Ok {| statusCode := 200; body := a |}, w') /\
    trace w' = added /\
    filter is_ec2_client_call added
    = [boto3_client "ec2" "us-east-1"; boto3_client "ec2" "us east 1";
       boto3_client "ec2" "us-east-1"] /\
    regions_processed a = ["us-east-1"; "us-east-1"] /\
    count_occ string_dec (regions_processed a) "us-east-1" = 2.
Proof.
  intros environ.
  destruct (repeated_region_is_processed_repeatedly Aws.provider environ
              PyNone PyNone (start (Scenario.fleet Scenario.region_rejected))
              ["us-east-1"; "us east 1"; " us-east-1 "])
    as (Hparse & Hcount & _ & a & w' & added & Hret & Htr & Hec2 & Hrp
        & Hn).
  - reflexivity.
  - repeat constructor.
  - split; [vm_compute; reflexivity |]. split.
    + rewrite Hcount by discriminate. vm_compute. reflexivity.
    + exists a, w', added. split; [exact Hret |]. split; [exact Htr |].
      split; [exact Hec2 |]. split.
      * rewrite Hrp. vm_compute. reflexivity.
      * rewrite Hn.
        -- vm_compute. reflexivity.
        -- intros res Hin. vm_compute in Hin.
           destruct Hin as [E | [E | [E | []]]]; inversion E; reflexivity.
Defined.

(* ================================================================== *)
(** ** Where the requests go *)
(* ================================================================== *)

Lemma emits_weaken {St A} (tr : St -> list Call) (Q Q' : Call -> bool)
    (m : M St A) :
  (forall q, Q q = true -> Q' q = true) -> emits tr Q m -> emits tr Q' m.
Proof.
  intros HQ Hm st. destruct (Hm st) as (added & E & H).
  exists added. split; [exact E |].
  rewrite forallb_forall in *. auto.
Qed.

Lemma client_eqb_refl (c : Client) : client_eqb c c = true.
Proof. unfold client_eqb. rewrite !String.eqb_refl. reflexivity. Qed.

Lemma client_eqb_eq (c c' : Client) : client_eqb c c' = true -> c = c'.
Proof.
  unfold client_eqb. intros H. apply andb_true_iff in H as (H1 & H2).
  apply String.eqb_eq in H1, H2. destruct c, c'; cbn in *. congruence.
Qed.

(** The steps of a sweeper, with the requests checked against the
    client they go through. *)
Ltac sweeper_step :=
  first [ apply emits_ret | apply emits_pure | apply emits_modify
        | apply emits_bind | apply emits_try | apply emits_if
        | apply emits_for_each | apply emits_lift | apply emits_with_local
        | apply emits_for_each_page
        | apply emits_request;
          cbn [instance_sweep_call group_sweep_call];
          rewrite client_eqb_refl; reflexivity
        | intros ?; cbn [instance_sweep_call group_sweep_call];
          rewrite client_eqb_refl; reflexivity
        | intros ? ].

Section Addressing.

Context {S : Type}.
Variable P : Provider S.

Lemma stop_idle_instances_calls (c : Client) (region : string) :
  emits trace (instance_sweep_call c) (stop_idle_instances P c region).
Proof.
  unfold stop_idle_instances, stop_one, is_instance_stop_protected,
    instance_protection_check, do_describe_instances,
    do_describe_instance_attribute, do_describe_tags, do_stop_instances.
  repeat sweeper_step.
Qed.

Lemma scale_down_asgs_calls (c : Client) (region : string) :
  emits trace (group_sweep_call c) (scale_down_asgs P c region).
Proof.
  unfold scale_down_asgs, scale_one, is_asg_protected, asg_protection_check,
    do_paginate, do_describe_tags, do_update_auto_scaling_group.
  repeat sweeper_step.
Qed.

End Addressing.

Section Shape.

Context {S : Type}.
Variable P : Provider S.

Lemma instance_sweep_call_region (c : Client) (q : Call) :
  instance_sweep_call c q = true -> call_region q = region_name c.
Proof.
  destruct q; cbn [instance_sweep_call call_region]; try discriminate;
    intros H; apply client_eqb_eq in H; subst; reflexivity.
Qed.

Lemma group_sweep_call_region (c : Client) (q : Call) :
  group_sweep_call c q = true -> call_region q = region_name c.
Proof.
  destruct q; cbn [group_sweep_call call_region]; try discriminate;
    intros H; rewrite ?andb_true_iff in H;
    try (destruct H as ((H & _) & _));
    apply client_eqb_eq in H; subst; reflexivity.
Qed.

(** The requests of [process_region], in the order they are issued. *)
Lemma process_region_shape (region : string) (w : World S) :
  let c1 := boto3_client "ec2" region in
  let c2 := boto3_client "autoscaling" region in
  match on_client P "ec2" region (service w) with
  | (Exc _, _) =>
      trace (snd (process_region P region w)) = (trace w ++ [c1])%list
  | (Ok _, s1) =>
      match on_client P "autoscaling" region s1 with
      | (Exc _, _) =>
          trace (snd (process_region P region w))
          = (trace w ++ [c1; c2])%list
      | (Ok _, _) =>
          exists A B,
            trace (snd (process_region P region w))
            = (trace w ++ [c1; c2] ++ A ++ B)%list /\
            forallb (instance_sweep_call (Facts.ec2_of region)) A = true /\
            forallb (group_sweep_call (Facts.asg_of region)) B = true
      end
  end.
Proof.
  cbv zeta. unfold process_region.
  destruct (on_client P "ec2" region (service w)) as [[[] | e1] s1] eqn:H1.
  2:{ erewrite bind_exc by (apply new_client_exc; exact H1). reflexivity. }
  erewrite bind_ok by (apply new_client_ok; exact H1).
  destruct (on_client P "autoscaling" region s1) as [[[] | e2] s2] eqn:H2.
  2:{ erewrite bind_exc by (apply new_client_exc; exact H2).
      cbn [snd trace]. unfold append. rewrite <- app_assoc. reflexivity. }
  erewrite bind_ok by (apply new_client_ok; exact H2).
  match goal with |- context [region_sweeps P ?c1 ?c2 ?r ?w0] =>
    destruct (region_sweeps_returns P c1 c2 r w0)
      as (stopped & scaled & w1 & w2 & Hstop & Hscale & E);
    destruct (stop_idle_instances_calls P c1 r w0) as (A & EA & HA);
    destruct (scale_down_asgs_calls P c2 r w1) as (B & EB & HB)
  end.
  rewrite Hstop in EA. rewrite Hscale in EB. cbn [snd] in EA, EB.
  rewrite E. cbn [snd]. exists A, B.
  split; [| split; assumption].
  rewrite EB, EA. cbn [trace]. unfold append.
  rewrite <- !app_assoc. reflexivity.
Qed.

Lemma process_region_in_region (region : string) (w : World S) :
  exists added,
    trace (snd (process_region P region w)) = (trace w ++ added)%list /\
    forall q, In q added -> call_region q = region.
Proof.
  pose proof (process_region_shape region w) as H. cbv zeta in H.
  destruct (on_client P "ec2" region (service w)) as [[[] | e1] s1].
  2:{ eexists. split; [exact H |]. intros q [<- | []]. reflexivity. }
  destruct (on_client P "autoscaling" region s1) as [[[] | e2] s2].
  2:{ eexists. split; [exact H |]. intros q [<- | [<- | []]]; reflexivity. }
  destruct H as (A & B & E & HA & HB).
  eexists. split; [exact E |].
  rewrite forallb_forall in HA, HB.
  intros q [<- | [<- | Hq]]; try reflexivity.
  cbn [app] in Hq. apply in_app_or in Hq as [Hq | Hq].
  - apply (instance_sweep_call_region (Facts.ec2_of region)). auto.
  - apply (group_sweep_call_region (Facts.asg_of region)). auto.
Qed.

Lemma driver_loop_in_regions (regions rs : list string) (w : World S)
    (a : AggregateResult) :
  incl rs regions ->
  exists added,
    trace (fst (snd (for_each rs (handle_region P) (w, a))))
    = (trace w ++ added)%list /\
    forall q, In q added -> In (call_region q) regions.
Proof.
  revert w a. induction rs as [| r rest IH]; intros w a Hincl.
  - exists []. cbn. rewrite app_nil_r. split; [reflexivity | intros q []].
  - cbn [for_each].
    destruct (process_region_in_region r w) as (l1 & E1 & H1).
    assert (Hr : In r regions) by (apply Hincl; left; reflexivity).
    assert (Hrest : incl rest regions)
      by (intros x Hx; apply Hincl; right; exact Hx).
    destruct (process_region P r w) as [[res | e] w1] eqn:E;
      cbn [snd] in E1.
    + rewrite (bind_ok _ _ _ _ _ (handle_region_ok P _ _ _ _ a E)).
      destruct (IH w1 (merge_region r res a) Hrest) as (l2 & E2 & H2).
      exists (l1 ++ l2)%list. rewrite E2, E1, app_assoc.
      split; [reflexivity |].
      intros q Hq. apply in_app_or in Hq as [Hq | Hq]; [| auto].
      rewrite (H1 q Hq). exact Hr.
    + rewrite (bind_ok _ _ _ _ _ (handle_region_exc P _ _ _ _ a E)).
      destruct (IH w1 (record_region_error r e a) Hrest) as (l2 & E2 & H2).
      exists (l1 ++ l2)%list. rewrite E2, E1, app_assoc.
      split; [reflexivity |].
      intros q Hq. apply in_app_or in Hq as [Hq | Hq]; [| auto].
      rewrite (H1 q Hq). exact Hr.
Qed.

End Shape.

(** X3: whatever the provider answers, every request of an invocation,
    client constructions included, is addressed to a region of the
    parsed ALLOWED_REGIONS list. *)
Theorem requests_stay_in_allowed_regions {S} (P : Provider S)
    (environ : string -> option string) (event context : pyval)
    (w : World S) :
  exists added,
    trace (snd (lambda_handler P environ event context w))
    = (trace w ++ added)%list /\
    forall q, In q added ->
              In (call_region q) (get_allowed_regions environ).
Proof.
  destruct (driver_loop_in_regions P (get_allowed_regions environ)
              (get_allowed_regions environ) w no_aggregate
              (incl_refl _)) as (added & E & H).
  destruct (driver_loop_returns P (get_allowed_regions environ) w
              no_aggregate) as (w' & a & Erun).
  rewrite (lambda_handler_unfold P _ event context _ _ _ Erun).
  rewrite Erun in E. exists added. split; [exact E | exact H].
Qed.

(** X4: the requests of [process_region] come in a fixed order: the
    EC2 client, then the Auto Scaling client, then the requests of the
    instance sweeper, all through the EC2 client (listing, attribute
    and tag queries, stops), then those of the group sweeper, all
    through the Auto Scaling client (page and tag queries, and updates
    that carry MinSize 0 and DesiredCapacity 0).  A client constructor
    that raises is the last request. *)
Theorem process_region_request_order {S} (P : Provider S) (region : string)
    (w : World S) :
  let c1 := boto3_client "ec2" region in
  let c2 := boto3_client "autoscaling" region in
  match on_client P "ec2" region (service w) with
  | (Exc _, _) =>
      trace (snd (process_region P region w)) = (trace w ++ [c1])%list
  | (Ok _, s1) =>
      match on_client P "autoscaling" region s1 with
      | (Exc _, _) =>
          trace (snd (process_region P region w))
          = (trace w ++ [c1; c2])%list
      | (Ok _, _) =>
          exists A B,
            trace (snd (process_region P region w))
            = (trace w ++ [c1; c2] ++ A ++ B)%list /\
            (forall q, In q A ->
               instance_sweep_call (Facts.ec2_of region) q = true) /\
            (forall q, In q B ->
               group_sweep_call (Facts.asg_of region) q = true)
      end
  end.
Proof.
  pose proof (process_region_shape P region w) as H. cbv zeta in *.
  destruct (on_client P "ec2" region (service w)) as [[[] | e1] s1];
    [| exact H].
  destruct (on_client P "autoscaling" region s1) as [[[] | e2] s2];
    [| exact H].
  destruct H as (A & B & E & HA & HB). exists A, B.
  rewrite forallb_forall in HA, HB. repeat split; assumption.
Qed.

(* ================================================================== *)
(** ** What the instance sweeper does, exactly *)
(* ================================================================== *)

Section InstanceSweep.
Import Aws Facts Sweep.

Lemma filter_filter_and {A} (p q : A -> bool) (l : list A) :
  filter q (filter p l) = filter (fun x => p x && q x) l.
Proof.
  induction l as [| x l IH]; [reflexivity |]. cbn [filter].
  destruct (p x); cbn [filter andb]; [destruct (q x) |]; rewrite IH;
    reflexivity.
Qed.

Lemma filter_same {A} (p q : A -> bool) (l : list A) :
  (forall x, p x = q x) -> filter p l = filter q l.
Proof.
  intros H. induction l as [| x l IH]; [reflexivity |]. cbn [filter].
  rewrite H, IH. reflexivity.
Qed.

Lemma concat_nonempty {A} (l : list (list A)) :
  concat (filter (fun r => negb (Nat.eqb (length r) 0)) l) = concat l.
Proof.
  induction l as [| r l IH]; [reflexivity |]. cbn [filter concat].
  destruct r as [| x r]; cbn [length Nat.eqb negb concat app];
    rewrite IH; reflexivity.
Qed.

Lemma concat_map_filter {A} (p : A -> bool) (l : list (list A)) :
  concat (map (filter p) l) = filter p (concat l).
Proof.
  induction l as [| r l IH]; [reflexivity |]. cbn [map concat].
  rewrite filter_app, IH. reflexivity.
Qed.

(** The listing request answers the running instances of the region. *)
Lemma listing_flat (c : Client) (w : Cloud) :
  concat (listed_instances c running_filter w) = running_instances c w.
Proof.
  unfold listed_instances, running_instances, instances_of.
  rewrite concat_nonempty, concat_map_filter, filter_filter_and.
  apply filter_same. intros i. unfold instance_selected, running_filter.
  cbn [forallb Values]. rewrite is_in_single, andb_true_r.
  f_equal. unfold is_running. destruct (i_state i); reflexivity.
Qed.

Lemma stop_none (c : Client) (i : Instance) : stop c [] i = i.
Proof. unfold stop. cbn [is_in existsb]. rewrite andb_false_r. reflexivity. Qed.

Lemma stop_all_none (c : Client) (w : Cloud) : stop_all c [] w = w.
Proof.
  destruct w as [rs ps ts f]. unfold stop_all. cbn. f_equal.
  rewrite <- (map_id rs) at 2. apply map_ext. intros r.
  rewrite <- (map_id r) at 2. apply map_ext. intros i. apply stop_none.
Qed.

Lemma stop_then_stop (c : Client) (ids : list string) (id : string)
    (i : Instance) :
  stop c [id] (stop c ids i) = stop c (ids ++ [id]) i.
Proof.
  unfold stop, is_in. rewrite existsb_app. cbn [existsb].
  rewrite !orb_false_r.
  destruct (i_region i =? region_name c)%string eqn:R; cbn [andb].
  - destruct (existsb (String.eqb (i_id i)) ids) eqn:I; cbn [orb].
    + destruct (i_state i) eqn:St; cbn [i_region i_id i_state];
        rewrite R, ?St; cbn [andb]; destruct (i_id i =? id)%string;
        rewrite ?St; reflexivity.
    + rewrite R. cbn [andb]. reflexivity.
  - rewrite R. reflexivity.
Qed.

Lemma stop_all_then_stop (c : Client) (ids : list string) (id : string)
    (w : Cloud) :
  stop_all c [id] (stop_all c ids w) = stop_all c (ids ++ [id]) w.
Proof.
  unfold stop_all. cbn [reservations asg_pages tags fault]. f_equal.
  rewrite map_map. apply map_ext. intros r. rewrite map_map.
  apply map_ext. intros i. apply stop_then_stop.
Qed.

Lemma queries_are_not_stops (probe : list Call) :
  forallb is_query probe = true -> filter is_stop_call probe = [].
Proof.
  induction probe as [| q probe IH]; [reflexivity |]. cbn [forallb filter].
  intros H. apply andb_true_iff in H as (Hq & H).
  destruct q; try discriminate Hq; cbn [is_stop_call]; auto.
Qed.

(** The instance sweeper, start to end: one stop request for every
    running instance of the region that the oracle does not protect,
    in listing order; an entry for every such request that succeeded;
    the service with exactly those instances stopped. *)
Lemma aws_stop_idle_instances_exact (c : Client) (region : string)
    (W : World Cloud) :
  let w := service W in
  let listing := running_instances c w in
  exists res W' added,
    stop_idle_instances provider c region W = (Ok res, W') /\
    trace W' = (trace W ++ listing_query c :: added)%list /\
    match fault w (listing_query c) with
    | Some _ => res = [] /\ added = [] /\ service W' = w
    | None =>
        filter is_stop_call added
        = map (fun i => stop_instances c [i_id i])
              (filter (stop_requested w c) listing) /\
        res = map (fun i => entry (i_id i) region)
                  (filter (stop_granted w c) listing) /\
        service W'
        = stop_all c (map i_id (filter (stop_granted w c) listing)) w
    end.
Proof.
  intros w listing.
  pose (Post := fun st : World Cloud * list string =>
    exists added,
      trace (fst st) = (trace W ++ listing_query c :: added)%list /\
      match fault w (listing_query c) with
      | Some _ => snd st = [] /\ added = [] /\ service (fst st) = w
      | None =>
          filter is_stop_call added
          = map (fun i => stop_instances c [i_id i])
                (filter (stop_requested w c) listing) /\
          snd st = map (fun i => entry (i_id i) region)
                       (filter (stop_granted w c) listing) /\
          service (fst st)
          = stop_all c (map i_id (filter (stop_granted w c) listing)) w
      end).
  pose (GInv := fun (rest : list Instance)
                    (st : World Cloud * list string) =>
    exists done added,
      fault w (listing_query c) = None /\
      listing = (done ++ rest)%list /\
      trace (fst st) = (trace W ++ listing_query c :: added)%list /\
      filter is_stop_call added
      = map (fun i => stop_instances c [i_id i])
            (filter (stop_requested w c) done) /\
      snd st = map (fun i => entry (i_id i) region)
                   (filter (stop_granted w c) done) /\
      service (fst st)
      = stop_all c (map i_id (filter (stop_granted w c) done)) w).
  destruct (aws_stop_idle_instances_rule GInv Post c region W)
    as (res & W' & Hrun & added & Htr & Hpost).
  - intros Hf. exists []. split; [reflexivity |]. fold w in Hf.
    destruct (fault w (listing_query c)); [| contradiction].
    repeat split.
  - intros Hf. exists [], []. rewrite listing_flat.
    split; [exact Hf |]. split; [reflexivity |]. split; [reflexivity |].
    split; [reflexivity |]. split; [reflexivity |].
    cbn [fst after service filter map]. symmetry. apply stop_all_none.
  - intros i rest [W1 acc]
      (done & added & Hf & Hl & Htr & Hcalls & Hacc & Hsvc).
    cbn [fst snd] in *.
    destruct (aws_stop_one c region i W1 acc) as (probe & Hq & ->).
    cbn [snd]. exists (done ++ [i])%list.
    assert (Hpol : instance_protected (service W1) c (i_id i)
                   = instance_protected w c (i_id i)).
    { rewrite Hsvc. symmetry. apply instance_protected_policy.
      apply same_policy_stop_all. }
    assert (Hok : is_ok (fst (ec2_stop_instances c [i_id i] (service W1)))
                  = is_ok (fst (ec2_stop_instances c [i_id i] w))).
    { rewrite Hsvc. apply stop_outcome_stop_all. }
    rewrite !filter_app, !map_app. cbn [filter].
    unfold stop_requested at 2, stop_granted at 2 4. rewrite <- Hpol, <- Hok.
    destruct (instance_protected (service W1) c (i_id i)).
    + cbn [negb andb map]. rewrite !app_nil_r.
      exists (added ++ probe)%list. cbn [fst snd after trace service].
      split; [exact Hf |].
      split; [rewrite Hl, <- app_assoc; reflexivity |].
      split; [rewrite Htr, <- app_assoc; reflexivity |].
      split; [rewrite filter_app, (queries_are_not_stops _ Hq), app_nil_r;
              exact Hcalls |].
      split; assumption.
    + cbv zeta. cbn [negb andb].
      exists (added ++ probe ++ [stop_instances c [i_id i]])%list.
      destruct (ec2_stop_cases c [i_id i] (service W1)) as [(e & Es) | Es];
        rewrite Es; cbn [fst snd is_ok trace service map];
        (split; [exact Hf |]);
        (split; [rewrite Hl, <- app_assoc; reflexivity |]);
        (split; [rewrite Htr, <- app_assoc; reflexivity |]);
        (split; [rewrite !filter_app, (queries_are_not_stops _ Hq), Hcalls;
                 reflexivity |]).
      * rewrite !app_nil_r. split; assumption.
      * split; [unfold append; rewrite Hacc; reflexivity |].
        rewrite Hsvc. apply stop_all_then_stop.
  - intros st (done & added & Hf & Hl & Htr & Hcalls & Hacc & Hsvc).
    rewrite app_nil_r in Hl. subst done. exists added.
    split; [exact Htr |]. rewrite Hf. repeat split; assumption.
  - exists res, W', added. cbn [fst snd] in *. repeat split; assumption.
Qed.

End InstanceSweep.

(** X5: on the deterministic provider the instance sweeper issues the
    listing request and then, when the listing is answered, exactly one
    stop request for each running instance of the region that the
    oracle does not protect, in listing order; its result holds one
    entry, [id (region)], for each of those requests that succeeded,
    in the same order; and the service is left with exactly those
    instances stopped.  When the listing request fails, nothing else is
    asked, nothing is stopped and the result is empty. *)
Theorem instance_sweep_is_exact (c : Client) (region : string)
    (W : World Aws.Cloud) :
  let w := service W in
  let listing := Sweep.running_instances c w in
  exists res W' added,
    stop_idle_instances Aws.provider c region W = (Ok res, W') /\
    trace W' = (trace W ++ Facts.listing_query c :: added)%list /\
    match Aws.fault w (Facts.listing_query c) with
    | Some _ => res = [] /\ added = [] /\ service W' = w
    | None =>
        filter is_stop_call added
        = map (fun i => stop_instances c [Aws.i_id i])
              (filter (Sweep.stop_requested w c) listing) /\
        res = map (fun i => Facts.entry (Aws.i_id i) region)
                  (filter (Sweep.stop_granted w c) listing) /\
        service W'
        = Aws.stop_all c
            (map Aws.i_id (filter (Sweep.stop_granted w c) listing)) w
    end.
Proof. exact (aws_stop_idle_instances_exact c region W). Qed.

Lemma NoDup_map_filter {K T} (keep : T -> bool) (key : T -> K)
    (xs : list T) :
  NoDup (map key xs) -> NoDup (map key (filter keep xs)).
Proof.
  intros Hkeys. induction xs as [| x xs IH]; cbn [map filter] in *;
    [exact Hkeys |].
  inversion Hkeys as [| ? ? Hnot Hnd]; subst.
  destruct (keep x); [| auto]. cbn [map]. constructor; [| auto].
  intros Hin. apply Hnot. apply in_map_iff in Hin as (y & E & Hy).
  apply filter_In in Hy as (Hy & _). rewrite <- E. apply in_map; exact Hy.
Qed.

Lemma NoDup_map_inj {A B} (f : A -> B) (l : list A) :
  (forall x y, f x = f y -> x = y) -> NoDup l -> NoDup (map f l).
Proof.
  intros Hf. induction 1 as [| x l Hnot Hnd IH]; cbn [map]; constructor;
    [| exact IH].
  intros Hin. apply Hnot. apply in_map_iff in Hin as (y & E & Hy).
  apply Hf in E. subst y. exact Hy.
Qed.

(** X6: when instance ids are unique within the region, a sweep never
    asks twice for the same instance to be stopped, and no entry appears
    twice in its result. *)
Theorem no_instance_is_stopped_twice (c : Client) (region : string)
    (W : World Aws.Cloud) :
  NoDup (map Aws.i_id (Facts.instances_of c (service W))) ->
  exists res W' added,
    stop_idle_instances Aws.provider c region W = (Ok res, W') /\
    trace W' = (trace W ++ added)%list /\
    NoDup (filter is_stop_call added) /\
    NoDup res.
Proof.
  intros Huniq.
  destruct (aws_stop_idle_instances_exact c region W)
    as (res & W' & added & Hrun & Htr & H).
  exists res, W', (Facts.listing_query c :: added).
  split; [exact Hrun |]. split; [exact Htr |]. cbn [filter is_stop_call].
  cbv zeta in H.
  destruct (Aws.fault (service W) (Facts.listing_query c)).
  - destruct H as (-> & -> & _). split; constructor.
  - destruct H as (-> & -> & _).
    assert (Hids : forall p,
               NoDup (map Aws.i_id
                        (filter p (Sweep.running_instances c (service W))))).
    { intros p. apply NoDup_map_filter. unfold Sweep.running_instances.
      apply NoDup_map_filter. exact Huniq. }
    split.
    + rewrite <- (map_map Aws.i_id (fun id => stop_instances c [id])).
      apply NoDup_map_inj; [| apply Hids].
      intros x y E. injection E as E. exact E.
    + rewrite <- (map_map Aws.i_id (fun id => Facts.entry id region)).
      apply NoDup_map_inj; [| apply Hids].
      intros x y E. eapply entry_inj; exact E.
Qed.

(** X6 at work: the three instances of the sample fleet. *)
Lemma no_instance_is_stopped_twice_witness :
  exists res W' added,
    stop_idle_instances Aws.provider Scenario.ec2_east Scenario.us_east
      (start (Scenario.fleet Scenario.no_fault)) = (Ok res, W') /\
    trace W' = added /\
    NoDup (filter is_stop_call added) /\
    NoDup res.
Proof.
  apply (no_instance_is_stopped_twice Scenario.ec2_east Scenario.us_east
           (start (Scenario.fleet Scenario.no_fault))).
  cbn. repeat constructor; cbn; intuition discriminate.
Defined.

(* ================================================================== *)
(** ** What a pass leaves behind *)
(* ================================================================== *)

Section Leftovers.
Import Aws Facts.

Lemma process_region_fault (region : string) (W : World Cloud) :
  fault (service (snd (process_region provider region W))) = fault (service W).
Proof. apply evolves_fault, process_region_evolves. Qed.

End Leftovers.

(** X7: after a pass over a region whose two clients could be built,
    nothing the sweepers act on is left: if the listing request is
    answered, every instance of the region that is still running is
    one the oracle protects or one whose stop request is refused; and
    every group with a positive DesiredCapacity on a page that the page
    loop reaches is one the oracle protects or one whose update request
    is refused. *)
Theorem pass_leaves_nothing_to_do (region : string) (W : World Aws.Cloud) :
  let w := service W in
  let w' := service (snd (process_region Aws.provider region W)) in
  let ec2 := Facts.ec2_of region in
  let asg := Facts.asg_of region in
  Aws.fault w (boto3_client "ec2" region) = None ->
  Aws.fault w (boto3_client "autoscaling" region) = None ->
  (Aws.fault w (Facts.listing_query ec2) = None ->
   forall i, In i (concat (Aws.reservations w')) ->
             Aws.i_region i = region -> Aws.i_state i = Aws.running ->
             Facts.instance_protected w' ec2 (Aws.i_id i) = true \/
             exists e,
               fst (Aws.ec2_stop_instances ec2 [Aws.i_id i] w') = Exc e) /\
  (forall k,
      (forall j, j <= k -> Aws.fault w (Facts.page_query asg j) = None) ->
      forall g, In g (nth k (Aws.asg_pages w') []) ->
                Aws.g_region g = region -> (0 < Aws.g_desired g)%Z ->
                Facts.asg_protected w' asg (Aws.g_name g) = true \/
                exists e,
                  fst (Aws.asg_update asg (Aws.g_name g) 0
                         (PyInt (Aws.g_max g)) 0 w') = Exc e).
Proof.
  intros w w' ec2 asg F1 F2.
  pose proof (process_region_settles region W) as Hs.
  pose proof (process_region_fault region W) as Hf.
  fold w w' in Hs, Hf.
  destruct Hs as [Hs | [Hs | (Hi & Hg)]]; [rewrite Hf in Hs; contradiction.. |].
  split.
  - intros F3 i Hin Hreg Hrun.
    destruct Hi as [Hi | Hi]; [rewrite Hf in Hi; contradiction |].
    assert (Hof : In i (Facts.instances_of ec2 w')).
    { apply filter_In. split; [exact Hin |]. apply String.eqb_eq. exact Hreg. }
    specialize (Hi i Hof). unfold Facts.pending_instance, Facts.is_running in Hi.
    rewrite Hrun in Hi. cbn [andb] in Hi. fold ec2 in Hi.
    destruct (Facts.instance_protected w' ec2 (Aws.i_id i));
      [left; reflexivity | right].
    cbn [negb andb] in Hi.
    destruct (fst (Aws.ec2_stop_instances ec2 [Aws.i_id i] w')) as [u | e];
      [discriminate Hi | eauto].
  - intros k Hreach g Hin Hreg Hpos.
    assert (Hpage : In g (Facts.page_groups asg k w')).
    { apply filter_In. split; [exact Hin |]. apply String.eqb_eq. exact Hreg. }
    assert (Hreach' : forall j, j <= k ->
                                Aws.fault w' (Facts.page_query asg j) = None).
    { intros j Hj. rewrite Hf. apply Hreach. exact Hj. }
    specialize (Hg k Hreach' g Hpage). unfold Facts.pending_group in Hg.
    apply Z.ltb_lt in Hpos. rewrite Hpos in Hg. fold asg in Hg.
    destruct (Facts.asg_protected w' asg (Aws.g_name g));
      [left; reflexivity | right].
    cbn [negb andb] in Hg.
    destruct (fst (Aws.asg_update asg (Aws.g_name g) 0
                     (PyInt (Aws.g_max g)) 0 w')) as [u | e];
      [discriminate Hg | eauto].
Qed.

(** X7 at work: in the sample fleet, where the stop of [i-1] and every
    update are refused, what is still running or above zero after the
    pass is protected or refused. *)
Lemma pass_leaves_nothing_to_do_witness :
  let W := start (Scenario.fleet Scenario.mutations_refused) in
  let w' := service (snd (process_region Aws.provider Scenario.us_east W)) in
  (forall i, In i (concat (Aws.reservations w')) ->
             Aws.i_region i = Scenario.us_east ->
             Aws.i_state i = Aws.running ->
             Facts.instance_protected w' Scenario.ec2_east (Aws.i_id i) = true \/
             exists e,
               fst (Aws.ec2_stop_instances Scenario.ec2_east [Aws.i_id i] w')
               = Exc e) /\
  (forall k g, In g (nth k (Aws.asg_pages w') []) ->
               Aws.g_region g = Scenario.us_east -> (0 < Aws.g_desired g)%Z ->
               Facts.asg_protected w' Scenario.asg_east (Aws.g_name g) = true \/
               exists e,
                 fst (Aws.asg_update Scenario.asg_east (Aws.g_name g) 0
                        (PyInt (Aws.g_max g)) 0 w') = Exc e).
Proof.
  intros W w'.
  destruct (pass_leaves_nothing_to_do Scenario.us_east W eq_refl eq_refl)
    as (Hi & Hg).
  split.
  - exact (Hi eq_refl).
  - intros k. apply Hg. intros j _. reflexivity.
Defined.

(* ================================================================== *)
(** ** What an invocation can change *)
(* ================================================================== *)

Section Frame.
Import Aws Facts Sweep.

Variable regions : list string.
Variable w0 : Cloud.

Lemma reaches_policy (w : Cloud) : reaches regions w0 w -> same_policy w0 w.
Proof.
  induction 1 as [| w region id _ IH _ _ | w region name mx _ IH _ _].
  - apply same_policy_refl.
  - eapply same_policy_trans; [exact IH | apply same_policy_stop_all].
  - eapply same_policy_trans; [exact IH | apply same_policy_resize_all].
Qed.

Lemma stop_one_reaches (region label : string) (i : Instance)
    (st : World Cloud * list string) :
  In region regions ->
  reaches regions w0 (service (fst st)) ->
  reaches regions w0
    (service (fst (snd (stop_one provider (ec2_of region) label
                          (describe_instance i) st)))).
Proof.
  destruct st as [W1 acc]. intros Hr H.
  destruct (aws_stop_one (ec2_of region) label i W1 acc) as (probe & _ & ->).
  cbn [fst snd] in *.
  destruct (instance_protected (service W1) (ec2_of region) (i_id i))
    eqn:Hprot; [exact H |].
  cbv zeta.
  destruct (ec2_stop_cases (ec2_of region) [i_id i] (service W1))
    as [(e & ->) | ->]; [exact H |].
  cbn [fst service]. constructor; [exact H | exact Hr |].
  rewrite (instance_protected_policy _ _ _ _ (reaches_policy _ H)).
  exact Hprot.
Qed.

Lemma scale_one_reaches (region label : string) (g : Group)
    (st : World Cloud * list string) :
  In region regions ->
  reaches regions w0 (service (fst st)) ->
  reaches regions w0
    (service (fst (snd (scale_one provider (asg_of region) label
                          (describe_group g) st)))).
Proof.
  destruct st as [W1 acc]. intros Hr H. rewrite aws_scale_one.
  cbn [fst snd] in *. cbv zeta.
  destruct (asg_protected (service W1) (asg_of region) (g_name g))
    eqn:Hprot; [exact H |].
  destruct (0 <? g_desired g)%Z; [| exact H].
  destruct (asg_update_cases (asg_of region) (g_name g) (g_max g)
              (service W1)) as [(e & ->) | ->]; [exact H |].
  cbn [fst service]. constructor; [exact H | exact Hr |].
  rewrite (asg_protected_policy _ _ _ _ (reaches_policy _ H)).
  exact Hprot.
Qed.

Lemma process_region_reaches (region : string) (W : World Cloud) :
  In region regions ->
  reaches regions w0 (service W) ->
  reaches regions w0 (service (snd (process_region provider region W))).
Proof.
  intros Hr H. rewrite aws_process_region.
  destruct (fault (service W) (boto3_client "ec2" region)); [exact H |].
  destruct (fault (service W) (boto3_client "autoscaling" region));
    [exact H |].
  set (W0 := after W _).
  destruct (region_sweeps_returns provider (ec2_of region) (asg_of region)
              region W0)
    as (stopped & scaled & W1 & W2 & Hstop & Hscale & ->).
  cbn [snd].
  destruct (aws_stop_idle_instances_inv
              (fun st => reaches regions w0 (service (fst st)))
              (ec2_of region) region W0) as (res1 & W1' & Hrun1 & H1).
  { exact H. }
  { intros i st _ Hst. apply stop_one_reaches; assumption. }
  rewrite Hstop in Hrun1. injection Hrun1 as <- <-. cbn [fst] in H1.
  destruct (aws_scale_down_asgs_inv
              (fun st => reaches regions w0 (service (fst st)))
              (asg_of region) region W1) as (res2 & W2' & Hrun2 & H2).
  { exact H1. }
  { intros k W3 acc Hst. exact Hst. }
  { intros g listed st _ _ Hst. apply scale_one_reaches; assumption. }
  rewrite Hscale in Hrun2. injection Hrun2 as <- <-. exact H2.
Qed.

Lemma driver_reaches (rs : list string) (W : World Cloud)
    (a : AggregateResult) :
  incl rs regions ->
  reaches regions w0 (service W) ->
  reaches regions w0
    (service (fst (snd (for_each rs (handle_region provider) (W, a))))).
Proof.
  revert W a. induction rs as [| r rest IH]; intros W a Hincl H;
    [exact H |].
  cbn [for_each].
  destruct (handle_region_world r W a) as (a1 & E & _).
  rewrite (bind_ok _ _ _ _ _ E). apply IH.
  - intros x Hx. apply Hincl. right; exact Hx.
  - apply process_region_reaches; [apply Hincl; left; reflexivity | exact H].
Qed.

Lemma Forall2_same {A} (R : A -> A -> Prop) (l : list A) :
  (forall x, R x x) -> Forall2 R l l.
Proof. intros H. induction l; constructor; auto. Qed.

Lemma Forall2_map_right {A} (R : A -> A -> Prop) (f : A -> A)
    (l l' : list A) :
  (forall x y, R x y -> R x (f y)) ->
  Forall2 R l l' -> Forall2 R l (map f l').
Proof. intros H. induction 1; cbn [map]; constructor; auto. Qed.

Lemma instance_step_stop (region id : string) (i i' : Instance) :
  In region regions ->
  instance_protected w0 (ec2_of region) id = false ->
  instance_step regions w0 i i' ->
  instance_step regions w0 i (stop (ec2_of region) [id] i').
Proof.
  intros Hr Hprot H. unfold stop. rewrite is_in_single.
  cbn [region_name ec2_of].
  destruct (i_region i' =? region)%string eqn:R; cbn [andb]; [| exact H].
  destruct (i_id i' =? id)%string eqn:I; [| exact H].
  apply String.eqb_eq in R, I.
  destruct H as [-> | (-> & Hrun & Hin & Hp)].
  - destruct (i_state i) eqn:St; try (left; reflexivity).
    right. subst. repeat split; assumption.
  - cbn [i_state stopping_of]. right. repeat split; assumption.
Qed.

Lemma group_step_resize (region name : string) (mx : Z) (g g' : Group) :
  In region regions ->
  asg_protected w0 (asg_of region) name = false ->
  group_step regions w0 g g' ->
  group_step regions w0 g (resize (asg_of region) name 0 mx 0 g').
Proof.
  intros Hr Hprot H. unfold resize.
  destruct (own_group (asg_of region) name g') eqn:Hown; [| exact H].
  apply own_group_iff in Hown as (R & N). cbn [region_name asg_of] in R.
  right. cbn [g_region g_name g_min g_desired].
  assert (E : g_region g' = g_region g /\ g_name g' = g_name g).
  { destruct H as [-> | (E1 & E2 & _)]; split; auto. }
  destruct E as (E1 & E2). rewrite <- E1, <- E2, R, N.
  repeat split; assumption.
Qed.

Lemma reaches_instances (w : Cloud) :
  reaches regions w0 w ->
  Forall2 (Forall2 (instance_step regions w0))
          (reservations w0) (reservations w).
Proof.
  induction 1 as [| w region id _ IH Hr Hp | w region name mx _ IH _ _].
  - apply Forall2_same. intros r. apply Forall2_same. intros i.
    left; reflexivity.
  - cbn [stop_all reservations].
    apply Forall2_map_right; [| exact IH]. intros r r' Hrr.
    apply Forall2_map_right; [| exact Hrr]. intros i i'.
    apply instance_step_stop; assumption.
  - exact IH.
Qed.

Lemma reaches_groups (w : Cloud) :
  reaches regions w0 w ->
  Forall2 (Forall2 (group_step regions w0)) (asg_pages w0) (asg_pages w).
Proof.
  induction 1 as [| w region id _ IH _ _ | w region name mx _ IH Hr Hp].
  - apply Forall2_same. intros r. apply Forall2_same. intros g.
    left; reflexivity.
  - exact IH.
  - cbn [resize_all asg_pages].
    apply Forall2_map_right; [| exact IH]. intros p p' Hpp.
    apply Forall2_map_right; [| exact Hpp]. intros g g'.
    apply group_step_resize; assumption.
Qed.

End Frame.

(** X8: all an invocation can do to the service is this.  The tags and
    the injected faults stay as they are.  Reservation by reservation
    and position by position, an instance is left as it is or goes from
    running to stopping with nothing else changed, and the latter only
    in a region of the parsed ALLOWED_REGIONS list and only if the
    oracle does not protect it.  Page by page and position by position,
    a group is left as it is or keeps its region and name and ends with
    MinSize 0 and DesiredCapacity 0, and the latter only in a listed
    region and only if the oracle does not protect it. *)
Theorem invocation_frame
    (environ : string -> option string) (event context : pyval)
    (W : World Aws.Cloud) :
  let w0 := service W in
  let w' := service (snd (lambda_handler Aws.provider environ event context W)) in
  let regions := get_allowed_regions environ in
  Aws.tags w' = Aws.tags w0 /\
  Aws.fault w' = Aws.fault w0 /\
  Forall2 (Forall2 (Sweep.instance_step regions w0))
          (Aws.reservations w0) (Aws.reservations w') /\
  Forall2 (Forall2 (Sweep.group_step regions w0))
          (Aws.asg_pages w0) (Aws.asg_pages w').
Proof.
  intros w0 w' regions.
  assert (H : Sweep.reaches regions w0 w').
  { unfold w'.
    destruct (driver_loop_returns Aws.provider regions W no_aggregate)
      as (W1 & a & Erun).
    rewrite (lambda_handler_unfold Aws.provider _ event context _ _ _ Erun).
    pose proof (driver_reaches regions w0 regions W no_aggregate
                  (incl_refl _) (Sweep.reaches_start _ _)) as Hd.
    fold regions in Erun. rewrite Erun in Hd. exact Hd. }
  destruct (reaches_policy _ _ _ H) as (Hf & Ht & _).
  split; [symmetry; exact Ht |]. split; [symmetry; exact Hf |].
  split; [apply reaches_instances | apply reaches_groups]; exact H.
Qed.

(* ================================================================== *)
(** ** Listing entries with a key missing *)
(* ================================================================== *)

Section MissingKeys.

Context {S : Type}.
Variable P : Provider S.

Lemma is_instance_stop_protected_returns (c : Client) (id : string)
    (w : World S) :
  exists b w', is_instance_stop_protected P c id w = (Ok b, w').
Proof.
  unfold is_instance_stop_protected, try_except, ret.
  destruct (instance_protection_check P c id w) as [[b | e] w']; eauto.
Qed.

Lemma is_asg_protected_returns (c : Client) (name : string) (w : World S) :
  exists b w', is_asg_protected P c name w = (Ok b, w').
Proof.
  unfold is_asg_protected, try_except, ret.
  destruct (asg_protection_check P c name w) as [[b | e] w']; eauto.
Qed.

(** An iteration for an instance that has an id always ends normally. *)
Lemma stop_one_returns (c : Client) (region : string) (d : InstanceDesc)
    (st : World S * list string) :
  InstanceId d <> None ->
  exists st', stop_one P c region d st = (Ok tt, st').
Proof.
  destruct d as [[id |] itype]; [intros _ | intros H; contradiction H;
                                              reflexivity].
  destruct st as [w acc]. unfold stop_one. cbn [InstanceId getitem].
  unfold bind at 1. unfold pure at 1.
  unfold bind at 1. unfold lift at 1.
  destruct (is_instance_stop_protected_returns c id w) as (b & w' & ->).
  destruct b; [unfold ret; eauto |].
  apply try_log_returns.
Qed.

Lemma stop_loop_returns (c : Client) (region : string)
    (good : list InstanceDesc) (st : World S * list string) :
  Forall (fun d => InstanceId d <> None) good ->
  exists st', for_each good (stop_one P c region) st = (Ok tt, st').
Proof.
  intros H. revert st. induction H as [| d good Hd _ IH]; intros st.
  - exists st. reflexivity.
  - cbn [for_each].
    destruct (stop_one_returns c region d st Hd) as (st1 & E).
    rewrite (bind_ok _ _ _ _ _ E). apply IH.
Qed.

End MissingKeys.

(** X9: whatever the provider, a listing entry without an 'InstanceId'
    ends the instance sweep where it stands: the entries before it are
    processed as usual, the KeyError is swallowed, no entry after it is
    looked at, and the sweeper returns what it had collected. *)
Theorem instance_without_id_ends_the_sweep {S} (P : Provider S)
    (c : Client) (region : string) (w : World S)
    (response : DescribeInstancesResponse) (s1 : S)
    (lists : list (list InstanceDesc)) (good rest : list InstanceDesc)
    (bad : InstanceDesc) :
  let listing_request :=
    describe_instances c
      [ {| Name := "instance-state-name"; Values := ["running"] |} ] in
  on_describe_instances P c
    [ {| Name := "instance-state-name"; Values := ["running"] |} ]
    (service w) = (Ok response, s1) ->
  Reservations response
  = Some (map (fun l => {| Instances := Some l |}) lists) ->
  concat lists = (good ++ bad :: rest)%list ->
  Forall (fun d => InstanceId d <> None) good ->
  InstanceId bad = None ->
  exists st',
    for_each good (stop_one P c region)
      ({| service := s1; trace := append (trace w) listing_request |}, [])
    = (Ok tt, st') /\
    stop_idle_instances P c region w = (Ok (snd st'), fst st').
Proof.
  intros q Hresp Hres Hcat Hgood Hbad.
  destruct (stop_loop_returns P c region good
              ({| service := s1; trace := append (trace w) q |}, []) Hgood)
    as (st' & Egood).
  exists st'. split; [exact Egood |].
  unfold stop_idle_instances, with_local, try_except.
  unfold bind at 1. unfold lift at 1, do_describe_instances at 1,
    request at 1.
  rewrite Hresp. unfold bind at 1. unfold pure at 1. rewrite Hres.
  cbn [getitem].
  rewrite (for_each_nested
             (fun l => {| Instances := Some l |})
             (fun reservation => getitem "Instances" (Instances reservation)))
    by reflexivity.
  rewrite Hcat, for_each_app.
  fold q. rewrite (bind_ok _ _ _ _ _ Egood).
  cbn [for_each]. unfold bind at 1. unfold stop_one at 1.
  unfold bind at 1. unfold pure at 1. rewrite Hbad. cbn [getitem].
  destruct st' as [w' acc]. reflexivity.
Qed.

(** X9 at work: the ragged listing holds [i-1], an entry without id,
    and [i-2]; only [i-1] is stopped. *)
Lemma instance_without_id_ends_the_sweep_witness :
  exists st',
    for_each [ {| InstanceId := Some "i-1"; InstanceType := Some "t3.micro" |} ]
      (stop_one Ragged.provider Scenario.ec2_east "us-east-1")
      ({| service := 0;
          trace := [describe_instances Scenario.ec2_east
                      [ {| Name := "instance-state-name";
                           Values := ["running"] |} ]] |}, [])
    = (Ok tt, st') /\
    stop_idle_instances Ragged.provider Scenario.ec2_east "us-east-1"
      (start 0) = (Ok (snd st'), fst st').
Proof.
  apply (instance_without_id_ends_the_sweep Ragged.provider
           Scenario.ec2_east "us-east-1" (start 0)
           {| Reservations := Some [ {| Instances := Some Ragged.listing |} ] |}
           0 [Ragged.listing]
           [ {| InstanceId := Some "i-1"; InstanceType := Some "t3.micro" |} ]
           [ {| InstanceId := Some "i-2"; InstanceType := None |} ]
           {| InstanceId := None; InstanceType := Some "t3.micro" |}).
  - reflexivity.
  - reflexivity.
  - reflexivity.
  - repeat constructor. discriminate.
  - reflexivity.
Defined.

(** X10: whatever the provider, a group whose description lacks
    'MaxSize' (with a name and a DesiredCapacity that compares with 0)
    is passed over: no update request is issued for it, nothing is
    entered for it, and the loop goes on with the next group from the
    store the protection check left. *)
Theorem group_without_max_size_is_passed_over {S} (P : Provider S)
    (c : Client) (region name : string) (capacity : pyval)
    (rest : list AutoScalingGroup) (w : World S) (scaled : list string) :
  is_ok (Py.gt capacity 0) = true ->
  for_each
    ({| AutoScalingGroupName := Some name;
        DesiredCapacity := Some capacity; MaxSize := None |} :: rest)
    (scale_one P c region) (w, scaled)
  = for_each rest (scale_one P c region)
      (snd (is_asg_protected P c name w), scaled).
Proof.
  intros Hcap. cbn [for_each]. unfold bind at 1.
  unfold scale_one at 1. cbn [AutoScalingGroupName DesiredCapacity getitem].
  unfold bind at 1. unfold pure at 1.
  unfold bind at 1. unfold pure at 1.
  unfold bind at 1. unfold lift at 1.
  destruct (is_asg_protected_returns P c name w) as (b & w' & ->).
  cbn [snd]. destruct b; [reflexivity |].
  unfold bind at 1. unfold pure at 1.
  destruct (Py.gt capacity 0) as [positive | e]; [| discriminate Hcap].
  destruct positive; reflexivity.
Qed.

(** X10 at work: of the two groups of the ragged page, only [asg-b],
    which has a MaxSize, is scaled down. *)
Lemma group_without_max_size_is_passed_over_witness :
  for_each Ragged.page
    (scale_one Ragged.provider Scenario.asg_east "us-east-1") (start 0, [])
  = for_each (tl Ragged.page)
      (scale_one Ragged.provider Scenario.asg_east "us-east-1")
      (snd (is_asg_protected Ragged.provider Scenario.asg_east "asg-a"
              (start 0)), []) /\
  fst (scale_down_asgs Ragged.provider Scenario.asg_east "us-east-1" (start 0))
  = Ok ["asg-b (us-east-1)"].
Proof.
  split.
  - apply (group_without_max_size_is_passed_over Ragged.provider
             Scenario.asg_east "us-east-1" "asg-a" (PyInt 2)
             (tl Ragged.page) (start 0) []).
    reflexivity.
  - reflexivity.
Defined.

(* ================================================================== *)
(** ** What the group sweeper does, exactly *)
(* ================================================================== *)

Section GroupSweep.
Import Aws Facts Sweep.

Lemma NoDup_app_disjoint {A} (l1 l2 : list A) (x : A) :
  NoDup (l1 ++ l2) -> In x l1 -> In x l2 -> False.
Proof.
  induction l1 as [| a l1 IH]; cbn [app]; intros Hnd H1 H2; [destruct H1 |].
  inversion Hnd as [| ? ? Hnot Hnd']; subst.
  destruct H1 as [-> | H1]; [| eauto].
  apply Hnot. apply in_or_app. right; exact H2.
Qed.

Lemma NoDup_app_tail {A} (l1 l2 : list A) : NoDup (l1 ++ l2) -> NoDup l2.
Proof.
  induction l1 as [| a l1 IH]; cbn [app]; intros H; [exact H |].
  inversion H; auto.
Qed.

Lemma in_nth_concat {A} (l : list (list A)) (k : nat) (x : A) :
  In x (nth k l []) -> In x (concat l).
Proof.
  intros H. apply in_concat. exists (nth k l []). split; [| exact H].
  destruct (Nat.lt_ge_cases k (length l)) as [Hk | Hk].
  - apply nth_In; exact Hk.
  - rewrite nth_overflow in H by exact Hk. destruct H.
Qed.

(** With unique keys, two different pages share no key. *)
Lemma NoDup_pages_apart {A B} (f : A -> B) (l : list (list A))
    (j k : nat) (x y : A) :
  NoDup (map f (concat l)) -> j <> k ->
  In x (nth j l []) -> In y (nth k l []) -> f x <> f y.
Proof.
  revert j k. induction l as [| p l IH]; intros j k Hnd Hjk Hx Hy.
  - destruct j; destruct Hx.
  - cbn [concat] in Hnd. rewrite map_app in Hnd.
    destruct j as [| j], k as [| k]; cbn [nth] in Hx, Hy.
    + contradiction Hjk; reflexivity.
    + intros E. apply (NoDup_app_disjoint _ _ (f x) Hnd).
      * apply in_map; exact Hx.
      * rewrite E. apply in_map. eapply in_nth_concat; exact Hy.
    + intros E. apply (NoDup_app_disjoint _ _ (f y) Hnd).
      * apply in_map; exact Hy.
      * rewrite <- E. apply in_map. eapply in_nth_concat; exact Hx.
    + apply (IH j k); [eapply NoDup_app_tail; exact Hnd | lia | | ];
        assumption.
Qed.

Lemma zero_all_cons (c : Client) (g : Group) (gs : list Group) (w : Cloud) :
  zero_all c (g :: gs) w
  = zero_all c gs (resize_all c (g_name g) 0 (g_max g) 0 w).
Proof. reflexivity. Qed.

Lemma zero_all_policy (c : Client) (gs : list Group) (w : Cloud) :
  same_policy w (zero_all c gs w).
Proof.
  revert w. induction gs as [| g gs IH]; intros w;
    [apply same_policy_refl |].
  rewrite zero_all_cons.
  eapply same_policy_trans; [apply same_policy_resize_all | apply IH].
Qed.

Lemma zero_all_snoc (c : Client) (gs : list Group) (g : Group) (w : Cloud) :
  zero_all c (gs ++ [g]) w
  = resize_all c (g_name g) 0 (g_max g) 0 (zero_all c gs w).
Proof. unfold zero_all. rewrite fold_left_app. reflexivity. Qed.

Lemma update_outcome_zero_all (c c' : Client) (name : string) (mx : Z)
    (gs : list Group) (w : Cloud) :
  is_ok (fst (asg_update c name 0 (PyInt mx) 0 (zero_all c' gs w)))
  = is_ok (fst (asg_update c name 0 (PyInt mx) 0 w)).
Proof.
  revert w. induction gs as [| g gs IH]; intros w; [reflexivity |].
  rewrite zero_all_cons, IH. apply update_outcome_resize_all.
Qed.

Lemma resize_other (c : Client) (name : string) (mn mx ds : Z)
    (l : list Group) :
  (forall g, In g l -> g_region g = region_name c -> g_name g <> name) ->
  map (resize c name mn mx ds) l = l.
Proof.
  intros H. rewrite <- (map_id l) at 2. apply map_ext_in. intros g Hg.
  unfold resize. destruct (own_group c name g) eqn:Hown; [| reflexivity].
  apply own_group_iff in Hown as (R & N). destruct (H g Hg R N).
Qed.

Lemma page_groups_region (c : Client) (k : nat) (w : Cloud) (g : Group) :
  In g (page_groups c k w) ->
  In g (nth k (asg_pages w) []) /\ g_region g = region_name c.
Proof.
  unfold page_groups. intros H. apply filter_In in H as (H & R).
  split; [exact H | apply String.eqb_eq; exact R].
Qed.

(** Zeroing groups whose names do not occur on page [k] leaves the
    page as it is. *)
Lemma page_groups_zero_all (c : Client) (k : nat) (gs : list Group)
    (w : Cloud) :
  (forall g g', In g gs -> In g' (page_groups c k w) ->
                g_name g' <> g_name g) ->
  page_groups c k (zero_all c gs w) = page_groups c k w.
Proof.
  revert w. induction gs as [| g gs IH]; intros w H; [reflexivity |].
  rewrite zero_all_cons.
  assert (E : page_groups c k (resize_all c (g_name g) 0 (g_max g) 0 w)
              = page_groups c k w).
  { rewrite page_groups_resize_all. apply resize_other.
    intros g' Hg' _. apply (H g g'); [left; reflexivity | exact Hg']. }
  rewrite IH; [exact E |].
  intros g1 g' Hg1 Hg'. rewrite E in Hg'.
  apply (H g1 g'); [right; exact Hg1 | exact Hg'].
Qed.

Lemma groups_upto_in (c : Client) (w : Cloud) (k : nat) (g : Group) :
  In g (groups_upto c w k) ->
  exists j, j < k /\ In g (page_groups c j w).
Proof.
  unfold groups_upto. intros H. apply in_concat in H as (l & Hl & Hg).
  apply in_map_iff in Hl as (j & <- & Hj). apply in_seq in Hj.
  exists j. split; [lia | exact Hg].
Qed.

Lemma groups_upto_succ (c : Client) (w : Cloud) (k : nat) :
  groups_upto c w (Datatypes.S k)
  = (groups_upto c w k ++ page_groups c k w)%list.
Proof.
  unfold groups_upto. rewrite seq_S, map_app, concat_app. cbn [map concat].
  rewrite app_nil_r. reflexivity.
Qed.

(** With unique group names, the groups zeroed on earlier pages leave
    page [k] as the sweep found it. *)
Lemma page_untouched (c : Client) (w : Cloud) (k : nat) (p : Group -> bool) :
  unique_groups w ->
  page_groups c k (zero_all c (filter p (groups_upto c w k)) w)
  = page_groups c k w.
Proof.
  intros Hu. apply page_groups_zero_all. intros g g' Hg Hg' E.
  apply filter_In in Hg as (Hg & _).
  apply groups_upto_in in Hg as (j & Hj & Hg).
  apply page_groups_region in Hg as (Hg & R).
  apply page_groups_region in Hg' as (Hg' & R').
  apply (NoDup_pages_apart (fun g => (g_region g, g_name g)) (asg_pages w)
           j k g g' Hu); [lia | exact Hg | exact Hg' |].
  cbv beta. rewrite R, R', E. reflexivity.
Qed.

Lemma reached_from_spec (c : Client) (w : Cloud) (m a k : nat) :
  a <= k -> k <= a + m ->
  (forall j, a <= j -> j < k -> fault w (page_query c j) = None) ->
  (k = a + m \/ fault w (page_query c k) <> None) ->
  reached_from c w a m = k - a.
Proof.
  revert a. induction m as [| m IH]; intros a Hak Hkm Hnone Hend.
  - cbn. lia.
  - cbn [reached_from].
    destruct (Nat.eq_dec k a) as [-> | Hne].
    + destruct Hend as [E | Hf]; [lia |].
      destruct (fault w (page_query c a)); [lia | contradiction Hf;
                                                   reflexivity].
    + rewrite (Hnone a) by lia.
      rewrite (IH (Datatypes.S a)); [lia | lia | lia | |].
      * intros j Hj1 Hj2. apply Hnone; lia.
      * destruct Hend as [E | Hf]; [left; lia | right; exact Hf].
Qed.

Lemma filter_update_query (q : Call) :
  is_query q = true -> is_update_call q = false.
Proof. destruct q; cbn; intros H; try discriminate H; reflexivity. Qed.

(** The group sweeper, start to end, when group names are unique. *)
Lemma aws_scale_down_asgs_exact (c : Client) (region : string)
    (W : World Cloud) :
  unique_groups (service W) ->
  let w := service W in
  let swept := swept_groups c w in
  exists res W' added,
    scale_down_asgs provider c region W = (Ok res, W') /\
    trace W' = (trace W ++ added)%list /\
    filter is_update_call added
    = map (zero_query c) (filter (update_requested w c) swept) /\
    res = map (fun g => entry (g_name g) region)
              (filter (pending_group w c) swept) /\
    service W' = zero_all c (filter (pending_group w c) swept) w.
Proof.
  intros Hu w swept.
  pose (Core := fun (done : list Group) (st : World Cloud * list string) =>
    service (fst st) = zero_all c (filter (pending_group w c) done) w /\
    snd st = map (fun g => entry (g_name g) region)
                 (filter (pending_group w c) done) /\
    exists added,
      trace (fst st) = (trace W ++ added)%list /\
      filter is_update_call added
      = map (zero_query c) (filter (update_requested w c) done)).
  assert (Hquery : forall done W1 acc q,
             is_query q = true -> Core done (W1, acc) ->
             Core done (after W1 [q], acc)).
  { intros done W1 acc q Hq (Hsvc & Hacc & added & Htr & Hcalls).
    split; [exact Hsvc |]. split; [exact Hacc |].
    exists (added ++ [q])%list. cbn [fst after trace] in *.
    split; [rewrite Htr, app_assoc; reflexivity |].
    rewrite filter_app. cbn [filter].
    rewrite (filter_update_query q Hq), app_nil_r. exact Hcalls. }
  assert (Hskip : forall done g st,
             update_requested w c g = false -> Core done st ->
             Core (done ++ [g])%list st).
  { intros done g st Hreq (Hsvc & Hacc & added & Htr & Hcalls).
    assert (Hp : pending_group w c g = false).
    { unfold pending_group. unfold update_requested in Hreq.
      rewrite Hreq. reflexivity. }
    unfold Core. rewrite !filter_app. cbn [filter]. rewrite Hreq, Hp.
    rewrite !app_nil_r. split; [exact Hsvc |]. split; [exact Hacc |].
    exists added. split; assumption. }
  destruct (aws_scale_down_asgs_rule
    (fun k st =>
       (forall j, j < k -> fault w (page_query c j) = None) /\
       Core (groups_upto c w k) st)
    (fun k rest st =>
       (forall j, j <= k -> fault w (page_query c j) = None) /\
       exists done,
         page_groups c k w = (done ++ rest)%list /\
         Core (groups_upto c w k ++ done)%list st)
    c region W) as (res & W' & Hrun & Hend).
  - split; [intros j Hj; inversion Hj |].
    split; [reflexivity |]. split; [reflexivity |].
    exists []. rewrite app_nil_r. split; reflexivity.
  - intros k [W1 acc] Hk (Hreach & Hcore) Hf. cbn [fst snd] in *.
    pose proof Hcore as (Hsvc & _).
    cbn [fst] in Hsvc.
    assert (Hfault : fault (service W1) = fault w).
    { rewrite Hsvc. symmetry.
      destruct (zero_all_policy c
                  (filter (pending_group w c) (groups_upto c w k)) w)
        as (F & _). exact F. }
    split.
    + intros j Hj. assert (Hcase : j < k \/ j = k) by lia.
      destruct Hcase as [Hlt | ->]; [auto |]. rewrite <- Hfault. exact Hf.
    + exists []. rewrite app_nil_r. split.
      * cbn [app]. rewrite Hsvc. symmetry. apply page_untouched. exact Hu.
      * apply Hquery; [reflexivity | exact Hcore].
  - intros k g rest [W1 acc] (Hreach & done & Hpage & Hcore).
    split; [exact Hreach |]. exists (done ++ [g])%list.
    split; [rewrite Hpage, <- app_assoc; reflexivity |].
    rewrite app_assoc. set (sofar := (groups_upto c w k ++ done)%list) in *.
    rewrite aws_scale_one. cbn [fst snd]. cbv zeta.
    pose proof Hcore as (Hsvc & _). cbn [fst] in Hsvc.
    assert (Hpol : asg_protected (service W1) c (g_name g)
                   = asg_protected w c (g_name g)).
    { rewrite Hsvc. symmetry. apply asg_protected_policy.
      apply zero_all_policy. }
    assert (Hok : is_ok (fst (asg_update c (g_name g) 0 (PyInt (g_max g)) 0
                                (service W1)))
                  = is_ok (fst (asg_update c (g_name g) 0 (PyInt (g_max g)) 0
                                  w))).
    { rewrite Hsvc. apply update_outcome_zero_all. }
    pose proof (Hquery sofar W1 acc
                  (tag_query c "auto-scaling-group" (g_name g)) eq_refl Hcore)
      as Hq.
    destruct (asg_protected (service W1) c (g_name g)) eqn:Hprot.
    + apply Hskip; [| exact Hq]. unfold update_requested.
      rewrite <- Hpol. reflexivity.
    + destruct (0 <? g_desired g)%Z eqn:Hpos.
      2:{ apply Hskip; [| exact Hq]. unfold update_requested.
          rewrite Hpos. apply andb_false_r. }
      assert (Hreq : update_requested w c g = true).
      { unfold update_requested. rewrite <- Hpol, Hpos. reflexivity. }
      destruct Hcore as (_ & Hacc & added & Htr & Hcalls).
      cbn [fst snd] in *.
      assert (Hp : pending_group w c g
                   = is_ok (fst (asg_update c (g_name g) 0
                                   (PyInt (g_max g)) 0 (service W1)))).
      { unfold pending_group. rewrite <- Hpol, Hpos, Hok. reflexivity. }
      unfold Core. rewrite !filter_app. cbn [filter]. rewrite Hreq, Hp.
      destruct (asg_update_cases c (g_name g) (g_max g) (service W1))
        as [(e & Eu) | Eu]; rewrite Eu; cbn [fst snd is_ok service trace].
      * rewrite !app_nil_r. split; [exact Hsvc |]. split; [exact Hacc |].
        eexists. rewrite Htr, <- app_assoc. split; [reflexivity |].
        rewrite filter_app, Hcalls, map_app. reflexivity.
      * split; [rewrite zero_all_snoc, Hsvc; reflexivity |].
        split; [unfold append; rewrite Hacc, map_app; reflexivity |].
        eexists. rewrite Htr, <- app_assoc. split; [reflexivity |].
        rewrite filter_app, Hcalls, map_app. reflexivity.
  - intros k st (Hreach & done & Hpage & Hcore).
    rewrite app_nil_r in Hpage. subst done. split.
    + intros j Hj. apply Hreach. lia.
    + rewrite groups_upto_succ. exact Hcore.
  - assert (Hfin : forall k st,
               (forall j, j < k -> fault w (page_query c j) = None) ->
               (k = page_count w \/ fault w (page_query c k) <> None) ->
               k <= page_count w ->
               Core (groups_upto c w k) st -> Core swept st).
    { intros k st Hreach Hlast Hk Hcore. unfold swept, swept_groups.
      unfold reached_pages.
      rewrite (reached_from_spec c w (page_count w) 0 k);
        [rewrite Nat.sub_0_r; exact Hcore | lia | lia | | ].
      - intros j _ Hj. apply Hreach; exact Hj.
      - destruct Hlast as [-> | Hf]; [left; reflexivity | right; exact Hf]. }
    assert (Hcore : Core swept (W', res)).
    { destruct Hend as [(Hreach & Hcore)
                       | (k & [W1 acc] & Hk & (Hreach & Hcore) & Hf & E)].
      - apply (Hfin (page_count w)); auto.
      - injection E as -> ->. cbn [fst snd] in *.
        pose proof Hcore as (Hsvc & _). cbn [fst] in Hsvc.
        assert (Hfault : fault (service W1) = fault w).
        { rewrite Hsvc. symmetry.
          destruct (zero_all_policy c
                      (filter (pending_group w c) (groups_upto c w k)) w)
            as (F & _). exact F. }
        apply (Hquery swept W1 acc (page_query c k) eq_refl).
        apply (Hfin k); [exact Hreach | | unfold w; lia | exact Hcore].
        right. rewrite <- Hfault. exact Hf. }
    destruct Hcore as (Hsvc & Hacc & added & Htr & Hcalls).
    exists res, W', added. cbn [fst snd] in *. repeat split; assumption.
Qed.

End GroupSweep.

(** X11: with group names unique per region, the group sweeper walks
    the pages up to the first page request that fails and, in listing
    order, issues exactly one update request (MinSize 0, the group's
    MaxSize, DesiredCapacity 0) for each group there that the oracle
    does not protect and whose DesiredCapacity is positive; its result
    holds one entry, [name (region)], for each of those requests that
    succeeded, in the same order, so the entries of the pages before a
    failing page request are kept; and the service is left with exactly
    those groups zeroed. *)
Theorem group_sweep_is_exact (c : Client) (region : string)
    (W : World Aws.Cloud) :
  Facts.unique_groups (service W) ->
  let w := service W in
  let swept := Sweep.swept_groups c w in
  exists res W' added,
    scale_down_asgs Aws.provider c region W = (Ok res, W') /\
    trace W' = (trace W ++ added)%list /\
    filter is_update_call added
    = map (Facts.zero_query c) (filter (Sweep.update_requested w c) swept) /\
    res = map (fun g => Facts.entry (Aws.g_name g) region)
              (filter (Facts.pending_group w c) swept) /\
    service W' = Sweep.zero_all c (filter (Facts.pending_group w c) swept) w.
Proof. exact (aws_scale_down_asgs_exact c region W). Qed.

(** X11 at work: the request for the second page fails, so only the
    first page is swept; [asg-a] is zeroed and reported. *)
Lemma group_sweep_is_exact_witness :
  let W := start (Scenario.fleet second_page_fails) in
  Sweep.swept_groups Scenario.asg_east (service W)
  = [Scenario.group "asg-a" 1 5 3] /\
  exists res W' added,
    scale_down_asgs Aws.provider Scenario.asg_east Scenario.us_east W
    = (Ok res, W') /\
    trace W' = (trace W ++ added)%list /\
    filter is_update_call added
    = map (Facts.zero_query Scenario.asg_east)
          (filter (Sweep.update_requested (service W) Scenario.asg_east)
                  (Sweep.swept_groups Scenario.asg_east (service W))) /\
    res = map (fun g => Facts.entry (Aws.g_name g) Scenario.us_east)
              (filter (Facts.pending_group (service W) Scenario.asg_east)
                      (Sweep.swept_groups Scenario.asg_east (service W))) /\
    service W'
    = Sweep.zero_all Scenario.asg_east
        (filter (Facts.pending_group (service W) Scenario.asg_east)
                (Sweep.swept_groups Scenario.asg_east (service W)))
        (service W).
Proof.
  intros W. split; [reflexivity |].
  apply (group_sweep_is_exact Scenario.asg_east Scenario.us_east W).
  unfold Facts.unique_groups. cbn.
  repeat constructor; cbn; intuition discriminate.
Defined.

(* ================================================================== *)
(** ** A region list with nothing in it *)
(* ================================================================== *)

Lemma lstrip_blank (s : string) :
  all_chars PyStr.isspace s = true -> PyStr.lstrip s = EmptyString.
Proof.
  induction s as [| c s IH]; [reflexivity |]. cbn [all_chars PyStr.lstrip].
  intros H. apply andb_true_iff in H as (Hc & Hs). rewrite Hc. auto.
Qed.

Lemma split_blank_pieces (s piece : string) :
  all_chars comma_or_blank s = true ->
  In piece (PyStr.split "," s) -> all_chars PyStr.isspace piece = true.
Proof.
  revert piece. induction s as [| c s IH]; intros piece Hs.
  - intros [<- | []]. reflexivity.
  - cbn [all_chars] in Hs. apply andb_true_iff in Hs as (Hc & Hs).
    cbn [PyStr.split]. unfold comma_or_blank in Hc.
    destruct (Ascii.eqb c ",") eqn:E.
    + intros [<- | H]; [reflexivity | auto].
    + cbn [orb] in Hc. destruct (PyStr.split "," s) as [| p rest].
      * intros [<- | []]. cbn [all_chars]. rewrite Hc. reflexivity.
      * intros [<- | H].
        -- cbn [all_chars]. rewrite Hc. apply IH; [exact Hs |].
           left; reflexivity.
        -- apply IH; [exact Hs | right; exact H].
Qed.

Lemma filter_none {A} (p : A -> bool) (l : list A) :
  (forall x, In x l -> p x = false) -> filter p l = [].
Proof.
  induction l as [| x l IH]; intros H; [reflexivity |]. cbn [filter].
  rewrite (H x (or_introl eq_refl)). apply IH. intros y Hy. apply H.
  right; exact Hy.
Qed.

(** X12: when ALLOWED_REGIONS is set but holds nothing except commas
    and blanks (the empty string included), the default region is not
    used: the region list is empty, no request at all is issued, the
    store is left as it was, and the response carries four empty
    lists. *)
Theorem blank_region_list_does_nothing {S} (P : Provider S)
    (environ : string -> option string) (event context : pyval)
    (w : World S) (value : string) :
  environ "ALLOWED_REGIONS" = Some value ->
  all_chars comma_or_blank value = true ->
  get_allowed_regions environ = [] /\
  lambda_handler P environ event context w
  = (Ok {| statusCode := 200; body := no_aggregate |}, w).
Proof.
  intros Henv Hblank.
  assert (E : get_allowed_regions environ = []).
  { unfold get_allowed_regions. rewrite Henv. cbn [Py.get].
    rewrite filter_none; [reflexivity |].
    intros piece Hp. unfold PyStr.strip.
    rewrite (lstrip_blank piece); [reflexivity |].
    eapply split_blank_pieces; eassumption. }
  split; [exact E |].
  unfold lambda_handler. rewrite E. reflexivity.
Qed.

(** X12 at work: blanks and commas only. *)
Lemma blank_region_list_does_nothing_witness :
  get_allowed_regions (Scenario.environ_with " , ,, ") = [] /\
  lambda_handler Aws.provider (Scenario.environ_with " , ,, ") PyNone PyNone
    (start (Scenario.fleet Scenario.no_fault))
  = (Ok {| statusCode := 200; body := no_aggregate |},
     start (Scenario.fleet Scenario.no_fault)).
Proof.
  apply (blank_region_list_does_nothing Aws.provider
           (Scenario.environ_with " , ,, ") PyNone PyNone
           (start (Scenario.fleet Scenario.no_fault)) " , ,, ");
    reflexivity.
Defined.

(* ================================================================== *)
(** ** The requests of the oracle *)
(* ================================================================== *)

(** X13: whatever the provider, the oracle always answers and asks at
    most two questions.  For an instance it first asks for the
    [disableApiStop] attribute: if that request raises, or answers a
    truthy value, the answer is true and the tags are not queried;
    otherwise one tag query follows, filtered on the instance id and
    the key ResourceGovernance.  For a group it issues exactly one tag
    query, filtered on the group name and the key ResourceGovernance. *)
Theorem oracle_requests {S} (P : Provider S) (c : Client) (id name : string)
    (w : World S) :
  let q1 := Facts.attribute_query c id in
  let q2 := Facts.tag_query c "resource-id" id in
  let q3 := Facts.tag_query c "auto-scaling-group" name in
  match on_describe_instance_attribute P c id "disableApiStop" (service w)
  with
  | (Exc _, s1) =>
      is_instance_stop_protected P c id w
      = (Ok true, {| service := s1; trace := (trace w ++ [q1])%list |})
  | (Ok response, s1) =>
      if truthy (Py.get (AttrValue (Py.get (DisableApiStop response)
                                           {| AttrValue := None |}))
                        (PyBool false))
      then is_instance_stop_protected P c id w
           = (Ok true, {| service := s1; trace := (trace w ++ [q1])%list |})
      else exists b s2,
          is_instance_stop_protected P c id w
          = (Ok b, {| service := s2; trace := (trace w ++ [q1; q2])%list |})
  end /\
  exists b s3,
    is_asg_protected P c name w
    = (Ok b, {| service := s3; trace := (trace w ++ [q3])%list |}).
Proof.
  cbv zeta. split.
  - unfold is_instance_stop_protected, instance_protection_check,
      try_except, bind, do_describe_instance_attribute, do_describe_tags,
      request, ret, pure, Facts.attribute_query, Facts.tag_query, append.
    destruct (on_describe_instance_attribute P c id "disableApiStop"
                (service w)) as [[response | e] s1]; [| reflexivity].
    destruct (truthy _); [reflexivity |].
    cbn [service trace]. rewrite <- app_assoc. cbn [app].
    destruct (on_describe_tags P c _ s1) as [[tags_response | e] s2];
      [| eauto].
    destruct (any_keep_tag _); eauto.
  - unfold is_asg_protected, asg_protection_check, try_except, bind,
      do_describe_tags, request, ret, pure, Facts.tag_query, append.
    destruct (on_describe_tags P c _ (service w))
      as [[response | e] s3]; [| eauto].
    destruct (any_keep_tag _); eauto.
Qed.
